(** * nd-mancala: the game state and move engine of [src/game-state.js]

    A shallow embedding of the [GameState] class (constructor, [getStonesAt],
    [setStonesAt], [isValidMove], [performMove], [simulateMove]) and of the
    part of the [Game] class that drives it ([restartGame], the click
    handler), followed by the properties of the move engine.

    Stone counts, positions and player numbers are JavaScript numbers that
    the engine only ever uses as integers; they are modelled as [Z].  A row
    is the [P] cells of a mathjs dense matrix, modelled as a [list Z] whose
    length is the size of the matrix. *)

From Stdlib Require Import ZArith Lia Bool List.
From stdpp Require Import base list.
Import ListNotations.

Open Scope Z_scope.

(** ** Outcomes of a call *)

(** A call either returns, or throws a JavaScript exception (the engine
    itself throws nothing; mathjs throws on a bad index and [Array(n)] on a
    bad length), or, in this model only, exhausts the iteration bound that
    was given to the [while] loop. *)
Inductive result (A : Type) : Type :=
| Ok (a : A)
| Throws
| OutOfFuel.

Arguments Ok {A} a.
Arguments Throws {A}.
Arguments OutOfFuel {A}.

Definition bind {A B : Type} (r : result A) (k : A -> result B) : result B :=
  match r with
  | Ok a => k a
  | Throws => Throws
  | OutOfFuel => OutOfFuel
  end.

Notation "'let!' x ':=' r 'in' k" := (bind r (fun x => k))
  (at level 10, x pattern, r at level 100, k at level 200).

(** ** Data model *)

(** The fields of a [GameState] object.  [mancalas] is the object
    [{ player1, player2 }]; its two properties are the two stores. *)
Record GameState : Type := mkGameState {
  dimensions : Z;
  pocketsPerSide : Z;
  currentPlayer : Z;
  player1Board : list Z;
  player2Board : list Z;
  mancalas_player1 : Z;
  mancalas_player2 : Z
}.

(** An entry of the sequence built by [simulateMove]:
    [{ player, position, isMancala }]. *)
Record Cell : Type := mkCell {
  player : Z;
  position : Z;
  isMancala : bool
}.

(** The entry pushed for a store: [position: -1, isMancala: true]. *)
Definition mancalaCell (who : Z) : Cell := mkCell who (-1) true.

(** The entry pushed for a pit: [isMancala: false]. *)
Definition pitCell (who pos : Z) : Cell := mkCell who pos false.

(** [player === 1 ? this.player1Board : this.player2Board] *)
Definition boardOf (s : GameState) (who : Z) : list Z :=
  if who =? 1 then player1Board s else player2Board s.

(** [currentPlayer === 1 ? 2 : 1] *)
Definition otherPlayer (who : Z) : Z := if who =? 1 then 2 else 1.

(** Modelled from the spec: mathjs is an external dependency, so the body of
    [board.get([position])] is not among the sources.  The query "fails
    with an out-of-range error if position is outside [0, P)", [P] being
    the size the matrix was created with (the length of the list here). *)
Definition matrix_get (board : list Z) (pos : Z) : result Z :=
  if (pos <? 0) || (pos >=? Z.of_nat (length board)) then Throws
  else match board !! Z.to_nat pos with
       | Some v => Ok v
       | None => Throws
       end.

(** [board._data[position] = count]: a plain array store.  Inside the
    matrix it replaces the cell, and that is the only case the engine has:
    [isValidMove] keeps every index it writes at inside the rows.  A store
    outside the matrix is not covered by this model: JavaScript then adds a
    property (negative index) or extends the raw array with holes (index
    past the end), and whether [get] shows the new element depends on the
    version of mathjs.  The model leaves the row as it is there, and no
    property below is about such a write. *)
Definition data_set (board : list Z) (pos count : Z) : list Z :=
  if (0 <=? pos) && (pos <? Z.of_nat (length board))
  then <[Z.to_nat pos := count]> board
  else board.

Definition getStonesAt (s : GameState) (who pos : Z) : result Z :=
  matrix_get (boardOf s who) pos.

Definition setStonesAt (s : GameState) (who pos count : Z) : GameState :=
  if who =? 1 then
    mkGameState (dimensions s) (pocketsPerSide s) (currentPlayer s)
      (data_set (player1Board s) pos count) (player2Board s)
      (mancalas_player1 s) (mancalas_player2 s)
  else
    mkGameState (dimensions s) (pocketsPerSide s) (currentPlayer s)
      (player1Board s) (data_set (player2Board s) pos count)
      (mancalas_player1 s) (mancalas_player2 s).

(** [this.mancalas[`player${who}`]]: the store of [who].  For any other
    number the template names a property that does not exist; neither store
    is read ([0] stands for the missing value, which no caller uses). *)
Definition mancalaOf (s : GameState) (who : Z) : Z :=
  if who =? 1 then mancalas_player1 s
  else if who =? 2 then mancalas_player2 s
  else 0.

(** [this.mancalas[`player${who}`] += n] (and [++] for [n = 1]).  For a
    number other than 1 and 2 the assignment creates a new property and
    leaves both stores as they are. *)
Definition mancalaAdd (s : GameState) (who n : Z) : GameState :=
  if who =? 1 then
    mkGameState (dimensions s) (pocketsPerSide s) (currentPlayer s)
      (player1Board s) (player2Board s)
      (mancalas_player1 s + n) (mancalas_player2 s)
  else if who =? 2 then
    mkGameState (dimensions s) (pocketsPerSide s) (currentPlayer s)
      (player1Board s) (player2Board s)
      (mancalas_player1 s) (mancalas_player2 s + n)
  else s.

Definition setCurrentPlayer (s : GameState) (who : Z) : GameState :=
  mkGameState (dimensions s) (pocketsPerSide s) who
    (player1Board s) (player2Board s)
    (mancalas_player1 s) (mancalas_player2 s).

(** ** Construction *)

(** [Array(n)] throws a RangeError unless [n] is an array length. *)
Definition validArrayLength (n : Z) : bool := (0 <=? n) && (n <=? 4294967295).

(** [const initialStones = 4] in [initialize]. *)
Definition initialStones : Z := 4.

(** [new GameState(dimensions, pocketsPerSide)]: the constructor followed by
    [initialize]. *)
Definition GameState_new (dims pockets : Z) : result GameState :=
  if validArrayLength pockets then
    Ok (mkGameState dims pockets 1
          (replicate (Z.to_nat pockets) initialStones)
          (replicate (Z.to_nat pockets) initialStones)
          0 0)
  else Throws.

(** The inner loop of [restartGame]:
    [for (pos = 0; pos < pocketsPerSide; pos++) setStonesAt(player, pos, n)],
    with [k] iterations left. *)
Fixpoint fillRow (k : nat) (s : GameState) (who pos n : Z) : GameState :=
  match k with
  | O => s
  | S k' => fillRow k' (setStonesAt s who pos n) who (pos + 1) n
  end.

(** [Game.restartGame], with [n] the value of [this.initialStones]: a fresh
    [GameState(2, 6)], every pit of both players overwritten with [n], both
    stores and the turn marker reset. *)
Definition restartGame (n : Z) : result GameState :=
  let! s := GameState_new 2 6 in
  let s1 := fillRow (Z.to_nat (pocketsPerSide s)) s 1 0 n in
  let s2 := fillRow (Z.to_nat (pocketsPerSide s1)) s1 2 0 n in
  let s3 :=
    mkGameState (dimensions s2) (pocketsPerSide s2) (currentPlayer s2)
      (player1Board s2) (player2Board s2) 0 0 in
  Ok (setCurrentPlayer s3 1).

(** ** Validation *)

Definition isValidMove (s : GameState) (pos : Z) : result bool :=
  if (pos <? 0) || (pos >=? pocketsPerSide s) then Ok false
  else
    let! stones := getStonesAt s (currentPlayer s) pos in
    Ok (stones >? 0).

(** ** The move *)

(** The local variables of [performMove] while its loop runs.
    [cursorPlayer] is the local [currentPlayer], renamed apart from the
    field of the same name.  [touched] and [iterations] are not in the
    source: [touched] records, in order,
    each cell at the moment a sown stone is added to it (the store
    increment and the pit increment of the loop body), and [iterations]
    counts the passes through the loop body. *)
Record Sowing : Type := mkSowing {
  stones : Z;
  cursorPlayer : Z;
  currentPos : Z;
  lastStoneInMancala : bool;
  touched : list Cell;
  iterations : nat
}.

(** "Handle capture on last stone": the [if (stones === 0 && ...)] block at
    the end of the loop body; [left] is the value of [stones] there. *)
Definition handleCapture (s : GameState) (who pos left : Z) : result GameState :=
  if (left =? 0) && (who =? currentPlayer s) then
    let! landed := getStonesAt s who pos in
    let landedInEmptyPit := landed =? 1 in
    if landedInEmptyPit then
      let oppositePlayer := otherPlayer who in
      let! oppositeStones :=
        getStonesAt s oppositePlayer (pocketsPerSide s - 1 - pos) in
      if oppositeStones >? 0 then
        let capturedStones := oppositeStones + 1 in
        let s1 := setStonesAt s oppositePlayer (pocketsPerSide s - 1 - pos) 0 in
        let s2 := setStonesAt s1 who pos 0 in
        Ok (mancalaAdd s2 who capturedStones)
      else Ok s
    else Ok s
  else Ok s.

(** "Place stone in current pit" and what follows it in the loop body:
    the pit at the cursor gains a stone, [stones--], the capture block. *)
Definition placeStone (s : GameState) (w : Sowing) (who pos : Z)
  : result (GameState * Sowing) :=
  let! n := getStonesAt s who pos in
  let s1 := setStonesAt s who pos (n + 1) in
  let left := stones w - 1 in
  let! s2 := handleCapture s1 who pos left in
  Ok (s2, mkSowing left who pos (lastStoneInMancala w)
            (touched w ++ [pitCell who pos]) (iterations w)).

(** One pass through the body of [while (stones > 0)].  The boolean is
    [true] when the pass ends in [break]. *)
Definition sowIteration (s : GameState) (w : Sowing)
  : result (GameState * Sowing * bool) :=
  let w := mkSowing (stones w) (cursorPlayer w) (currentPos w + 1)
             (lastStoneInMancala w) (touched w) (S (iterations w)) in
  if currentPos w >=? pocketsPerSide s then
    if cursorPlayer w =? currentPlayer s then
      let s1 := mancalaAdd s (cursorPlayer w) 1 in
      let left := stones w - 1 in
      let w1 := mkSowing left (cursorPlayer w) (currentPos w) (left =? 0)
                  (touched w ++ [mancalaCell (cursorPlayer w)])
                  (iterations w) in
      if lastStoneInMancala w1 then Ok (s1, w1, true)
      else
        let! (s2, w2) := placeStone s1 w1 (otherPlayer (cursorPlayer w1)) 0 in
        Ok (s2, w2, false)
    else
      let! (s2, w2) := placeStone s w (otherPlayer (cursorPlayer w)) 0 in
      Ok (s2, w2, false)
  else
    let! (s2, w2) := placeStone s w (cursorPlayer w) (currentPos w) in
    Ok (s2, w2, false).

(** [while (stones > 0) { ... }], given at most [fuel] passes. *)
Fixpoint sowLoop (fuel : nat) (s : GameState) (w : Sowing)
  : result (GameState * Sowing) :=
  if stones w >? 0 then
    match fuel with
    | O => OutOfFuel
    | S fuel' =>
        let! (s1, w1, stop) := sowIteration s w in
        if stop then Ok (s1, w1) else sowLoop fuel' s1 w1
    end
  else Ok (s, w).

(** What a call of [performMove] leaves behind: the value it returns, the
    state of the object, and the two records of the loop. *)
Record MoveOutcome : Type := mkMoveOutcome {
  keepsTurn : bool;
  after : GameState;
  sown : list Cell;
  passes : nat
}.

(** [performMove(position)] with the loop given [fuel] passes. *)
Definition performMoveWith (fuel : nat) (s : GameState) (pos : Z)
  : result MoveOutcome :=
  let! valid := isValidMove s pos in
  if negb valid then Ok (mkMoveOutcome false s [] 0)
  else
    let! picked := getStonesAt s (currentPlayer s) pos in
    let s0 := setStonesAt s (currentPlayer s) pos 0 in
    let w0 := mkSowing picked (currentPlayer s0) pos false [] 0 in
    let! (s1, w1) := sowLoop fuel s0 w0 in
    let s2 :=
      if negb (lastStoneInMancala w1)
      then setCurrentPlayer s1 (otherPlayer (currentPlayer s1))
      else s1 in
    Ok (mkMoveOutcome (lastStoneInMancala w1) s2 (touched w1) (iterations w1)).

(** The stones in the chosen pit, as a number of loop passes: every pass
    takes at least one stone, so this many passes are enough (proved
    below, together with the fact that more passes change nothing). *)
Definition stonesInHand (s : GameState) (pos : Z) : nat :=
  match getStonesAt s (currentPlayer s) pos with
  | Ok n => Z.to_nat n
  | _ => O
  end.

Definition performMoveRun (s : GameState) (pos : Z) : result MoveOutcome :=
  performMoveWith (stonesInHand s pos) s pos.

(** [performMove(position)]: the returned boolean and the new state. *)
Definition performMove (s : GameState) (pos : Z) : result (bool * GameState) :=
  let! o := performMoveRun s pos in
  Ok (keepsTurn o, after o).

(** ** The preview *)

(** The [for (let i = 0; i < stones; i++)] loop of [simulateMove] with [k]
    iterations left; [mover] is [this.currentPlayer] and [pockets] is
    [this.pocketsPerSide]. *)
Fixpoint simulateLoop (k : nat) (mover pockets who pos : Z)
    (sequence : list Cell) : list Cell :=
  match k with
  | O => sequence
  | S k' =>
      let pos := pos + 1 in
      if pos >=? pockets then
        if who =? mover then
          simulateLoop k' mover pockets (otherPlayer who) (-1)
            (sequence ++ [mancalaCell who])
        else
          simulateLoop k' mover pockets (otherPlayer who) 0
            (sequence ++ [pitCell (otherPlayer who) 0])
      else
        simulateLoop k' mover pockets who pos (sequence ++ [pitCell who pos])
  end.

Definition simulateMove (s : GameState) (pos : Z) : result (list Cell) :=
  let! valid := isValidMove s pos in
  if negb valid then Ok []
  else
    let! stones := getStonesAt s (currentPlayer s) pos in
    Ok (simulateLoop (Z.to_nat stones) (currentPlayer s) (pocketsPerSide s)
          (currentPlayer s) pos []).

(** ** The caller *)

(** What [Game.handleClick] does to the game state for a pit of the player
    to move: [if (isValidMove(position)) performMove(position)].  The
    redraw that follows in the handler, [animateMove], does not change the
    game state; [handleClick] below has it. *)
Definition clickPit (s : GameState) (pos : Z) : result GameState :=
  let! valid := isValidMove s pos in
  if valid then
    let! (_, s') := performMove s pos in Ok s'
  else Ok s.

(** The states a game goes through, the starting state first, when the
    pits [moves] are clicked one after the other. *)
Fixpoint playMoves (s : GameState) (moves : list Z) : result (list GameState) :=
  match moves with
  | [] => Ok [s]
  | pos :: rest =>
      let! s' := clickPit s pos in
      let! later := playMoves s' rest in
      Ok (s :: later)
  end.

(** ** Notions used to state the properties *)

(** The states the engine works on: each row has [pocketsPerSide] cells (the
    constructor builds them so and nothing resizes a matrix) and the turn
    marker is 1 or 2. *)
Definition rowsMatch (s : GameState) : Prop :=
  Z.of_nat (length (player1Board s)) = pocketsPerSide s
  /\ Z.of_nat (length (player2Board s)) = pocketsPerSide s.

Definition wellFormed (s : GameState) : Prop :=
  rowsMatch s /\ (currentPlayer s = 1 \/ currentPlayer s = 2).

(** The count in a pit, [0] where [getStonesAt] would throw. *)
Definition cellAt (s : GameState) (who pos : Z) : Z :=
  default 0 (boardOf s who !! Z.to_nat pos).

(** The state once the mover has picked up the stones of pit [pos]. *)
Definition pickUp (s : GameState) (pos : Z) : GameState :=
  setStonesAt s (currentPlayer s) pos 0.

(** One stone added to the cell that an entry of a sequence names. *)
Definition sowCell (s : GameState) (c : Cell) : GameState :=
  if isMancala c then mancalaAdd s (player c) 1
  else setStonesAt s (player c) (position c)
         (cellAt s (player c) (position c) + 1).

(** One stone added to each cell of a sequence, in order. *)
Definition sowAll (s : GameState) (cells : list Cell) : GameState :=
  fold_left sowCell cells s.

(** The mirror pit: index [P - 1 - i] of the other row. *)
Definition mirror (s : GameState) (pos : Z) : Z := pocketsPerSide s - 1 - pos.

(** The capture condition as the code tests it once the last stone is in
    pit [pos] of [who]: the pit belongs to the mover, it now holds exactly
    one stone, and the mirror pit is not empty. *)
Definition captures (s : GameState) (who pos : Z) : bool :=
  (who =? currentPlayer s) && (cellAt s who pos =? 1)
  && (cellAt s (otherPlayer who) (mirror s pos) >? 0).

(** The transfer of a capture: mirror pit and landing pit emptied, their
    stones added to the store of [who]. *)
Definition transfer (s : GameState) (who pos : Z) : GameState :=
  mancalaAdd
    (setStonesAt (setStonesAt s (otherPlayer who) (mirror s pos) 0) who pos 0)
    who (cellAt s (otherPlayer who) (mirror s pos) + 1).

Definition captureAt (s : GameState) (who pos : Z) : GameState :=
  if captures s who pos then transfer s who pos else s.

(** The capture step after a sequence of cells has been sown: it looks at
    the last cell only, and only if that cell is a pit. *)
Definition settle (s : GameState) (cells : list Cell) : GameState :=
  match last cells with
  | Some c => if isMancala c then s else captureAt s (player c) (position c)
  | None => s
  end.

(** Whether the last cell of a sequence is a store. *)
Definition endsInMancala (cells : list Cell) : bool :=
  match last cells with
  | Some c => isMancala c
  | None => false
  end.

(** The end of [performMove]: the turn passes unless the move ended in the
    store. *)
Definition passTurn (s : GameState) (keeps : bool) : GameState :=
  if negb keeps then setCurrentPlayer s (otherPlayer (currentPlayer s)) else s.

Definition sumRow (row : list Z) : Z := fold_right Z.add 0 row.

(** All the stones of a state: both rows and both stores. *)
Definition totalStones (s : GameState) : Z :=
  sumRow (player1Board s) + sumRow (player2Board s)
  + mancalas_player1 s + mancalas_player2 s.

(** A pit entry inside the rows, or the store entry of [mover]. *)
Definition cellOk (mover pockets : Z) (c : Cell) : Prop :=
  if isMancala c then c = mancalaCell mover
  else 0 <= position c < pockets.

(** The two ways a game starts, with [pockets] pits a side and [n] stones a
    pit: the constructor, whose stones are [initialStones], and
    [restartGame], whose board has six pits a side. *)
Definition startOfGame (pockets n : Z) (s : GameState) : Prop :=
  (exists dims, GameState_new dims pockets = Ok s /\ n = initialStones)
  \/ (restartGame n = Ok s /\ pockets = 6).

(** The last stone "lands in an empty mover-owned pit": [c] is the last
    cell sown, a pit of the mover, and it holds nothing in [before], the
    board just before that stone is added. *)
Definition landsInEmptyOwnPit (s before : GameState) (c : Cell) : bool :=
  negb (isMancala c) && (player c =? currentPlayer s)
  && (cellAt before (player c) (position c) =? 0).

(** ** Boards used as concrete instances *)

(** The board of [new GameState(2, 6)]. *)
Definition opening : GameState :=
  mkGameState 2 6 1 [4; 4; 4; 4; 4; 4] [4; 4; 4; 4; 4; 4] 0 0.

(** Player 1 to move; pit 0 holds one stone, pit 1 is empty and the pit
    facing pit 1 (pit 4 of player 2) holds four stones. *)
Definition fullMirror : GameState :=
  mkGameState 2 6 1 [1; 0; 4; 4; 4; 4] [4; 4; 4; 4; 4; 4] 0 0.

(** The same board with the pit facing pit 1 empty. *)
Definition emptyMirror : GameState :=
  mkGameState 2 6 1 [1; 0; 4; 4; 4; 4] [4; 4; 4; 4; 0; 4] 0 0.

(** ** The rest of the engine *)

(** [getCurrentMancalaCount()]:
    [this.mancalas[`player${this.currentPlayer}`]].  [None] is the
    [undefined] that JavaScript returns for a property that does not
    exist. *)
Definition getCurrentMancalaCount (s : GameState) : option Z :=
  if currentPlayer s =? 1 then Some (mancalas_player1 s)
  else if currentPlayer s =? 2 then Some (mancalas_player2 s)
  else None.

(** No pit and no store holds a negative count. *)
Definition nonNegative (s : GameState) : Prop :=
  Forall (fun n => 0 <= n) (player1Board s)
  /\ Forall (fun n => 0 <= n) (player2Board s)
  /\ 0 <= mancalas_player1 s /\ 0 <= mancalas_player2 s.

(** A cell of a sequence that is not pit [pos] of [mover]: a store, a pit
    of the other player, or another pit of [mover]. *)
Definition awayFrom (mover pos : Z) (c : Cell) : Prop :=
  isMancala c = true \/ player c = otherPlayer mover
  \/ (player c = mover /\ position c <> pos).

(** ** The flat board of [game-logic.js] *)

(** What [initializeBoard] returns: [{ board, mancalas }], the board being
    one matrix for both rows. *)
Record BoardState : Type := mkBoardState {
  board : list Z;
  board_mancalas_player1 : Z;
  board_mancalas_player2 : Z
}.

(** [initializeBoard(dimensions, pocketsPerSide)]: an array of
    [pocketsPerSide * 2] cells filled with [initialStones = 4], and two
    empty stores. *)
Definition initializeBoard (dims pockets : Z) : result BoardState :=
  let boardSize := pockets * 2 in
  if validArrayLength boardSize then
    Ok (mkBoardState (replicate (Z.to_nat boardSize) 4) 0 0)
  else Throws.

(** [board.get([index])] with an index that need not be an integer.
    mathjs, an external dependency that is not among the sources, checks
    every index it is given: one that is not an integer is rejected with a
    TypeError before the matrix is read.
    [twice] is the double of the index, so that the half-integers
    [i + size / 2] that an odd-sized board produces can be written. *)
Definition matrix_get_half (cells : list Z) (twice : Z) : result Z :=
  if Z.even twice then matrix_get cells (twice / 2) else Throws.

(** The reads of one of the two pit loops of the first [renderBoard]:
    [for (i = 0; i < pitsPerPlayer; i++) board.get([i + offset])], with [k]
    iterations left and [twiceOffset] the double of [offset].  The list is
    the counts handed to [updatePitStones], in order. *)
Fixpoint readPits (k : nat) (cells : list Z) (i twiceOffset : Z)
  : result (list Z) :=
  match k with
  | O => Ok []
  | S k' =>
      let! stoneCount := matrix_get_half cells (2 * i + twiceOffset) in
      let! rest := readPits k' cells (i + 1) twiceOffset in
      Ok (stoneCount :: rest)
  end.

(** The counts that the first [renderBoard] reads from a flat board:
    player 1's pits at [i], player 2's at [i + pitsPerPlayer], then the two
    stores.  [pitsPerPlayer] is [board.size() / 2], a half-integer when the
    size is odd; the loop condition [i < pitsPerPlayer] holds for the first
    [(size + 1) / 2] values of [i] (integer division), and the double of
    the offset [pitsPerPlayer] is [size]. *)
Definition renderCounts (bs : BoardState)
  : result (list Z * list Z * Z * Z) :=
  let size := Z.of_nat (length (board bs)) in
  let passes := Z.to_nat ((size + 1) / 2) in
  let! row1 := readPits passes (board bs) 0 0 in
  let! row2 := readPits passes (board bs) 0 size in
  Ok (row1, row2, board_mancalas_player1 bs, board_mancalas_player2 bs).

(** ** Highlights *)

(** The [intensity] uniform of a glow mesh.  It is a floating-point number
    that the code computes from two integers and never reads back; the
    model keeps the two integers: [Fade index length] is
    [0.6 - (index / length) * 0.2], and [NoGlow] is [0.0]. *)
Inductive Intensity : Type :=
| NoGlow
| Fade (index length : nat).

(** The state of a glow mesh that [highlightMoveSequence] writes:
    [visible] and [material.uniforms.intensity.value]. *)
Record Glow : Type := mkGlow {
  visible : bool;
  intensity : Intensity
}.

(** A pit or store mesh, as far as highlighting goes: its [glowMesh], if
    it has one. *)
Definition Mesh : Type := option Glow.

Record VisualElements : Type := mkVisualElements {
  player1Pits : list Mesh;
  player2Pits : list Mesh;
  player1Mancala : Mesh;
  player2Mancala : Mesh
}.

(** [if (m.glowMesh) { visible = false; intensity = 0.0 }] *)
Definition glowOff (m : Mesh) : Mesh :=
  match m with
  | Some _ => Some (mkGlow false NoGlow)
  | None => None
  end.

(** [if (m.glowMesh) { visible = true; intensity = level }] *)
Definition glowOn (level : Intensity) (m : Mesh) : Mesh :=
  match m with
  | Some _ => Some (mkGlow true level)
  | None => None
  end.

(** "Reset all highlights first": the two [forEach] loops at the head of
    [highlightMoveSequence]. *)
Definition resetHighlights (v : VisualElements) : VisualElements :=
  mkVisualElements (map glowOff (player1Pits v)) (map glowOff (player2Pits v))
    (glowOff (player1Mancala v)) (glowOff (player2Mancala v)).

(** [const pit = pits[pos.position]; if (pit && pit.glowMesh) { ... }]: an
    index outside the array gives [undefined] and nothing is written. *)
Definition lightPit (pits : list Mesh) (pos : Z) (level : Intensity)
  : list Mesh :=
  if 0 <=? pos then
    match pits !! Z.to_nat pos with
    | Some pit => <[Z.to_nat pos := glowOn level pit]> pits
    | None => pits
    end
  else pits.

(** The body of [sequence.forEach((pos, index) => ...)]; [len] is
    [sequence.length]. *)
Definition highlightCell (len : nat) (v : VisualElements) (index : nat)
    (c : Cell) : VisualElements :=
  let level := Fade index len in
  if isMancala c then
    if player c =? 1 then
      mkVisualElements (player1Pits v) (player2Pits v)
        (glowOn level (player1Mancala v)) (player2Mancala v)
    else
      mkVisualElements (player1Pits v) (player2Pits v)
        (player1Mancala v) (glowOn level (player2Mancala v))
  else
    if player c =? 1 then
      mkVisualElements (lightPit (player1Pits v) (position c) level)
        (player2Pits v) (player1Mancala v) (player2Mancala v)
    else
      mkVisualElements (player1Pits v)
        (lightPit (player2Pits v) (position c) level)
        (player1Mancala v) (player2Mancala v).

(** [sequence.forEach] from entry number [index] on. *)
Fixpoint highlightFrom (len index : nat) (v : VisualElements)
    (sequence : list Cell) : VisualElements :=
  match sequence with
  | [] => v
  | c :: rest => highlightFrom len (S index) (highlightCell len v index c) rest
  end.

Definition highlightMoveSequence (v : VisualElements) (sequence : list Cell)
  : VisualElements :=
  highlightFrom (length sequence) 0 (resetHighlights v) sequence.

(** [clearHighlights(visualElements)] *)
Definition clearHighlights (v : VisualElements) : VisualElements :=
  highlightMoveSequence v [].

(** [Game.handleHover] once the ray has been cast: [hovered] is the pit
    under the pointer, if any, as the row it is in ([true] for
    [player1Pits]) and its index in that row. *)
Definition handleHover (s : GameState) (v : VisualElements)
    (hovered : option (bool * Z)) : result VisualElements :=
  match hovered with
  | Some (true, pos) =>
      if currentPlayer s =? 1 then
        let! sequence := simulateMove s pos in
        Ok (highlightMoveSequence v sequence)
      else Ok v
  | Some (false, pos) =>
      if currentPlayer s =? 2 then
        let! sequence := simulateMove s pos in
        Ok (highlightMoveSequence v sequence)
      else Ok v
  | None => Ok (clearHighlights v)
  end.

(** A place on the screen that can glow: a store or a pit, of the first or
    of the second row. *)
Inductive Spot : Type :=
| MancalaSpot (first : bool)
| PitSpot (first : bool) (index : nat).

Definition meshAt (v : VisualElements) (spot : Spot) : option Mesh :=
  match spot with
  | MancalaSpot true => Some (player1Mancala v)
  | MancalaSpot false => Some (player2Mancala v)
  | PitSpot true i => player1Pits v !! i
  | PitSpot false i => player2Pits v !! i
  end.

(** Whether an entry of a sequence names a spot. *)
Definition names (c : Cell) (spot : Spot) : bool :=
  match spot with
  | MancalaSpot first => isMancala c && Bool.eqb (player c =? 1) first
  | PitSpot first i =>
      negb (isMancala c) && Bool.eqb (player c =? 1) first
      && (0 <=? position c) && (Z.to_nat (position c) =? i)%nat
  end.

(** The number of the last entry that names a spot, counting from
    [index]. *)
Fixpoint lastNaming (index : nat) (sequence : list Cell) (spot : Spot)
  : option nat :=
  match sequence with
  | [] => None
  | c :: rest =>
      match lastNaming (S index) rest spot with
      | Some k => Some k
      | None => if names c spot then Some index else None
      end
  end.

(** The glow meshes of a board of six pits a side as the second
    [renderBoard] builds it: [createPitMesh] and [createMancala] give every
    pit and store a glow mesh, invisible and with intensity 0. *)
Definition freshVisuals : VisualElements :=
  mkVisualElements
    (replicate 6 (Some (mkGlow false NoGlow)))
    (replicate 6 (Some (mkGlow false NoGlow)))
    (Some (mkGlow false NoGlow)) (Some (mkGlow false NoGlow)).

(** ** Redrawing the board *)

(** One of the two pit loops of the second [updateBoard]:
    [pits.forEach((pit, i) => updatePitStones(pit, gameState.getStonesAt(who, i), scene))],
    with [k] pits left.  The list is the counts handed to
    [updatePitStones], in order. *)
Fixpoint readRow (k : nat) (s : GameState) (who i : Z) : result (list Z) :=
  match k with
  | O => Ok []
  | S k' =>
      let! stoneCount := getStonesAt s who i in
      let! rest := readRow k' s who (i + 1) in
      Ok (stoneCount :: rest)
  end.

(** The counts that [updateBoard(visualElements, gameState, scene)] draws:
    one per pit mesh of each row, then the two stores. *)
Definition updateBoard (v : VisualElements) (s : GameState)
  : result (list Z * list Z * Z * Z) :=
  let! row1 := readRow (length (player1Pits v)) s 1 0 in
  let! row2 := readRow (length (player2Pits v)) s 2 0 in
  Ok (row1, row2, mancalas_player1 s, mancalas_player2 s).

(** [animateMove]: the highlights are cleared, then the board is redrawn.
    The result is the highlights and the counts drawn. *)
Definition animateMove (v : VisualElements) (s : GameState)
  : result (VisualElements * (list Z * list Z * Z * Z)) :=
  let v' := clearHighlights v in
  let! counts := updateBoard v' s in
  Ok (v', counts).

(** ** The click handler *)

(** [Game.handleClick] once the ray has been cast: [clicked] is the pit
    under the pointer, if any, as the row it is in ([true] for
    [player1Pits]) and its index in that row.  The result is the game state,
    the highlights, and the counts drawn by [animateMove] when a move was
    made. *)
Definition handleClick (s : GameState) (v : VisualElements)
    (clicked : option (bool * Z))
  : result (GameState * VisualElements * option (list Z * list Z * Z * Z)) :=
  let play (pos : Z) :=
    let! valid := isValidMove s pos in
    if valid then
      let! (_, s') := performMove s pos in
      let! (v', drawn) := animateMove v s' in
      Ok (s', v', Some drawn)
    else Ok (s, v, None) in
  match clicked with
  | Some (true, pos) =>
      if currentPlayer s =? 1 then play pos else Ok (s, v, None)
  | Some (false, pos) =>
      if currentPlayer s =? 2 then play pos else Ok (s, v, None)
  | None => Ok (s, v, None)
  end.

(** ** The board read off the preview *)

Definition sameCell (a b : Cell) : bool :=
  (player a =? player b) && (position a =? position b)
  && Bool.eqb (isMancala a) (isMancala b).

(** How many entries of a sequence are the cell [c]. *)
Definition timesSown (cells : list Cell) (c : Cell) : Z :=
  Z.of_nat (length (List.filter (sameCell c) cells)).

(** The count of pit [i] of [who] once the stones of pit [pos] have been
    picked up from [s] and one stone has been added for each entry of
    [cells]: computed from the counts of [s] and the sequence alone. *)
Definition pitAfterSowing (s : GameState) (pos : Z) (cells : list Cell)
    (who i : Z) : Z :=
  (if (who =? currentPlayer s) && (i =? pos) then 0 else cellAt s who i)
  + timesSown cells (pitCell who i).

(** The store of [who] after one stone for each of its entries in
    [cells]. *)
Definition storeAfterSowing (s : GameState) (cells : list Cell) (who : Z) : Z :=
  mancalaOf s who + timesSown cells (mancalaCell who).

(** Whether the last entry of [cells] calls for a capture, on the counts
    computed from [s] and [cells]. *)
Definition captureDue (s : GameState) (pos : Z) (cells : list Cell) : bool :=
  match last cells with
  | Some c =>
      negb (isMancala c) && (player c =? currentPlayer s)
      && (pitAfterSowing s pos cells (player c) (position c) =? 1)
      && (pitAfterSowing s pos cells (otherPlayer (player c))
            (mirror s (position c)) >? 0)
  | None => false
  end.

(** The count of pit [i] of [who] after the whole move whose preview is
    [cells]: as sowing leaves it, or 0 for the landing pit and its mirror
    pit when the move captures. *)
Definition pitAfterMove (s : GameState) (pos : Z) (cells : list Cell)
    (who i : Z) : Z :=
  match last cells with
  | Some c =>
      if captureDue s pos cells
         && (((who =? player c) && (i =? position c))
             || ((who =? otherPlayer (player c))
                 && (i =? mirror s (position c))))
      then 0
      else pitAfterSowing s pos cells who i
  | None => pitAfterSowing s pos cells who i
  end.

(** The store of [who] after the whole move whose preview is [cells]: as
    sowing leaves it, plus the captured stones and the landing stone for
    the mover when the move captures. *)
Definition storeAfterMove (s : GameState) (pos : Z) (cells : list Cell)
    (who : Z) : Z :=
  match last cells with
  | Some c =>
      if captureDue s pos cells && (who =? player c)
      then storeAfterSowing s cells who
           + pitAfterSowing s pos cells (otherPlayer (player c))
               (mirror s (position c))
           + 1
      else storeAfterSowing s cells who
  | None => storeAfterSowing s cells who
  end.

(** What can be read from a state [t] with [pockets] pits a side: every
    pit through [getStonesAt], and the two stores. *)
Definition readsAs (t : GameState) (pockets : Z) (pit : Z -> Z -> Z)
    (store : Z -> Z) : Prop :=
  (forall who i,
     who = 1 \/ who = 2 -> 0 <= i < pockets ->
     getStonesAt t who i = Ok (pit who i))
  /\ mancalas_player1 t = store 1
  /\ mancalas_player2 t = store 2.

(** The loop of [performMove] stopped after at most [j] passes: the state
    of the board and the local variables at that point. *)
Fixpoint sowPasses (j : nat) (s : GameState) (w : Sowing)
  : result (GameState * Sowing) :=
  match j with
  | O => Ok (s, w)
  | S j' =>
      if stones w >? 0 then
        let! (s1, w1, stop) := sowIteration s w in
        if stop then Ok (s1, w1) else sowPasses j' s1 w1
      else Ok (s, w)
  end.

(** The local variables with which [performMove] enters its loop, on the
    state left by the pick-up. *)
Definition startOfSowing (s : GameState) (pos picked : Z) : Sowing :=
  mkSowing picked (currentPlayer (pickUp s pos)) pos false [] 0.

(** * Properties *)

(** ** Rows and cells *)

Section Rows.

Implicit Types (row : list Z) (pos count : Z).

Lemma matrix_get_inside row pos :
  0 <= pos < Z.of_nat (length row) ->
  matrix_get row pos = Ok (default 0 (row !! Z.to_nat pos)).
Proof.
  intros Hin. unfold matrix_get.
  replace (pos <? 0) with false by lia.
  replace (pos >=? Z.of_nat (length row)) with false by lia.
  simpl.
  destruct (lookup_lt_is_Some_2 row (Z.to_nat pos)) as [v Hv]; [lia|].
  now rewrite Hv.
Qed.

Lemma data_set_length row pos count :
  length (data_set row pos count) = length row.
Proof.
  unfold data_set.
  destruct ((0 <=? pos) && (pos <? Z.of_nat (length row)));
    [apply length_insert | reflexivity].
Qed.

Lemma data_set_inside row pos count :
  0 <= pos < Z.of_nat (length row) ->
  data_set row pos count = <[Z.to_nat pos := count]> row.
Proof.
  intros Hin. unfold data_set.
  replace (0 <=? pos) with true by lia.
  replace (pos <? Z.of_nat (length row)) with true by lia.
  reflexivity.
Qed.

Lemma sumRow_insert row (i : nat) count :
  (i < length row)%nat ->
  sumRow (<[i := count]> row) = sumRow row - default 0 (row !! i) + count.
Proof.
  revert i. induction row as [|x row IH]; intros i Hi; simpl in *; [lia|].
  destruct i as [|i]; simpl; [lia|].
  rewrite IH by lia. unfold sumRow. simpl. lia.
Qed.

Lemma sumRow_data_set row pos count :
  0 <= pos < Z.of_nat (length row) ->
  sumRow (data_set row pos count)
  = sumRow row - default 0 (row !! Z.to_nat pos) + count.
Proof.
  intros Hin. rewrite data_set_inside by assumption.
  apply sumRow_insert. lia.
Qed.

Lemma sumRow_replicate (k : nat) count :
  sumRow (replicate k count) = Z.of_nat k * count.
Proof.
  induction k as [|k IH]; [reflexivity|].
  change (sumRow (replicate (S k) count))
    with (count + sumRow (replicate k count)).
  rewrite IH. lia.
Qed.

End Rows.

(** ** The accessors *)

Lemma otherPlayer_neq who : otherPlayer who <> who.
Proof. unfold otherPlayer. destruct (Z.eqb_spec who 1); lia. Qed.

Lemma otherPlayer_range who : otherPlayer who = 1 \/ otherPlayer who = 2.
Proof. unfold otherPlayer. destruct (who =? 1); auto. Qed.

Lemma boardOf_length s who :
  rowsMatch s -> Z.of_nat (length (boardOf s who)) = pocketsPerSide s.
Proof. intros [H1 H2]. unfold boardOf. now destruct (who =? 1). Qed.

Lemma getStonesAt_inside s who pos :
  rowsMatch s -> 0 <= pos < pocketsPerSide s ->
  getStonesAt s who pos = Ok (cellAt s who pos).
Proof.
  intros Hrows Hin. unfold getStonesAt, cellAt.
  apply matrix_get_inside. rewrite boardOf_length; assumption.
Qed.

Lemma setStonesAt_pockets s who pos count :
  pocketsPerSide (setStonesAt s who pos count) = pocketsPerSide s.
Proof. unfold setStonesAt. now destruct (who =? 1). Qed.

Lemma setStonesAt_currentPlayer s who pos count :
  currentPlayer (setStonesAt s who pos count) = currentPlayer s.
Proof. unfold setStonesAt. now destruct (who =? 1). Qed.

Lemma setStonesAt_mancalas s who pos count :
  mancalas_player1 (setStonesAt s who pos count) = mancalas_player1 s
  /\ mancalas_player2 (setStonesAt s who pos count) = mancalas_player2 s.
Proof. unfold setStonesAt. now destruct (who =? 1). Qed.

Lemma setStonesAt_rowsMatch s who pos count :
  rowsMatch s -> rowsMatch (setStonesAt s who pos count).
Proof.
  intros [H1 H2]. unfold rowsMatch, setStonesAt.
  destruct (who =? 1); simpl; rewrite ?data_set_length; auto.
Qed.

Lemma mancalaAdd_pockets s who n :
  pocketsPerSide (mancalaAdd s who n) = pocketsPerSide s.
Proof. unfold mancalaAdd. destruct (who =? 1), (who =? 2); reflexivity. Qed.

Lemma mancalaAdd_currentPlayer s who n :
  currentPlayer (mancalaAdd s who n) = currentPlayer s.
Proof. unfold mancalaAdd. destruct (who =? 1), (who =? 2); reflexivity. Qed.

Lemma mancalaAdd_boards s who n :
  player1Board (mancalaAdd s who n) = player1Board s
  /\ player2Board (mancalaAdd s who n) = player2Board s.
Proof. unfold mancalaAdd. destruct (who =? 1), (who =? 2); auto. Qed.

Lemma mancalaAdd_rowsMatch s who n :
  rowsMatch s -> rowsMatch (mancalaAdd s who n).
Proof.
  unfold rowsMatch. destruct (mancalaAdd_boards s who n) as [-> ->].
  now rewrite mancalaAdd_pockets.
Qed.

Lemma totalStones_setStonesAt s who pos count :
  rowsMatch s -> 0 <= pos < pocketsPerSide s ->
  totalStones (setStonesAt s who pos count)
  = totalStones s - cellAt s who pos + count.
Proof.
  intros [H1 H2] Hin. unfold totalStones, setStonesAt, cellAt, boardOf.
  destruct (who =? 1); simpl; rewrite sumRow_data_set by lia; lia.
Qed.

Lemma totalStones_mancalaAdd s who n :
  who = 1 \/ who = 2 ->
  totalStones (mancalaAdd s who n) = totalStones s + n.
Proof.
  intros [-> | ->]; unfold totalStones, mancalaAdd; simpl; lia.
Qed.

Lemma cellAt_set_same s who pos count :
  rowsMatch s -> 0 <= pos < pocketsPerSide s ->
  cellAt (setStonesAt s who pos count) who pos = count.
Proof.
  intros [H1 H2] Hin. unfold cellAt, setStonesAt, boardOf.
  destruct (who =? 1); simpl; rewrite data_set_inside by lia;
    rewrite list_lookup_insert_eq by lia; reflexivity.
Qed.

Lemma cellAt_mancalaAdd s who n who' pos :
  cellAt (mancalaAdd s who n) who' pos = cellAt s who' pos.
Proof.
  unfold cellAt, boardOf.
  destruct (mancalaAdd_boards s who n) as [-> ->]. reflexivity.
Qed.

(** ** The preview loop *)

Section Preview.

Variables mover pockets : Z.

Lemma simulateLoop_acc k who pos acc :
  simulateLoop k mover pockets who pos acc
  = acc ++ simulateLoop k mover pockets who pos [].
Proof.
  revert who pos acc. induction k as [|k IH]; intros who pos acc; simpl.
  - now rewrite app_nil_r.
  - destruct (pos + 1 >=? pockets); [destruct (who =? mover)|];
      rewrite IH; symmetry; rewrite IH; now rewrite app_assoc.
Qed.

Lemma simulateLoop_length k who pos acc :
  length (simulateLoop k mover pockets who pos acc) = (length acc + k)%nat.
Proof.
  revert who pos acc. induction k as [|k IH]; intros who pos acc; simpl.
  - lia.
  - destruct (pos + 1 >=? pockets); [destruct (who =? mover)|];
      rewrite IH, length_app; simpl; lia.
Qed.

(** The three ways one iteration of the preview goes. *)
Lemma simulateLoop_pit k who pos :
  pos + 1 < pockets ->
  simulateLoop (S k) mover pockets who pos []
  = pitCell who (pos + 1) :: simulateLoop k mover pockets who (pos + 1) [].
Proof.
  intros H. simpl. replace (pos + 1 >=? pockets) with false by lia.
  now rewrite simulateLoop_acc.
Qed.

Lemma simulateLoop_store k pos :
  pockets <= pos + 1 ->
  simulateLoop (S k) mover pockets mover pos []
  = mancalaCell mover
      :: simulateLoop k mover pockets (otherPlayer mover) (-1) [].
Proof.
  intros H. simpl. replace (pos + 1 >=? pockets) with true by lia.
  rewrite Z.eqb_refl. now rewrite simulateLoop_acc.
Qed.

Lemma simulateLoop_cross k who pos :
  pockets <= pos + 1 -> who <> mover ->
  simulateLoop (S k) mover pockets who pos []
  = pitCell (otherPlayer who) 0
      :: simulateLoop k mover pockets (otherPlayer who) 0 [].
Proof.
  intros H Hne. simpl. replace (pos + 1 >=? pockets) with true by lia.
  replace (who =? mover) with false by lia.
  now rewrite simulateLoop_acc.
Qed.

(** Every entry is a pit inside the rows or the mover's store. *)
Lemma simulateLoop_cellOk k who pos :
  0 < pockets -> -1 <= pos < pockets ->
  Forall (cellOk mover pockets) (simulateLoop k mover pockets who pos []).
Proof.
  intros Hpockets. revert who pos.
  induction k as [|k IH]; intros who pos Hpos.
  - constructor.
  - destruct (Z.lt_ge_cases (pos + 1) pockets) as [Hlt | Hge].
    + rewrite simulateLoop_pit by assumption.
      constructor; [unfold cellOk; simpl; lia | apply IH; lia].
    + destruct (Z.eq_dec who mover) as [-> | Hne].
      * rewrite simulateLoop_store by assumption.
        constructor; [reflexivity | apply IH; lia].
      * rewrite simulateLoop_cross by assumption.
        constructor; [unfold cellOk; simpl; lia | apply IH; lia].
Qed.

End Preview.

(** ** One pass of the sowing loop *)

Lemma sowCell_rowsMatch s c : rowsMatch s -> rowsMatch (sowCell s c).
Proof.
  intros H. unfold sowCell.
  destruct (isMancala c);
    [now apply mancalaAdd_rowsMatch | now apply setStonesAt_rowsMatch].
Qed.

Lemma sowCell_pockets s c : pocketsPerSide (sowCell s c) = pocketsPerSide s.
Proof.
  unfold sowCell.
  destruct (isMancala c); [apply mancalaAdd_pockets | apply setStonesAt_pockets].
Qed.

Lemma sowCell_currentPlayer s c : currentPlayer (sowCell s c) = currentPlayer s.
Proof.
  unfold sowCell.
  destruct (isMancala c);
    [apply mancalaAdd_currentPlayer | apply setStonesAt_currentPlayer].
Qed.

Lemma sowAll_app s cs cs' : sowAll s (cs ++ cs') = sowAll (sowAll s cs) cs'.
Proof. apply fold_left_app. Qed.

Lemma sowAll_rowsMatch cs : forall s, rowsMatch s -> rowsMatch (sowAll s cs).
Proof.
  induction cs as [|c cs IH]; intros s H; simpl; [assumption|].
  apply IH. now apply sowCell_rowsMatch.
Qed.

Lemma sowAll_pockets cs : forall s, pocketsPerSide (sowAll s cs) = pocketsPerSide s.
Proof.
  induction cs as [|c cs IH]; intros s; simpl; [reflexivity|].
  rewrite IH. apply sowCell_pockets.
Qed.

Lemma sowAll_currentPlayer cs :
  forall s, currentPlayer (sowAll s cs) = currentPlayer s.
Proof.
  induction cs as [|c cs IH]; intros s; simpl; [reflexivity|].
  rewrite IH. apply sowCell_currentPlayer.
Qed.

Lemma transfer_facts s who pos :
  rowsMatch s ->
  rowsMatch (transfer s who pos)
  /\ pocketsPerSide (transfer s who pos) = pocketsPerSide s
  /\ currentPlayer (transfer s who pos) = currentPlayer s.
Proof.
  intros H. unfold transfer. repeat split.
  - now apply mancalaAdd_rowsMatch; repeat apply setStonesAt_rowsMatch.
  - apply mancalaAdd_rowsMatch; repeat apply setStonesAt_rowsMatch; assumption.
  - now rewrite mancalaAdd_pockets, !setStonesAt_pockets.
  - now rewrite mancalaAdd_currentPlayer, !setStonesAt_currentPlayer.
Qed.

Lemma captureAt_facts s who pos :
  rowsMatch s ->
  rowsMatch (captureAt s who pos)
  /\ pocketsPerSide (captureAt s who pos) = pocketsPerSide s
  /\ currentPlayer (captureAt s who pos) = currentPlayer s.
Proof.
  intros H. unfold captureAt.
  destruct (captures s who pos); [now apply transfer_facts | auto].
Qed.

Lemma settle_facts s cs :
  rowsMatch s ->
  rowsMatch (settle s cs)
  /\ pocketsPerSide (settle s cs) = pocketsPerSide s
  /\ currentPlayer (settle s cs) = currentPlayer s.
Proof.
  intros H. unfold settle.
  destruct (last cs) as [c|]; [destruct (isMancala c)|]; auto.
  now apply captureAt_facts.
Qed.

(** The capture block, on a pit inside the rows. *)
Lemma handleCapture_inside s who pos left :
  rowsMatch s -> 0 <= pos < pocketsPerSide s ->
  handleCapture s who pos left
  = Ok (if left =? 0 then captureAt s who pos else s).
Proof.
  intros Hrows Hin. unfold handleCapture, captureAt, captures, transfer.
  destruct (left =? 0); simpl; [|reflexivity].
  destruct (who =? currentPlayer s); simpl; [|reflexivity].
  rewrite getStonesAt_inside by assumption. simpl.
  destruct (cellAt s who pos =? 1); simpl; [|reflexivity].
  rewrite getStonesAt_inside by (unfold mirror; assumption || lia). simpl.
  fold (mirror s pos).
  destruct (cellAt s (otherPlayer who) (mirror s pos) >? 0); reflexivity.
Qed.

(** The pit increment with what follows it, on a pit inside the rows. *)
Lemma placeStone_inside s w who pos :
  rowsMatch s -> 0 <= pos < pocketsPerSide s ->
  placeStone s w who pos
  = Ok (let b := sowCell s (pitCell who pos) in
        if stones w - 1 =? 0 then captureAt b who pos else b,
        mkSowing (stones w - 1) who pos (lastStoneInMancala w)
          (touched w ++ [pitCell who pos]) (iterations w)).
Proof.
  intros Hrows Hin. unfold placeStone.
  rewrite getStonesAt_inside by assumption. simpl.
  rewrite handleCapture_inside;
    [reflexivity | now apply setStonesAt_rowsMatch
    | now rewrite setStonesAt_pockets].
Qed.

Lemma captureAt_other s who pos :
  who <> currentPlayer s -> captureAt s who pos = s.
Proof.
  intros Hne. unfold captureAt, captures.
  now replace (who =? currentPlayer s) with false by lia.
Qed.

(** What one pass does, for a cursor inside the rows and with stones in
    hand: it sows the next one or two cells of the preview. *)
Lemma sowIteration_spec s w :
  rowsMatch s -> 0 <= currentPos w < pocketsPerSide s -> 0 < stones w ->
  lastStoneInMancala w = false ->
  exists s1 w1 stop cs,
    sowIteration s w = Ok (s1, w1, stop)
    /\ touched w1 = touched w ++ cs
    /\ iterations w1 = S (iterations w)
    /\ 0 <= stones w1 < stones w
    /\ simulateLoop (Z.to_nat (stones w)) (currentPlayer s) (pocketsPerSide s)
         (cursorPlayer w) (currentPos w) []
       = cs ++ simulateLoop (Z.to_nat (stones w1)) (currentPlayer s)
                 (pocketsPerSide s) (cursorPlayer w1) (currentPos w1) []
    /\ s1 = (if stones w1 =? 0 then settle (sowAll s cs) cs else sowAll s cs)
    /\ cs <> []
    /\ stop = endsInMancala cs
    /\ lastStoneInMancala w1 = stop
    /\ (stop = true -> stones w1 = 0)
    /\ (stop = false -> 0 <= currentPos w1 < pocketsPerSide s).
Proof.
  intros Hrows Hpos Hstones Hflag.
  destruct (Z.to_nat (stones w)) as [|k] eqn:Hk; [lia|].
  unfold sowIteration. cbn [stones cursorPlayer currentPos lastStoneInMancala
                              touched iterations].
  destruct (Z.geb_spec (currentPos w + 1) (pocketsPerSide s)) as [Hge | Hlt].
  - destruct (Z.eqb_spec (cursorPlayer w) (currentPlayer s)) as [Hmover | Hne].
    + rewrite !Hmover.
      destruct (Z.eqb_spec (stones w - 1) 0) as [Hlast | Hmore].
      * (* the last stone goes to the store: break *)
        exists (mancalaAdd s (currentPlayer s) 1),
          (mkSowing (stones w - 1) (currentPlayer s) (currentPos w + 1) true
             (touched w ++ [mancalaCell (currentPlayer s)]) (S (iterations w))),
          true, [mancalaCell (currentPlayer s)].
        cbn [stones cursorPlayer currentPos lastStoneInMancala touched iterations].
        rewrite Hlast. simpl Z.to_nat.
        replace k with O by lia.
        rewrite simulateLoop_store by lia.
        repeat split; try reflexivity; try lia; try discriminate.
      * (* a stone to the store, the next one to the first pit opposite *)
        rewrite placeStone_inside;
          [| now apply mancalaAdd_rowsMatch | rewrite mancalaAdd_pockets; lia].
        cbn [bind stones cursorPlayer currentPos lastStoneInMancala touched
               iterations].
        eexists _, _, false,
          [mancalaCell (currentPlayer s); pitCell (otherPlayer (currentPlayer s)) 0].
        split; [reflexivity|].
        cbn [stones cursorPlayer currentPos lastStoneInMancala touched iterations].
        assert (Hk' : k = S (Z.to_nat (stones w - 1 - 1))) by lia.
        rewrite Hk'.
        rewrite simulateLoop_store by lia.
        rewrite simulateLoop_pit by lia.
        repeat split; try reflexivity; try lia; try discriminate.
        now rewrite <- app_assoc.
    + (* leaving the opponent's row: straight to the first pit opposite *)
      rewrite placeStone_inside by (assumption || lia).
      cbn [bind stones cursorPlayer currentPos lastStoneInMancala touched
             iterations].
      eexists _, _, false, [pitCell (otherPlayer (cursorPlayer w)) 0].
      split; [reflexivity|].
      cbn [stones cursorPlayer currentPos lastStoneInMancala touched iterations].
      replace k with (Z.to_nat (stones w - 1)) by lia.
      rewrite simulateLoop_cross by (assumption || lia).
      repeat split; try reflexivity; try lia; try discriminate; assumption.
  - (* the next pit of the same row *)
    rewrite placeStone_inside by (assumption || lia).
    cbn [bind stones cursorPlayer currentPos lastStoneInMancala touched
           iterations].
    eexists _, _, false, [pitCell (cursorPlayer w) (currentPos w + 1)].
    split; [reflexivity|].
    cbn [stones cursorPlayer currentPos lastStoneInMancala touched iterations].
    replace k with (Z.to_nat (stones w - 1)) by lia.
    rewrite simulateLoop_pit by lia.
    repeat split; try reflexivity; try lia; try discriminate; assumption.
Qed.

(** ** The sowing loop *)

Lemma settle_app s cs cs' : cs' <> [] -> settle s (cs ++ cs') = settle s cs'.
Proof.
  intros Hne. unfold settle.
  destruct (exists_last Hne) as (front & c & ->).
  now rewrite app_assoc, !last_snoc.
Qed.

Lemma endsInMancala_app cs cs' :
  cs' <> [] -> endsInMancala (cs ++ cs') = endsInMancala cs'.
Proof.
  intros Hne. unfold endsInMancala.
  destruct (exists_last Hne) as (front & c & ->).
  now rewrite app_assoc, !last_snoc.
Qed.

(** The loop, started with the cursor inside the rows and given at least
    as many passes as there are stones in hand, returns; it has sown the
    cells of the preview in order and applied the capture step once, at the
    end. *)
Lemma sowLoop_spec fuel : forall s w,
  rowsMatch s -> 0 <= currentPos w < pocketsPerSide s ->
  (Z.to_nat (stones w) <= fuel)%nat ->
  lastStoneInMancala w = false ->
  let cells :=
    simulateLoop (Z.to_nat (stones w)) (currentPlayer s) (pocketsPerSide s)
      (cursorPlayer w) (currentPos w) [] in
  exists w',
    sowLoop fuel s w = Ok (settle (sowAll s cells) cells, w')
    /\ touched w' = touched w ++ cells
    /\ lastStoneInMancala w' = endsInMancala cells
    /\ (iterations w' <= iterations w + Z.to_nat (stones w))%nat.
Proof.
  assert (Hidle : forall fuel s w, stones w <= 0 ->
            sowLoop fuel s w = Ok (s, w)).
  { intros f s w H. destruct f; simpl;
      now replace (stones w >? 0) with false by lia. }
  induction fuel as [|fuel IH]; intros s w Hrows Hpos Hfuel Hflag cells.
  - exists w. subst cells. replace (Z.to_nat (stones w)) with O by lia.
    rewrite Hidle by lia. simpl. rewrite app_nil_r.
    repeat split; [assumption | lia].
  - destruct (Z.le_gt_cases (stones w) 0) as [Hnone | Hsome].
    + exists w. subst cells. replace (Z.to_nat (stones w)) with O by lia.
      rewrite Hidle by lia. simpl. rewrite app_nil_r.
      repeat split; [assumption | lia].
    + destruct (sowIteration_spec s w Hrows Hpos Hsome Hflag)
        as (s1 & w1 & stop & cs & Hrun & Htouched & Hiter & Hleft & Hsim
            & Hs1 & Hcs & Hstop & Hflag1 & Hbreak & Hgoon).
      assert (Hrows1 : rowsMatch s1
                       /\ pocketsPerSide s1 = pocketsPerSide s
                       /\ currentPlayer s1 = currentPlayer s).
      { rewrite Hs1. destruct (stones w1 =? 0).
        - destruct (settle_facts (sowAll s cs) cs) as (? & -> & ->);
            [now apply sowAll_rowsMatch|].
          rewrite sowAll_pockets, sowAll_currentPlayer.
          split; [assumption | split; reflexivity].
        - rewrite sowAll_pockets, sowAll_currentPlayer.
          split; [now apply sowAll_rowsMatch | split; reflexivity]. }
      destruct Hrows1 as (Hrows1 & Hpockets1 & Hplayer1).
      simpl sowLoop. replace (stones w >? 0) with true by lia.
      rewrite Hrun. cbn [bind]. subst cells. rewrite Hsim.
      destruct stop.
      * (* break *)
        exists w1. rewrite (Hbreak eq_refl) in *. simpl Z.to_nat.
        simpl simulateLoop. rewrite app_nil_r.
        simpl in Hs1. rewrite Hs1.
        repeat split; [assumption | congruence | lia].
      * destruct (IH s1 w1) as (w' & Hloop & Htouched' & Hflag' & Hiter');
          [assumption | rewrite Hpockets1; now apply Hgoon | lia | assumption |].
        rewrite Hpockets1, Hplayer1 in *.
        set (rest := simulateLoop (Z.to_nat (stones w1)) (currentPlayer s)
                       (pocketsPerSide s) (cursorPlayer w1) (currentPos w1) [])
          in *.
        exists w'. rewrite Hloop.
        destruct (Z.eqb_spec (stones w1) 0) as [Hzero | Hnonzero].
        -- (* that pass took the last stone *)
           assert (Hrest : rest = []).
           { subst rest. now rewrite Hzero. }
           rewrite Hrest in *. rewrite app_nil_r in *. simpl in *.
           rewrite Hs1.
           split; [reflexivity | split; [congruence | split; [|lia]]].
           rewrite Hflag'. exact Hstop.
        -- assert (Hrest : rest <> []).
           { intros Hnil. apply (f_equal length) in Hnil. subst rest.
             rewrite simulateLoop_length in Hnil. simpl in Hnil. lia. }
           rewrite settle_app, endsInMancala_app, sowAll_app by assumption.
           rewrite Hs1, Htouched', Htouched, app_assoc.
           repeat split; [assumption | lia].
Qed.

(** More passes than needed change nothing. *)
Lemma sowLoop_more_fuel fuel : forall s w r,
  sowLoop fuel s w = Ok r ->
  forall fuel', (fuel <= fuel')%nat -> sowLoop fuel' s w = Ok r.
Proof.
  induction fuel as [|fuel IH]; intros s w r Hrun fuel' Hle.
  - simpl in Hrun. destruct (stones w >? 0) eqn:E; [discriminate|].
    destruct fuel'; simpl; now rewrite E.
  - destruct fuel' as [|fuel']; [lia|].
    simpl in *. destruct (stones w >? 0); [|assumption].
    destruct (sowIteration s w) as [[[s1 w1] stop]| |]; simpl in *;
      try discriminate.
    destruct stop; [assumption|]. apply (IH _ _ _ Hrun). lia.
Qed.

(** ** The whole move *)

Lemma isValidMove_true s pos :
  isValidMove s pos = Ok true ->
  0 <= pos < pocketsPerSide s
  /\ exists n, getStonesAt s (currentPlayer s) pos = Ok n /\ 0 < n.
Proof.
  unfold isValidMove.
  destruct (Z.ltb_spec pos 0); simpl; [discriminate|].
  destruct (Z.geb_spec pos (pocketsPerSide s)); simpl; [discriminate|].
  destruct (getStonesAt s (currentPlayer s) pos) as [n| |]; simpl;
    try discriminate.
  intros [= Hn]. split; [lia|]. exists n. split; [reflexivity | lia].
Qed.

Lemma isValidMove_picked s pos :
  rowsMatch s -> isValidMove s pos = Ok true ->
  0 <= pos < pocketsPerSide s
  /\ getStonesAt s (currentPlayer s) pos = Ok (cellAt s (currentPlayer s) pos)
  /\ 0 < cellAt s (currentPlayer s) pos.
Proof.
  intros Hrows Hvalid.
  destruct (isValidMove_true s pos Hvalid) as (Hin & n & Hget & Hn).
  rewrite getStonesAt_inside in Hget by assumption.
  injection Hget as <-. repeat split; try lia.
  now apply getStonesAt_inside.
Qed.

Lemma simulateMove_valid s pos :
  rowsMatch s -> isValidMove s pos = Ok true ->
  simulateMove s pos
  = Ok (simulateLoop (Z.to_nat (cellAt s (currentPlayer s) pos))
          (currentPlayer s) (pocketsPerSide s) (currentPlayer s) pos []).
Proof.
  intros Hrows Hvalid.
  destruct (isValidMove_picked s pos Hrows Hvalid) as (Hin & Hget & Hn).
  unfold simulateMove. rewrite Hvalid. simpl. now rewrite Hget.
Qed.

(** A valid move in closed form: the cells of the preview are sown on the
    state left by the pick-up, the capture step looks at the last of them,
    and the turn passes unless that last cell is the store. *)
Lemma performMoveWith_closed s pos fuel :
  rowsMatch s -> isValidMove s pos = Ok true ->
  (stonesInHand s pos <= fuel)%nat ->
  exists cells n,
    simulateMove s pos = Ok cells
    /\ performMoveWith fuel s pos
       = Ok (mkMoveOutcome (endsInMancala cells)
               (passTurn (settle (sowAll (pickUp s pos) cells) cells)
                  (endsInMancala cells))
               cells n)
    /\ (n <= stonesInHand s pos)%nat
    /\ length cells = stonesInHand s pos.
Proof.
  intros Hrows Hvalid Hfuel.
  destruct (isValidMove_picked s pos Hrows Hvalid) as (Hin & Hget & Hn).
  unfold stonesInHand in *. rewrite Hget in *.
  rewrite simulateMove_valid by assumption.
  set (picked := cellAt s (currentPlayer s) pos) in *.
  set (w0 := mkSowing picked (currentPlayer (pickUp s pos)) pos false [] 0).
  destruct (sowLoop_spec fuel (pickUp s pos) w0)
    as (w' & Hloop & Htouched & Hflag & Hiter).
  - now apply setStonesAt_rowsMatch.
  - unfold pickUp. now rewrite setStonesAt_pockets.
  - exact Hfuel.
  - reflexivity.
  - subst w0. cbn [stones cursorPlayer currentPos touched iterations] in *.
    unfold pickUp in Hloop, Htouched, Hflag at 1 2 3.
    rewrite setStonesAt_pockets, !setStonesAt_currentPlayer in *.
    fold (pickUp s pos) in *.
    eexists _, (iterations w'). split; [reflexivity|].
    unfold performMoveWith. rewrite Hvalid, Hget. cbn [bind negb].
    fold (pickUp s pos). fold picked.
    replace (currentPlayer (pickUp s pos)) with (currentPlayer s)
      by (unfold pickUp; now rewrite setStonesAt_currentPlayer).
    rewrite Hloop. cbn [bind].
    rewrite Hflag, Htouched. cbn [app].
    split; [reflexivity|]. split; [lia|].
    now rewrite simulateLoop_length.
Qed.

(** ** The length of the preview *)

(** C10.  For every position that [isValidMove] accepts, [simulateMove]
    returns a sequence with exactly as many entries as there are stones in
    the chosen pit: one entry per stone, none added at a boundary. *)
Theorem simulateMove_length s pos :
  isValidMove s pos = Ok true ->
  exists cells n,
    simulateMove s pos = Ok cells
    /\ getStonesAt s (currentPlayer s) pos = Ok n
    /\ Z.of_nat (length cells) = n.
Proof.
  intros Hvalid.
  destruct (isValidMove_true s pos Hvalid) as (_ & n & Hget & Hn).
  eexists _, n. unfold simulateMove. rewrite Hvalid, Hget. simpl.
  repeat split. rewrite simulateLoop_length. simpl. lia.
Qed.

Lemma simulateMove_length_witness :
  isValidMove opening 5 = Ok true
  /\ exists cells n,
       simulateMove opening 5 = Ok cells
       /\ getStonesAt opening (currentPlayer opening) 5 = Ok n
       /\ Z.of_nat (length cells) = n.
Proof.
  split; [reflexivity | apply (simulateMove_length opening 5); reflexivity].
Defined.

(** ** Termination *)

(** C8.  For every valid position [performMove] returns: any bound on the
    number of passes through the loop that is at least the number of
    stones picked up is enough, and the outcome does not depend on it.  The
    loop makes at most as many passes as stones were picked up and sows
    exactly that many stones. *)
Theorem performMove_terminates s pos :
  rowsMatch s -> isValidMove s pos = Ok true ->
  exists o n,
    getStonesAt s (currentPlayer s) pos = Ok n
    /\ performMoveRun s pos = Ok o
    /\ performMove s pos = Ok (keepsTurn o, after o)
    /\ (forall fuel, (Z.to_nat n <= fuel)%nat ->
        performMoveWith fuel s pos = Ok o)
    /\ Z.of_nat (passes o) <= n
    /\ Z.of_nat (length (sown o)) = n.
Proof.
  intros Hrows Hvalid.
  destruct (isValidMove_picked s pos Hrows Hvalid) as (Hin & Hget & Hn).
  destruct (performMoveWith_closed s pos (stonesInHand s pos) Hrows Hvalid)
    as (cells & n & Hsim & Hrun & Hpasses & Hlen); [lia|].
  assert (Hhand : stonesInHand s pos
                  = Z.to_nat (cellAt s (currentPlayer s) pos)).
  { unfold stonesInHand. now rewrite Hget. }
  eexists _, _. split; [exact Hget|]. split; [exact Hrun|].
  split; [unfold performMove, performMoveRun; now rewrite Hrun|].
  split; [|simpl; lia].
  intros fuel Hfuel.
  unfold performMoveWith in *. rewrite Hvalid, Hget in *. cbn [bind negb] in *.
  destruct (sowLoop (stonesInHand s pos) _ _) as [[s1 w1]| |] eqn:Hloop;
    try discriminate.
  rewrite (sowLoop_more_fuel _ _ _ _ Hloop fuel) by lia.
  exact Hrun.
Qed.

Lemma performMove_terminates_witness :
  rowsMatch opening /\ isValidMove opening 5 = Ok true
  /\ exists o n,
       getStonesAt opening (currentPlayer opening) 5 = Ok n
       /\ performMoveRun opening 5 = Ok o
       /\ performMove opening 5 = Ok (keepsTurn o, after o)
       /\ (forall fuel, (Z.to_nat n <= fuel)%nat ->
           performMoveWith fuel opening 5 = Ok o)
       /\ Z.of_nat (passes o) <= n
       /\ Z.of_nat (length (sown o)) = n.
Proof.
  assert (Hrows : rowsMatch opening) by (split; reflexivity).
  assert (Hvalid : isValidMove opening 5 = Ok true) by reflexivity.
  exact (conj Hrows (conj Hvalid
           (performMove_terminates opening 5 Hrows Hvalid))).
Defined.

(** ** Invalid moves *)

(** C7.  For every state and every position that is out of range, or whose
    pit in the current player's row is empty, [isValidMove] returns false
    and [performMove] returns false and the state it was given: no pit, no
    store and not the turn marker has changed.  (No stone is sown and the
    preview is empty.) *)
Theorem invalid_move_is_noop s pos :
  pos < 0 \/ pocketsPerSide s <= pos
  \/ getStonesAt s (currentPlayer s) pos = Ok 0 ->
  isValidMove s pos = Ok false
  /\ performMove s pos = Ok (false, s)
  /\ performMoveRun s pos = Ok (mkMoveOutcome false s [] 0)
  /\ simulateMove s pos = Ok [].
Proof.
  intros Hbad.
  assert (Hvalid : isValidMove s pos = Ok false).
  { unfold isValidMove.
    destruct (Z.ltb_spec pos 0); simpl; [reflexivity|].
    destruct (Z.geb_spec pos (pocketsPerSide s)); simpl; [reflexivity|].
    destruct Hbad as [? | [? | ->]]; [lia | lia | reflexivity]. }
  unfold performMove, performMoveRun, performMoveWith, simulateMove.
  rewrite Hvalid. repeat split; reflexivity.
Qed.

Lemma invalid_move_is_noop_witness :
  (1 < 0 \/ pocketsPerSide fullMirror <= 1
   \/ getStonesAt fullMirror (currentPlayer fullMirror) 1 = Ok 0)
  /\ isValidMove fullMirror 1 = Ok false
  /\ performMove fullMirror 1 = Ok (false, fullMirror)
  /\ performMoveRun fullMirror 1 = Ok (mkMoveOutcome false fullMirror [] 0)
  /\ simulateMove fullMirror 1 = Ok [].
Proof.
  assert (Hbad : 1 < 0 \/ pocketsPerSide fullMirror <= 1
                 \/ getStonesAt fullMirror (currentPlayer fullMirror) 1 = Ok 0)
    by (right; right; reflexivity).
  exact (conj Hbad (invalid_move_is_noop fullMirror 1 Hbad)).
Defined.

(** ** The player argument of the accessors *)

(** C9.  The accessors compare their player argument with 1 and nothing
    else.  For every player value other than 1 and every position,
    [getStonesAt] returns what it returns for player 2 and [setStonesAt]
    does what it does for player 2: player 1's row is untouched, and for a
    position inside the rows the written count is then read back from
    player 2's row. *)
Theorem accessors_default_to_player2 s who pos count :
  who <> 1 ->
  getStonesAt s who pos = getStonesAt s 2 pos
  /\ setStonesAt s who pos count = setStonesAt s 2 pos count
  /\ player1Board (setStonesAt s who pos count) = player1Board s
  /\ (rowsMatch s -> 0 <= pos < pocketsPerSide s ->
      getStonesAt (setStonesAt s who pos count) 2 pos = Ok count).
Proof.
  intros Hne.
  assert (Hwho : (who =? 1) = false) by lia.
  unfold getStonesAt, boardOf, setStonesAt. rewrite Hwho. simpl.
  repeat split.
  intros [_ Hrow2] Hin.
  rewrite matrix_get_inside by (rewrite data_set_length; lia).
  rewrite data_set_inside by lia.
  now rewrite list_lookup_insert_eq by lia.
Qed.

Lemma accessors_default_to_player2_witness :
  0 <> 1
  /\ getStonesAt opening 0 3 = getStonesAt opening 2 3
  /\ setStonesAt opening 0 3 9 = setStonesAt opening 2 3 9
  /\ player1Board (setStonesAt opening 0 3 9) = player1Board opening
  /\ (rowsMatch opening -> 0 <= 3 < pocketsPerSide opening ->
      getStonesAt (setStonesAt opening 0 3 9) 2 3 = Ok 9).
Proof.
  assert (Hne : 0 <> 1) by lia.
  exact (conj Hne (accessors_default_to_player2 opening 0 3 9 Hne)).
Defined.

(** ** Keeping the turn *)

Lemma endsInMancala_store mover pockets cells :
  Forall (cellOk mover pockets) cells ->
  endsInMancala cells = true <-> last cells = Some (mancalaCell mover).
Proof.
  intros Hok. unfold endsInMancala.
  destruct (last cells) as [c|] eqn:Hlast.
  - assert (Hc : cellOk mover pockets c).
    { rewrite Forall_forall in Hok. apply Hok.
      apply last_Some_elem_of. exact Hlast. }
    unfold cellOk in Hc. split.
    + intros Hm. rewrite Hm in Hc. now rewrite Hc.
    + intros [= ->]. reflexivity.
  - split; discriminate.
Qed.

Lemma passTurn_currentPlayer s keeps :
  currentPlayer (passTurn s keeps)
  = if keeps then currentPlayer s else otherPlayer (currentPlayer s).
Proof. now destruct keeps. Qed.

Lemma previewOf_valid s pos cells :
  rowsMatch s -> isValidMove s pos = Ok true ->
  simulateMove s pos = Ok cells ->
  Forall (cellOk (currentPlayer s) (pocketsPerSide s)) cells
  /\ cells <> []
  /\ Z.of_nat (length cells) = cellAt s (currentPlayer s) pos.
Proof.
  intros Hrows Hvalid Hsim.
  destruct (isValidMove_picked s pos Hrows Hvalid) as (Hin & Hget & Hn).
  rewrite simulateMove_valid in Hsim by assumption.
  injection Hsim as <-.
  assert (Hlen : length (simulateLoop
                   (Z.to_nat (cellAt s (currentPlayer s) pos))
                   (currentPlayer s) (pocketsPerSide s) (currentPlayer s)
                   pos [])
                 = Z.to_nat (cellAt s (currentPlayer s) pos))
    by now rewrite simulateLoop_length.
  split; [apply simulateLoop_cellOk; lia|].
  split; [|lia].
  intros Hnil. rewrite Hnil in Hlen. simpl in Hlen. lia.
Qed.

(** ** Conservation of stones *)

Lemma cellAt_set_facing s who pos count pos' :
  cellAt (setStonesAt s (otherPlayer who) pos count) who pos'
  = cellAt s who pos'.
Proof.
  unfold cellAt, setStonesAt, boardOf, otherPlayer.
  destruct (Z.eqb_spec who 1); simpl; reflexivity.
Qed.

Lemma cellAt_set_own s who pos count pos' :
  cellAt (setStonesAt s who pos count) (otherPlayer who) pos'
  = cellAt s (otherPlayer who) pos'.
Proof.
  unfold cellAt, setStonesAt, boardOf, otherPlayer.
  destruct (Z.eqb_spec who 1); simpl; reflexivity.
Qed.

Lemma totalStones_sowCell s mover c :
  rowsMatch s -> mover = 1 \/ mover = 2 ->
  cellOk mover (pocketsPerSide s) c ->
  totalStones (sowCell s c) = totalStones s + 1.
Proof.
  intros Hrows Hmover Hc. unfold sowCell, cellOk in *.
  destruct (isMancala c).
  - rewrite Hc. simpl. now apply totalStones_mancalaAdd.
  - rewrite totalStones_setStonesAt by assumption. lia.
Qed.

Lemma totalStones_sowAll mover cells : forall s,
  rowsMatch s -> mover = 1 \/ mover = 2 ->
  Forall (cellOk mover (pocketsPerSide s)) cells ->
  totalStones (sowAll s cells) = totalStones s + Z.of_nat (length cells).
Proof.
  induction cells as [|c cells IH]; intros s Hrows Hmover Hok; simpl.
  - lia.
  - apply Forall_cons in Hok as [Hc Hok].
    change (fold_left sowCell cells (sowCell s c))
      with (sowAll (sowCell s c) cells).
    rewrite IH;
      [ rewrite (totalStones_sowCell s mover) by assumption; lia
      | now apply sowCell_rowsMatch | assumption
      | now rewrite sowCell_pockets ].
Qed.

Lemma totalStones_captureAt s who pos :
  rowsMatch s -> currentPlayer s = 1 \/ currentPlayer s = 2 ->
  0 <= pos < pocketsPerSide s ->
  totalStones (captureAt s who pos) = totalStones s.
Proof.
  intros Hrows Hplayer Hin. unfold captureAt, captures.
  destruct (Z.eqb_spec who (currentPlayer s)) as [Hwho | _];
    [|reflexivity].
  destruct (Z.eqb_spec (cellAt s who pos) 1) as [Hone | _]; [|reflexivity].
  destruct (Z.gtb_spec (cellAt s (otherPlayer who) (mirror s pos)) 0)
    as [Hfull | _]; [|reflexivity].
  simpl. unfold transfer.
  rewrite totalStones_mancalaAdd by (rewrite Hwho; assumption).
  rewrite totalStones_setStonesAt;
    [| now apply setStonesAt_rowsMatch | now rewrite setStonesAt_pockets].
  rewrite totalStones_setStonesAt by (unfold mirror; assumption || lia).
  rewrite cellAt_set_facing. lia.
Qed.

Lemma totalStones_settle s mover cells :
  rowsMatch s -> currentPlayer s = 1 \/ currentPlayer s = 2 ->
  Forall (cellOk mover (pocketsPerSide s)) cells ->
  totalStones (settle s cells) = totalStones s.
Proof.
  intros Hrows Hplayer Hok. unfold settle.
  destruct (last cells) as [c|] eqn:Hlast; [|reflexivity].
  destruct (isMancala c) eqn:Hm; [reflexivity|].
  apply totalStones_captureAt; try assumption.
  rewrite Forall_forall in Hok.
  specialize (Hok c (last_Some_elem_of _ _ Hlast)).
  unfold cellOk in Hok. now rewrite Hm in Hok.
Qed.

Lemma totalStones_passTurn s keeps :
  totalStones (passTurn s keeps) = totalStones s.
Proof. now destruct keeps. Qed.

Lemma passTurn_rowsMatch s keeps : rowsMatch s -> rowsMatch (passTurn s keeps).
Proof. now destruct keeps. Qed.

Lemma passTurn_pockets s keeps :
  pocketsPerSide (passTurn s keeps) = pocketsPerSide s.
Proof. now destruct keeps. Qed.

Lemma pickUp_facts s pos :
  rowsMatch s ->
  rowsMatch (pickUp s pos)
  /\ pocketsPerSide (pickUp s pos) = pocketsPerSide s
  /\ currentPlayer (pickUp s pos) = currentPlayer s.
Proof.
  intros Hrows. unfold pickUp.
  rewrite setStonesAt_pockets, setStonesAt_currentPlayer.
  split; [now apply setStonesAt_rowsMatch | split; reflexivity].
Qed.

(** A valid move keeps the rows in shape, the turn marker in range and the
    number of stones. *)
Lemma performMove_conserves s pos :
  wellFormed s -> isValidMove s pos = Ok true ->
  exists keeps s',
    performMove s pos = Ok (keeps, s')
    /\ wellFormed s'
    /\ pocketsPerSide s' = pocketsPerSide s
    /\ totalStones s' = totalStones s.
Proof.
  intros [Hrows Hplayer] Hvalid.
  destruct (performMoveWith_closed s pos (stonesInHand s pos) Hrows Hvalid)
    as (cells & n & Hsim & Hrun & _ & _); [lia|].
  destruct (previewOf_valid s pos cells Hrows Hvalid Hsim)
    as (Hok & _ & Hlen).
  destruct (isValidMove_picked s pos Hrows Hvalid) as (Hin & _ & _).
  destruct (pickUp_facts s pos Hrows) as (Hrows0 & Hpockets0 & Hplayer0).
  set (b := sowAll (pickUp s pos) cells) in *.
  assert (Hb : rowsMatch b /\ pocketsPerSide b = pocketsPerSide s
               /\ currentPlayer b = currentPlayer s).
  { subst b. rewrite sowAll_pockets, sowAll_currentPlayer.
    split; [now apply sowAll_rowsMatch | now split]. }
  destruct Hb as (Hrowsb & Hpocketsb & Hplayerb).
  destruct (settle_facts b cells Hrowsb) as (Hrows1 & Hpockets1 & Hplayer1).
  exists (endsInMancala cells),
    (passTurn (settle b cells) (endsInMancala cells)).
  split; [unfold performMove, performMoveRun; now rewrite Hrun|].
  split; [split|split].
  - now apply passTurn_rowsMatch.
  - rewrite passTurn_currentPlayer, Hplayer1, Hplayerb.
    destruct (endsInMancala cells);
      [assumption | apply otherPlayer_range].
  - rewrite passTurn_pockets. congruence.
  - rewrite totalStones_passTurn.
    rewrite (totalStones_settle b (currentPlayer s))
      by (rewrite ?Hplayerb, ?Hpocketsb; assumption).
    subst b.
    rewrite (totalStones_sowAll (currentPlayer s))
      by (rewrite ?Hpockets0; assumption).
    unfold pickUp. rewrite totalStones_setStonesAt by assumption. lia.
Qed.

Lemma isValidMove_returns s pos :
  rowsMatch s -> exists valid, isValidMove s pos = Ok valid.
Proof.
  intros Hrows. unfold isValidMove.
  destruct (Z.ltb_spec pos 0); simpl; [eauto|].
  destruct (Z.geb_spec pos (pocketsPerSide s)); simpl; [eauto|].
  rewrite getStonesAt_inside by (assumption || lia). simpl. eauto.
Qed.

Lemma clickPit_conserves s pos :
  wellFormed s ->
  exists s',
    clickPit s pos = Ok s'
    /\ wellFormed s'
    /\ pocketsPerSide s' = pocketsPerSide s
    /\ totalStones s' = totalStones s.
Proof.
  intros Hwf. unfold clickPit.
  destruct (isValidMove_returns s pos (proj1 Hwf)) as [[|] Hvalid];
    rewrite Hvalid; simpl.
  - destruct (performMove_conserves s pos Hwf Hvalid)
      as (keeps & s' & -> & Hfacts).
    simpl. eauto.
  - eauto.
Qed.

(** Whatever pits are clicked, every state of the game has the stones of
    the first. *)
Lemma playMoves_conserves moves : forall s,
  wellFormed s ->
  exists states,
    playMoves s moves = Ok states
    /\ length states = S (length moves)
    /\ Forall (fun s' => totalStones s' = totalStones s) states.
Proof.
  induction moves as [|pos moves IH]; intros s Hwf; simpl.
  - exists [s]. repeat split. now constructor.
  - destruct (clickPit_conserves s pos Hwf)
      as (s' & Hclick & Hwf' & _ & Htotal).
    rewrite Hclick. cbn [bind].
    destruct (IH s' Hwf') as (states & Hplay & Hlen & Hall).
    rewrite Hplay. cbn [bind].
    exists (s :: states).
    split; [reflexivity|]. split; [simpl; now rewrite Hlen|].
    constructor; [reflexivity|].
    eapply Forall_impl; [exact Hall|]. simpl. intros; congruence.
Qed.

(** ** Construction *)

Lemma GameState_new_facts dims pockets :
  validArrayLength pockets = true ->
  exists s,
    GameState_new dims pockets = Ok s
    /\ wellFormed s
    /\ pocketsPerSide s = pockets
    /\ player1Board s = replicate (Z.to_nat pockets) initialStones
    /\ player2Board s = replicate (Z.to_nat pockets) initialStones
    /\ mancalas_player1 s = 0 /\ mancalas_player2 s = 0
    /\ currentPlayer s = 1.
Proof.
  intros Hlen. unfold GameState_new. rewrite Hlen.
  eexists. split; [reflexivity|]. simpl.
  unfold validArrayLength in Hlen.
  repeat split; simpl; try rewrite length_replicate; auto; lia.
Qed.

Lemma restartGame_board n :
  restartGame n
  = Ok (mkGameState 2 6 1 (replicate 6 n) (replicate 6 n) 0 0).
Proof. reflexivity. Qed.

Lemma startOfGame_facts pockets n s :
  startOfGame pockets n s ->
  wellFormed s /\ totalStones s = 2 * pockets * n.
Proof.
  intros [(dims & Hnew & ->) | (Hrestart & ->)].
  - destruct (validArrayLength pockets) eqn:Hlen;
      [|unfold GameState_new in Hnew; rewrite Hlen in Hnew; discriminate].
    destruct (GameState_new_facts dims pockets Hlen)
      as (s' & Hnew' & Hwf & Hp & Hb1 & Hb2 & Hm1 & Hm2 & _).
    rewrite Hnew in Hnew'. injection Hnew' as <-.
    split; [assumption|].
    unfold totalStones. rewrite Hb1, Hb2, Hm1, Hm2, !sumRow_replicate.
    unfold validArrayLength in Hlen. rewrite Z2Nat.id by lia.
    unfold initialStones. lia.
  - rewrite restartGame_board in Hrestart. injection Hrestart as <-.
    split; [repeat split; auto|].
    unfold totalStones, sumRow. simpl. lia.
Qed.

(** C3.  From the state a game starts in (the constructor's, with [P] pits
    a side and 4 stones a pit, or [restartGame]'s, with 6 pits a side and
    the chosen number of stones a pit), whatever pits are clicked, the game
    goes on, and in every state it goes through, the starting state and the
    state after each [performMove], both rows and both stores together hold
    [2 * P * initialStones] stones. *)
Theorem stones_conserved pockets n s0 moves :
  startOfGame pockets n s0 ->
  exists states,
    playMoves s0 moves = Ok states
    /\ length states = S (length moves)
    /\ Forall (fun s => totalStones s = 2 * pockets * n) states.
Proof.
  intros Hstart.
  destruct (startOfGame_facts pockets n s0 Hstart) as (Hwf & Htotal).
  destruct (playMoves_conserves moves s0 Hwf) as (states & Hplay & Hlen & Hall).
  exists states. repeat split; try assumption.
  eapply Forall_impl; [exact Hall|]. simpl. intros; congruence.
Qed.

Lemma stones_conserved_witness :
  startOfGame 6 4 opening
  /\ exists states,
       playMoves opening [2; 5; 0; 7; 1; 3] = Ok states
       /\ length states = 7%nat
       /\ Forall (fun s => totalStones s = 2 * 6 * 4) states.
Proof.
  assert (Hstart : startOfGame 6 4 opening).
  { left. exists 2. split; reflexivity. }
  exact (conj Hstart
           (stones_conserved 6 4 opening [2; 5; 0; 7; 1; 3] Hstart)).
Defined.

(** C6, as the code has it.  The constructor takes the number of pits a
    side and no number of stones: for every valid [P] it returns a state
    with two rows of [P] cells that each hold 4, both stores empty and
    player 1 to move.  A chosen number of stones [n] is put on the board by
    [restartGame] only, which builds the six-pit board with [n] in every
    cell, both stores empty and player 1 to move. *)
Theorem construction_fills_rows dims pockets n :
  validArrayLength pockets = true ->
  (exists s,
     GameState_new dims pockets = Ok s
     /\ pocketsPerSide s = pockets
     /\ Z.of_nat (length (player1Board s)) = pockets
     /\ Z.of_nat (length (player2Board s)) = pockets
     /\ (forall who pos, 0 <= pos < pockets -> getStonesAt s who pos = Ok 4)
     /\ mancalas_player1 s = 0 /\ mancalas_player2 s = 0
     /\ currentPlayer s = 1)
  /\ exists s,
       restartGame n = Ok s
       /\ pocketsPerSide s = 6
       /\ length (player1Board s) = 6%nat /\ length (player2Board s) = 6%nat
       /\ (forall who pos, 0 <= pos < 6 -> getStonesAt s who pos = Ok n)
       /\ mancalas_player1 s = 0 /\ mancalas_player2 s = 0
       /\ currentPlayer s = 1.
Proof.
  intros Hlen. split.
  - destruct (GameState_new_facts dims pockets Hlen)
      as (s & Hnew & [[Hr1 Hr2] _] & Hp & Hb1 & Hb2 & Hm1 & Hm2 & Hturn).
    exists s. rewrite Hp in *. repeat split; try assumption.
    intros who pos Hin.
    rewrite getStonesAt_inside by (try split; lia).
    unfold cellAt, boardOf. f_equal.
    destruct (who =? 1); rewrite ?Hb1, ?Hb2;
      rewrite lookup_replicate_2 by lia; reflexivity.
  - eexists. split; [apply restartGame_board|]. simpl.
    repeat split.
    intros who pos Hin.
    assert (Hpos : pos = 0 \/ pos = 1 \/ pos = 2 \/ pos = 3 \/ pos = 4
                   \/ pos = 5) by lia.
    unfold getStonesAt, boardOf. simpl.
    destruct (who =? 1);
      repeat (destruct Hpos as [-> | Hpos]; [reflexivity|]);
      subst pos; reflexivity.
Qed.

Lemma construction_fills_rows_witness :
  validArrayLength 6 = true
  /\ (exists s,
        GameState_new 2 6 = Ok s
        /\ pocketsPerSide s = 6
        /\ Z.of_nat (length (player1Board s)) = 6
        /\ Z.of_nat (length (player2Board s)) = 6
        /\ (forall who pos, 0 <= pos < 6 -> getStonesAt s who pos = Ok 4)
        /\ mancalas_player1 s = 0 /\ mancalas_player2 s = 0
        /\ currentPlayer s = 1)
  /\ exists s,
       restartGame 3 = Ok s
       /\ pocketsPerSide s = 6
       /\ length (player1Board s) = 6%nat /\ length (player2Board s) = 6%nat
       /\ (forall who pos, 0 <= pos < 6 -> getStonesAt s who pos = Ok 3)
       /\ mancalas_player1 s = 0 /\ mancalas_player2 s = 0
       /\ currentPlayer s = 1.
Proof.
  assert (Hlen : validArrayLength 6 = true) by reflexivity.
  exact (conj Hlen (construction_fills_rows 2 6 3 Hlen)).
Defined.

(** C6 does not hold as stated: the constructor is given the number of
    pits and nothing else, and the rows it builds hold 4 whatever number of
    stones was meant. *)
Lemma construction_ignores_initial_stones :
  GameState_new 2 6 = Ok opening
  /\ getStonesAt opening 1 0 = Ok 4
  /\ ~ (forall n, getStonesAt opening 1 0 = Ok n).
Proof.
  repeat split. intros Hall. specialize (Hall 3). discriminate.
Qed.

(** ** The stores *)

Lemma mancalaOf_setStonesAt s who pos count who' :
  mancalaOf (setStonesAt s who pos count) who' = mancalaOf s who'.
Proof.
  unfold mancalaOf.
  now destruct (setStonesAt_mancalas s who pos count) as [-> ->].
Qed.

Lemma mancalaOf_mancalaAdd_same s who n :
  who = 1 \/ who = 2 ->
  mancalaOf (mancalaAdd s who n) who = mancalaOf s who + n.
Proof. intros [-> | ->]; reflexivity. Qed.

Lemma mancalaOf_mancalaAdd_other s who n who' :
  who' <> who -> mancalaOf (mancalaAdd s who n) who' = mancalaOf s who'.
Proof.
  intros Hne. unfold mancalaOf, mancalaAdd.
  destruct (Z.eqb_spec who 1), (Z.eqb_spec who 2),
    (Z.eqb_spec who' 1), (Z.eqb_spec who' 2); simpl; try reflexivity; lia.
Qed.

Lemma mancalaOf_passTurn s keeps who :
  mancalaOf (passTurn s keeps) who = mancalaOf s who.
Proof. now destruct keeps. Qed.

Lemma cellAt_passTurn s keeps who pos :
  cellAt (passTurn s keeps) who pos = cellAt s who pos.
Proof. now destruct keeps. Qed.

(** Sowing leaves the opponent's store alone and never lowers the
    mover's. *)
Lemma stores_sowAll mover pockets cells : forall s,
  mover = 1 \/ mover = 2 ->
  Forall (cellOk mover pockets) cells ->
  mancalaOf (sowAll s cells) (otherPlayer mover)
  = mancalaOf s (otherPlayer mover)
  /\ mancalaOf s mover <= mancalaOf (sowAll s cells) mover.
Proof.
  induction cells as [|c cells IH]; intros s Hmover Hok; simpl.
  - split; [reflexivity | lia].
  - apply Forall_cons in Hok as [Hc Hok].
    change (fold_left sowCell cells (sowCell s c))
      with (sowAll (sowCell s c) cells).
    destruct (IH (sowCell s c) Hmover Hok) as [-> Hle].
    unfold sowCell, cellOk in *. destruct (isMancala c).
    + rewrite Hc in *. simpl player in *.
      rewrite mancalaOf_mancalaAdd_other by apply otherPlayer_neq.
      rewrite mancalaOf_mancalaAdd_same in Hle by assumption.
      split; [reflexivity | lia].
    + rewrite mancalaOf_setStonesAt in *. split; [reflexivity | lia].
Qed.

Lemma stores_captureAt s who pos :
  currentPlayer s = 1 \/ currentPlayer s = 2 ->
  mancalaOf (captureAt s who pos) (otherPlayer (currentPlayer s))
  = mancalaOf s (otherPlayer (currentPlayer s))
  /\ mancalaOf s (currentPlayer s)
     <= mancalaOf (captureAt s who pos) (currentPlayer s).
Proof.
  intros Hplayer. unfold captureAt, captures.
  destruct (Z.eqb_spec who (currentPlayer s)) as [-> | _];
    [|split; [reflexivity | simpl; lia]].
  destruct (cellAt s (currentPlayer s) pos =? 1);
    [|split; [reflexivity | simpl; lia]].
  destruct (Z.gtb_spec
              (cellAt s (otherPlayer (currentPlayer s)) (mirror s pos)) 0)
    as [Hfull | _]; [|split; [reflexivity | simpl; lia]].
  simpl. unfold transfer.
  rewrite mancalaOf_mancalaAdd_other by apply otherPlayer_neq.
  rewrite mancalaOf_mancalaAdd_same by assumption.
  rewrite !mancalaOf_setStonesAt. split; [reflexivity | lia].
Qed.

(** C5.  For every valid position and whatever the number of stones in the
    chosen pit, [performMove] leaves the opponent's store as it was: every
    store entry among the cells it sows is the mover's store, and of the
    two stores only the mover's can have grown. *)
Theorem opponent_store_never_sown s pos :
  wellFormed s -> isValidMove s pos = Ok true ->
  exists o,
    performMoveRun s pos = Ok o
    /\ Forall (fun c => isMancala c = true -> c = mancalaCell (currentPlayer s))
         (sown o)
    /\ mancalaOf (after o) (otherPlayer (currentPlayer s))
       = mancalaOf s (otherPlayer (currentPlayer s))
    /\ mancalaOf s (currentPlayer s) <= mancalaOf (after o) (currentPlayer s).
Proof.
  intros [Hrows Hplayer] Hvalid.
  destruct (performMoveWith_closed s pos (stonesInHand s pos) Hrows Hvalid)
    as (cells & n & Hsim & Hrun & _ & _); [lia|].
  destruct (previewOf_valid s pos cells Hrows Hvalid Hsim) as (Hok & _ & _).
  eexists. split; [exact Hrun|]. cbn [sown after].
  split.
  { eapply Forall_impl; [exact Hok|]. simpl.
    intros c Hc Hm. unfold cellOk in Hc. now rewrite Hm in Hc. }
  rewrite !mancalaOf_passTurn.
  set (b := sowAll (pickUp s pos) cells).
  assert (Hb : currentPlayer b = currentPlayer s).
  { subst b. rewrite sowAll_currentPlayer. apply setStonesAt_currentPlayer. }
  destruct (stores_sowAll (currentPlayer s) (pocketsPerSide s) cells
              (pickUp s pos) Hplayer Hok) as [Hother Hmine].
  fold b in Hother, Hmine. unfold pickUp in Hother, Hmine.
  rewrite !mancalaOf_setStonesAt in *.
  unfold settle. destruct (last cells) as [c|];
    [destruct (isMancala c)|]; try (split; [assumption | lia]).
  destruct (stores_captureAt b (player c) (position c)) as [Hother' Hmine'];
    [now rewrite Hb|].
  rewrite Hb in *. split; [congruence | lia].
Qed.

Lemma opponent_store_never_sown_witness :
  wellFormed fullMirror /\ isValidMove fullMirror 5 = Ok true
  /\ exists o,
       performMoveRun fullMirror 5 = Ok o
       /\ Forall (fun c => isMancala c = true ->
                           c = mancalaCell (currentPlayer fullMirror))
            (sown o)
       /\ mancalaOf (after o) (otherPlayer (currentPlayer fullMirror))
          = mancalaOf fullMirror (otherPlayer (currentPlayer fullMirror))
       /\ mancalaOf fullMirror (currentPlayer fullMirror)
          <= mancalaOf (after o) (currentPlayer fullMirror).
Proof.
  assert (Hwf : wellFormed fullMirror).
  { split; [split; reflexivity | left; reflexivity]. }
  assert (Hvalid : isValidMove fullMirror 5 = Ok true) by reflexivity.
  exact (conj Hwf (conj Hvalid
           (opponent_store_never_sown fullMirror 5 Hwf Hvalid))).
Defined.

(** ** Capture *)

Lemma transfer_cells s who pos :
  rowsMatch s -> who = 1 \/ who = 2 -> 0 <= pos < pocketsPerSide s ->
  cellAt (transfer s who pos) who pos = 0
  /\ cellAt (transfer s who pos) (otherPlayer who) (mirror s pos) = 0
  /\ mancalaOf (transfer s who pos) who
     = mancalaOf s who + cellAt s (otherPlayer who) (mirror s pos) + 1.
Proof.
  intros Hrows Hwho Hin. unfold transfer.
  rewrite !cellAt_mancalaAdd, cellAt_set_own.
  rewrite mancalaOf_mancalaAdd_same, !mancalaOf_setStonesAt by assumption.
  rewrite !cellAt_set_same;
    [ repeat split; lia
    | assumption
    | unfold mirror; lia
    | now apply setStonesAt_rowsMatch
    | now rewrite setStonesAt_pockets ].
Qed.

(** C2, as the code has it.  Let [c] be the last cell a valid move sows,
    [before] the board just before that last stone is added and [sownAll]
    the board just after.  A capture occurs if and only if [c] is a pit of
    the mover that was empty in [before] (it holds exactly 1 in [sownAll])
    and the mirror pit [P - 1 - index] of the opponent's row is not empty.
    When it occurs, the landing pit and the mirror pit are both 0 after the
    move and the mover's store has gained the stones of the mirror pit plus
    the landing stone; otherwise the move leaves the rows and stores as
    sowing left them. *)
Theorem capture_condition s pos :
  wellFormed s -> isValidMove s pos = Ok true ->
  exists o front c,
    performMoveRun s pos = Ok o
    /\ sown o = front ++ [c]
    /\ let mover := currentPlayer s in
       let before := sowAll (pickUp s pos) front in
       let sownAll := sowCell before c in
       let facing :=
         cellAt sownAll (otherPlayer mover) (mirror s (position c)) in
       (landsInEmptyOwnPit s before c = true
        <-> negb (isMancala c) && (player c =? mover)
            && (cellAt sownAll mover (position c) =? 1) = true)
       /\ if landsInEmptyOwnPit s before c && (facing >? 0)
          then
            keepsTurn o = false
            /\ after o = passTurn (transfer sownAll mover (position c)) false
            /\ cellAt (after o) mover (position c) = 0
            /\ cellAt (after o) (otherPlayer mover) (mirror s (position c)) = 0
            /\ mancalaOf (after o) mover
               = mancalaOf sownAll mover + facing + 1
          else after o = passTurn sownAll (keepsTurn o).
Proof.
  intros [Hrows Hplayer] Hvalid.
  destruct (performMoveWith_closed s pos (stonesInHand s pos) Hrows Hvalid)
    as (cells & n & Hsim & Hrun & _ & _); [lia|].
  destruct (previewOf_valid s pos cells Hrows Hvalid Hsim)
    as (Hok & Hcells & _).
  destruct (exists_last Hcells) as (front & c & ->).
  apply Forall_app in Hok as [_ Hc].
  apply (proj1 (Forall_singleton _ _)) in Hc.
  eexists _, front, c. split; [exact Hrun|]. split; [reflexivity|].
  cbn [keepsTurn after]. cbv zeta.
  rewrite sowAll_app. cbn [sowAll fold_left].
  fold (sowAll (pickUp s pos) front).
  set (before := sowAll (pickUp s pos) front).
  assert (Hbefore : rowsMatch before
                    /\ pocketsPerSide before = pocketsPerSide s
                    /\ currentPlayer before = currentPlayer s).
  { destruct (pickUp_facts s pos Hrows) as (? & ? & ?).
    subst before. rewrite sowAll_pockets, sowAll_currentPlayer.
    split; [now apply sowAll_rowsMatch | now split]. }
  destruct Hbefore as (Hrowsb & Hpocketsb & Hplayerb).
  unfold endsInMancala, settle. rewrite last_snoc.
  unfold landsInEmptyOwnPit, cellOk in *.
  destruct (isMancala c) eqn:Hm; cbn [negb andb].
  { split; [split; discriminate | reflexivity]. }
  assert (Hlanded : cellAt (sowCell before c) (player c) (position c)
                    = cellAt before (player c) (position c) + 1).
  { unfold sowCell. rewrite Hm.
    apply cellAt_set_same; [assumption | now rewrite Hpocketsb]. }
  destruct (Z.eqb_spec (player c) (currentPlayer s)) as [Hmine | Hnot].
  - rewrite <- Hmine in *. cbn [andb]. rewrite Hlanded.
    assert (Hempty :
      (cellAt before (player c) (position c) + 1 =? 1)
      = (cellAt before (player c) (position c) =? 0)).
    { destruct (Z.eqb_spec (cellAt before (player c) (position c)) 0);
        lia. }
    rewrite Hempty. split; [reflexivity|].
    unfold captureAt, captures.
    rewrite sowCell_currentPlayer, Hplayerb, Z.eqb_refl, Hlanded, Hempty.
    assert (Hmirror : forall p, mirror (sowCell before c) p = mirror s p).
    { intros p. unfold mirror. now rewrite sowCell_pockets, Hpocketsb. }
    rewrite !Hmirror. cbn [andb].
    destruct (cellAt before (player c) (position c) =? 0); cbn [andb];
      [|reflexivity].
    destruct (cellAt (sowCell before c) (otherPlayer (player c))
                (mirror s (position c)) >? 0); [|reflexivity].
    destruct (transfer_cells (sowCell before c) (player c) (position c))
      as (Hpit & Hfacing & Hstore);
      [ now apply sowCell_rowsMatch | assumption
      | now rewrite sowCell_pockets, Hpocketsb |].
    rewrite Hmirror in Hfacing, Hstore.
    rewrite !cellAt_passTurn, mancalaOf_passTurn.
    repeat split; assumption.
  - cbn [andb]. split; [split; discriminate|].
    rewrite captureAt_other;
      [reflexivity | now rewrite sowCell_currentPlayer, Hplayerb].
Qed.

Lemma capture_condition_witness :
  wellFormed fullMirror /\ isValidMove fullMirror 0 = Ok true
  /\ exists o,
       performMoveRun fullMirror 0 = Ok o
       /\ sown o = [pitCell 1 1]
       /\ cellAt (after o) 1 1 = 0
       /\ cellAt (after o) 2 4 = 0
       /\ mancalaOf (after o) 1 = 5.
Proof.
  assert (Hwf : wellFormed fullMirror).
  { split; [split; reflexivity | left; reflexivity]. }
  assert (Hvalid : isValidMove fullMirror 0 = Ok true) by reflexivity.
  split; [exact Hwf|]. split; [exact Hvalid|].
  destruct (capture_condition fullMirror 0 Hwf Hvalid)
    as (o & front & c & Hrun & Hsown & _).
  exists o. split; [exact Hrun|].
  injection Hrun as <-. repeat split.
Defined.

(** C2 does not hold as stated: on [emptyMirror] the only stone of pit 0
    lands in pit 1, an empty pit of the mover, and no capture follows,
    because the pit opposite is empty: the landing pit keeps its stone and
    the store gains nothing. *)
Lemma capture_needs_stones_opposite :
  isValidMove emptyMirror 0 = Ok true
  /\ exists o,
       performMoveRun emptyMirror 0 = Ok o
       /\ sown o = [pitCell 1 1]
       /\ landsInEmptyOwnPit emptyMirror (pickUp emptyMirror 0) (pitCell 1 1)
          = true
       /\ cellAt (after o) 1 1 = 1
       /\ mancalaOf (after o) 1 = mancalaOf emptyMirror 1.
Proof.
  split; [reflexivity|]. eexists. split; [reflexivity|].
  repeat split.
Qed.

(** * Further properties of the engine *)

(** ** Reading back what was written *)

Lemma data_set_lookup_other row pos count pos' :
  0 <= pos' -> pos' <> pos ->
  data_set row pos count !! Z.to_nat pos' = row !! Z.to_nat pos'.
Proof.
  intros Hpos' Hne. unfold data_set.
  destruct ((0 <=? pos) && (pos <? Z.of_nat (length row))) eqn:Hin;
    [|reflexivity].
  apply list_lookup_insert_ne. lia.
Qed.

Lemma cellAt_set_elsewhere s who pos count who' pos' :
  (who' =? 1) <> (who =? 1) \/ (0 <= pos' /\ pos' <> pos) ->
  cellAt (setStonesAt s who pos count) who' pos' = cellAt s who' pos'.
Proof.
  intros Hfar. unfold cellAt, setStonesAt, boardOf.
  destruct (who =? 1), (who' =? 1); simpl; try reflexivity;
    destruct Hfar as [Hrow | [Hpos' Hne]]; try congruence;
    now rewrite data_set_lookup_other.
Qed.

(** X2.  [setStonesAt] followed by [getStonesAt], for a position inside
    the rows: the count written is read back from the same player and
    position, every other pit reads as before (and a position outside the
    rows still throws), the rows keep their size, and neither store nor
    the turn marker is touched. *)
Theorem set_then_get s who pos count :
  rowsMatch s -> 0 <= pos < pocketsPerSide s ->
  getStonesAt (setStonesAt s who pos count) who pos = Ok count
  /\ (forall who' pos',
        (who' =? 1) <> (who =? 1) \/ pos' <> pos ->
        getStonesAt (setStonesAt s who pos count) who' pos'
        = getStonesAt s who' pos')
  /\ rowsMatch (setStonesAt s who pos count)
  /\ pocketsPerSide (setStonesAt s who pos count) = pocketsPerSide s
  /\ mancalas_player1 (setStonesAt s who pos count) = mancalas_player1 s
  /\ mancalas_player2 (setStonesAt s who pos count) = mancalas_player2 s
  /\ currentPlayer (setStonesAt s who pos count) = currentPlayer s.
Proof.
  intros Hrows Hin.
  assert (Hrows' := setStonesAt_rowsMatch s who pos count Hrows).
  assert (Houtside : forall t who' pos',
            rowsMatch t -> pos' < 0 \/ pocketsPerSide t <= pos' ->
            getStonesAt t who' pos' = Throws).
  { intros t who' pos' Ht Hout. unfold getStonesAt, matrix_get.
    rewrite (boardOf_length t who' Ht).
    destruct (Z.ltb_spec pos' 0); [reflexivity|].
    destruct (Z.geb_spec pos' (pocketsPerSide t)); [reflexivity | lia]. }
  split; [|split; [|split; [exact Hrows'|split]]].
  - rewrite getStonesAt_inside
      by (try rewrite setStonesAt_pockets; assumption).
    f_equal. now apply cellAt_set_same.
  - intros who' pos' Hfar.
    destruct (Z.lt_ge_cases pos' 0) as [Hneg | Hnonneg];
      [|destruct (Z.lt_ge_cases pos' (pocketsPerSide s)) as [Hin' | Hbig]].
    + rewrite !Houtside; try assumption; try reflexivity; left; lia.
    + rewrite !getStonesAt_inside
        by (try rewrite setStonesAt_pockets; assumption || lia).
      f_equal. apply cellAt_set_elsewhere.
      destruct Hfar as [Hrow | Hne]; [left | right]; auto.
    + rewrite !Houtside; try assumption; try reflexivity;
        right; rewrite ?setStonesAt_pockets; lia.
  - apply setStonesAt_pockets.
  - destruct (setStonesAt_mancalas s who pos count) as [-> ->].
    now rewrite setStonesAt_currentPlayer.
Qed.

Lemma set_then_get_witness :
  rowsMatch opening /\ 0 <= 3 < pocketsPerSide opening
  /\ getStonesAt (setStonesAt opening 2 3 9) 2 3 = Ok 9
  /\ getStonesAt (setStonesAt opening 2 3 9) 1 3 = Ok 4
  /\ getStonesAt (setStonesAt opening 2 3 9) 2 7 = Throws.
Proof.
  assert (Hrows : rowsMatch opening) by (split; reflexivity).
  assert (Hin : 0 <= 3 < pocketsPerSide opening) by (simpl; lia).
  destruct (set_then_get opening 2 3 9 Hrows Hin) as (Hsame & Hother & _).
  split; [exact Hrows|]. split; [exact Hin|]. split; [exact Hsame|].
  split; [|reflexivity].
  rewrite (Hother 1 3); [reflexivity | left; discriminate].
Defined.

(** ** Counts stay non-negative *)

Lemma Forall_data_set (P : Z -> Prop) row pos count :
  Forall P row -> P count -> Forall P (data_set row pos count).
Proof.
  intros Hrow Hcount. unfold data_set.
  destruct ((0 <=? pos) && (pos <? Z.of_nat (length row)));
    [now apply Forall_insert | assumption].
Qed.

Lemma nonNegative_setStonesAt s who pos count :
  nonNegative s -> 0 <= count -> nonNegative (setStonesAt s who pos count).
Proof.
  intros (H1 & H2 & H3 & H4) Hcount. unfold nonNegative, setStonesAt.
  destruct (who =? 1); simpl; repeat split; try assumption;
    now apply Forall_data_set.
Qed.

Lemma nonNegative_mancalaAdd s who n :
  nonNegative s -> 0 <= n -> nonNegative (mancalaAdd s who n).
Proof.
  intros (H1 & H2 & H3 & H4) Hn. unfold nonNegative, mancalaAdd.
  destruct (who =? 1), (who =? 2); simpl; repeat split;
    try assumption; lia.
Qed.

Lemma nonNegative_cellAt s who pos : nonNegative s -> 0 <= cellAt s who pos.
Proof.
  intros (H1 & H2 & _). unfold cellAt, boardOf.
  destruct (who =? 1);
    (destruct (_ !! Z.to_nat pos) as [n|] eqn:Hn; simpl; [|lia]);
    [ rewrite Forall_forall in H1; apply H1
    | rewrite Forall_forall in H2; apply H2 ];
    eapply list_elem_of_lookup_2; exact Hn.
Qed.

Lemma nonNegative_sowAll cells : forall s,
  nonNegative s -> nonNegative (sowAll s cells).
Proof.
  induction cells as [|c cells IH]; intros s Hs; simpl; [assumption|].
  apply IH. unfold sowCell. destruct (isMancala c).
  - apply nonNegative_mancalaAdd; [assumption | lia].
  - apply nonNegative_setStonesAt; [assumption|].
    pose proof (nonNegative_cellAt s (player c) (position c) Hs). lia.
Qed.

Lemma nonNegative_settle s cells : nonNegative s -> nonNegative (settle s cells).
Proof.
  intros Hs. unfold settle, captureAt.
  destruct (last cells) as [c|]; [|assumption].
  destruct (isMancala c); [assumption|].
  destruct (captures s (player c) (position c)); [|assumption].
  unfold transfer. apply nonNegative_mancalaAdd.
  - repeat apply nonNegative_setStonesAt; (assumption || lia).
  - pose proof (nonNegative_cellAt s (otherPlayer (player c))
                  (mirror s (position c)) Hs). lia.
Qed.

Lemma nonNegative_passTurn s keeps :
  nonNegative s -> nonNegative (passTurn s keeps).
Proof. now destruct keeps. Qed.

Lemma clickPit_nonNegative s pos :
  rowsMatch s -> nonNegative s ->
  exists s', clickPit s pos = Ok s' /\ rowsMatch s' /\ nonNegative s'.
Proof.
  intros Hrows Hs. unfold clickPit.
  destruct (isValidMove_returns s pos Hrows) as [[|] Hvalid];
    rewrite Hvalid; cbn [bind]; [|eauto].
  destruct (performMoveWith_closed s pos (stonesInHand s pos) Hrows Hvalid)
    as (cells & n & _ & Hrun & _); [lia|].
  unfold performMove, performMoveRun. rewrite Hrun.
  cbn [bind keepsTurn after]. eexists. split; [reflexivity|].
  destruct (pickUp_facts s pos Hrows) as (Hrows0 & _).
  split.
  - apply passTurn_rowsMatch.
    now apply settle_facts, sowAll_rowsMatch.
  - apply nonNegative_passTurn, nonNegative_settle, nonNegative_sowAll.
    unfold pickUp. apply nonNegative_setStonesAt; [assumption | lia].
Qed.

(** X3.  If no pit and no store holds a negative count, none does after a
    valid [performMove], and so in every state of a game played from such a
    board, whatever pits are clicked. *)
Theorem counts_stay_non_negative s moves :
  rowsMatch s -> nonNegative s ->
  (forall pos keeps s',
     isValidMove s pos = Ok true -> performMove s pos = Ok (keeps, s') ->
     nonNegative s')
  /\ exists states,
       playMoves s moves = Ok states /\ Forall nonNegative states.
Proof.
  intros Hrows Hs. split.
  - intros pos keeps s' Hvalid Hmove.
    destruct (clickPit_nonNegative s pos Hrows Hs) as (t & Hclick & _ & Ht).
    unfold clickPit in Hclick. rewrite Hvalid, Hmove in Hclick.
    cbn [bind] in Hclick. now injection Hclick as ->.
  - revert s Hrows Hs.
    induction moves as [|pos moves IH]; intros s Hrows Hs; simpl.
    + exists [s]. split; [reflexivity | now constructor].
    + destruct (clickPit_nonNegative s pos Hrows Hs)
        as (s' & Hclick & Hrows' & Hs').
      rewrite Hclick. cbn [bind].
      destruct (IH s' Hrows' Hs') as (states & Hplay & Hall).
      rewrite Hplay. cbn [bind].
      exists (s :: states). split; [reflexivity | now constructor].
Qed.

Lemma counts_stay_non_negative_witness :
  rowsMatch fullMirror /\ nonNegative fullMirror
  /\ exists states,
       playMoves fullMirror [0; 4; 5; 2] = Ok states
       /\ Forall nonNegative states.
Proof.
  assert (Hrows : rowsMatch fullMirror) by (split; reflexivity).
  assert (Hs : nonNegative fullMirror).
  { unfold nonNegative, fullMirror. simpl.
    repeat split; try lia; repeat constructor; lia. }
  exact (conj Hrows (conj Hs
           (proj2 (counts_stay_non_negative fullMirror [0; 4; 5; 2]
                     Hrows Hs)))).
Defined.

(** ** The shape of the board *)

(** X4.  [performMove] never resizes the board: whatever the position,
    the number of pits a side, the [dimensions] field and the length of
    both rows are the same after the call, and a turn marker that is 1 or 2
    is 1 or 2 afterwards. *)
Theorem performMove_keeps_shape s pos :
  rowsMatch s ->
  exists keeps s',
    performMove s pos = Ok (keeps, s')
    /\ pocketsPerSide s' = pocketsPerSide s
    /\ dimensions s' = dimensions s
    /\ length (player1Board s') = length (player1Board s)
    /\ length (player2Board s') = length (player2Board s)
    /\ (currentPlayer s = 1 \/ currentPlayer s = 2 ->
        currentPlayer s' = 1 \/ currentPlayer s' = 2).
Proof.
  intros Hrows.
  assert (Hdims_set : forall t who p c,
            dimensions (setStonesAt t who p c) = dimensions t).
  { intros. unfold setStonesAt. now destruct (who =? 1). }
  assert (Hdims_add : forall t who n,
            dimensions (mancalaAdd t who n) = dimensions t).
  { intros. unfold mancalaAdd. now destruct (who =? 1), (who =? 2). }
  assert (Hdims_sow : forall cells t,
            dimensions (sowAll t cells) = dimensions t).
  { induction cells as [|c cells IH]; intros t; simpl; [reflexivity|].
    change (fold_left sowCell cells (sowCell t c))
      with (sowAll (sowCell t c) cells).
    rewrite IH. unfold sowCell. now destruct (isMancala c). }
  assert (Hdims_settle : forall t cells,
            dimensions (settle t cells) = dimensions t).
  { intros. unfold settle, captureAt, transfer.
    destruct (last cells) as [c|]; [|reflexivity].
    destruct (isMancala c); [reflexivity|].
    destruct (captures t (player c) (position c)); [|reflexivity].
    now rewrite Hdims_add, !Hdims_set. }
  destruct (isValidMove_returns s pos Hrows) as [[|] Hvalid].
  - destruct (performMoveWith_closed s pos (stonesInHand s pos) Hrows Hvalid)
      as (cells & n & _ & Hrun & _); [lia|].
    unfold performMove, performMoveRun. rewrite Hrun.
    cbn [bind keepsTurn after]. eexists _, _. split; [reflexivity|].
    destruct (pickUp_facts s pos Hrows) as (Hrows0 & Hpockets0 & Hplayer0).
    set (b := sowAll (pickUp s pos) cells).
    assert (Hrowsb : rowsMatch b) by now apply sowAll_rowsMatch.
    destruct (settle_facts b cells Hrowsb) as (Hrows1 & Hpockets1 & Hplayer1).
    assert (Hpockets : pocketsPerSide
              (passTurn (settle b cells) (endsInMancala cells))
            = pocketsPerSide s).
    { rewrite passTurn_pockets, Hpockets1. subst b.
      now rewrite sowAll_pockets. }
    assert (Hrows2 := passTurn_rowsMatch _ (endsInMancala cells) Hrows1).
    destruct Hrows as [Hr1 Hr2]. destruct Hrows2 as [Hr1' Hr2'].
    rewrite Hpockets in Hr1', Hr2'.
    split; [exact Hpockets|]. split.
    { assert (Hdims_pass : forall t k,
                dimensions (passTurn t k) = dimensions t)
        by (intros t [|]; reflexivity).
      rewrite Hdims_pass, Hdims_settle. subst b. rewrite Hdims_sow.
      apply Hdims_set. }
    split; [lia|]. split; [lia|].
    intros Hplayer. rewrite passTurn_currentPlayer, Hplayer1.
    subst b. rewrite sowAll_currentPlayer, Hplayer0.
    destruct (endsInMancala cells); [assumption | apply otherPlayer_range].
  - exists false, s.
    unfold performMove, performMoveRun, performMoveWith. rewrite Hvalid.
    now repeat split.
Qed.

Lemma performMove_keeps_shape_witness :
  rowsMatch opening
  /\ exists keeps s',
       performMove opening 2 = Ok (keeps, s')
       /\ pocketsPerSide s' = pocketsPerSide opening
       /\ dimensions s' = dimensions opening
       /\ length (player1Board s') = length (player1Board opening)
       /\ length (player2Board s') = length (player2Board opening)
       /\ (currentPlayer opening = 1 \/ currentPlayer opening = 2 ->
           currentPlayer s' = 1 \/ currentPlayer s' = 2).
Proof.
  assert (Hrows : rowsMatch opening) by (split; reflexivity).
  exact (conj Hrows (performMove_keeps_shape opening 2 Hrows)).
Defined.

(** ** A side without stones *)

(** X5.  The engine has no end of game.  When no pit of the player to move
    holds a stone, [isValidMove] rejects every position and every click
    leaves the state as it is, turn marker included: the turn never passes
    to the other player. *)
Theorem no_stones_no_move s moves :
  rowsMatch s ->
  Forall (fun n => n <= 0) (boardOf s (currentPlayer s)) ->
  (forall pos, isValidMove s pos = Ok false)
  /\ (forall pos, performMove s pos = Ok (false, s))
  /\ playMoves s moves = Ok (replicate (S (length moves)) s).
Proof.
  intros Hrows Hempty.
  assert (Hinvalid : forall pos, isValidMove s pos = Ok false).
  { intros pos. unfold isValidMove.
    destruct (Z.ltb_spec pos 0); simpl; [reflexivity|].
    destruct (Z.geb_spec pos (pocketsPerSide s)); simpl; [reflexivity|].
    rewrite getStonesAt_inside by (assumption || lia). simpl.
    f_equal. unfold cellAt.
    destruct (boardOf s (currentPlayer s) !! Z.to_nat pos) as [n|] eqn:Hn;
      simpl; [|reflexivity].
    rewrite Forall_forall in Hempty.
    specialize (Hempty n (list_elem_of_lookup_2 _ _ _ Hn)). lia. }
  split; [exact Hinvalid|]. split.
  - intros pos.
    unfold performMove, performMoveRun, performMoveWith.
    now rewrite Hinvalid.
  - induction moves as [|pos moves IH]; simpl; [reflexivity|].
    unfold clickPit. rewrite Hinvalid. cbn [bind].
    change (playMoves s moves) with (playMoves s moves).
    simpl in IH. now rewrite IH.
Qed.

Lemma no_stones_no_move_witness :
  let s := mkGameState 2 3 2 [1; 2; 3] [0; 0; 0] 4 5 in
  rowsMatch s
  /\ Forall (fun n => n <= 0) (boardOf s (currentPlayer s))
  /\ (forall pos, isValidMove s pos = Ok false)
  /\ (forall pos, performMove s pos = Ok (false, s))
  /\ playMoves s [0; 1; 2] = Ok (replicate 4 s).
Proof.
  intros s.
  assert (Hrows : rowsMatch s) by (split; reflexivity).
  assert (Hempty : Forall (fun n => n <= 0) (boardOf s (currentPlayer s))).
  { simpl. repeat constructor; lia. }
  exact (conj Hrows (conj Hempty (no_stones_no_move s [0; 1; 2] Hrows Hempty))).
Defined.

(** ** The store of the player to move *)

Lemma getCurrentMancalaCount_mancalaOf s :
  currentPlayer s = 1 \/ currentPlayer s = 2 ->
  getCurrentMancalaCount s = Some (mancalaOf s (currentPlayer s)).
Proof.
  unfold getCurrentMancalaCount, mancalaOf. intros [-> | ->]; reflexivity.
Qed.

(** The stores after a valid move, from its closed form. *)
Lemma stores_after_move s pos cells :
  wellFormed s -> isValidMove s pos = Ok true ->
  simulateMove s pos = Ok cells ->
  let s' := settle (sowAll (pickUp s pos) cells) cells in
  mancalaOf s' (otherPlayer (currentPlayer s))
  = mancalaOf s (otherPlayer (currentPlayer s))
  /\ mancalaOf s (currentPlayer s) <= mancalaOf s' (currentPlayer s)
  /\ (endsInMancala cells = true ->
      mancalaOf s (currentPlayer s) + 1 <= mancalaOf s' (currentPlayer s)).
Proof.
  intros [Hrows Hplayer] Hvalid Hsim.
  destruct (previewOf_valid s pos cells Hrows Hvalid Hsim)
    as (Hok & Hcells & _).
  destruct (exists_last Hcells) as (front & c & ->).
  cbv zeta. unfold settle, endsInMancala. rewrite last_snoc.
  rewrite sowAll_app. cbn [sowAll fold_left].
  fold (sowAll (pickUp s pos) front).
  apply Forall_app in Hok as [Hfront Hc].
  apply (proj1 (Forall_singleton _ _)) in Hc.
  destruct (stores_sowAll (currentPlayer s) (pocketsPerSide s) front
              (pickUp s pos) Hplayer Hfront) as [Hother Hmine].
  assert (Hpick : forall who,
            mancalaOf (pickUp s pos) who = mancalaOf s who)
    by (intros; apply mancalaOf_setStonesAt).
  rewrite !Hpick in Hother, Hmine.
  set (before := sowAll (pickUp s pos) front) in *.
  assert (Hbefore : currentPlayer before = currentPlayer s).
  { subst before. rewrite sowAll_currentPlayer.
    apply setStonesAt_currentPlayer. }
  unfold cellOk in Hc. destruct (isMancala c) eqn:Hm.
  - unfold sowCell. rewrite Hm, Hc. simpl player.
    rewrite mancalaOf_mancalaAdd_other by apply otherPlayer_neq.
    rewrite mancalaOf_mancalaAdd_same by assumption.
    repeat split; (assumption || lia).
  - destruct (stores_captureAt (sowCell before c) (player c) (position c))
      as [Hother' Hmine'];
      [now rewrite sowCell_currentPlayer, Hbefore|].
    assert (Hsow : forall who,
              mancalaOf (sowCell before c) who = mancalaOf before who).
    { intros who. unfold sowCell. rewrite Hm.
      apply mancalaOf_setStonesAt. }
    rewrite sowCell_currentPlayer, Hbefore in Hother', Hmine'.
    rewrite !Hsow in Hother', Hmine'.
    repeat split; try discriminate; (congruence || lia).
Qed.

(** X6.  [getCurrentMancalaCount] around a valid move.  When the move
    keeps the turn, the count it returns afterwards is the same player's
    and has grown by at least one.  When the turn passes, it returns the
    store of the player who now moves, which the move has not changed. *)
Theorem current_mancala_after_move s pos :
  wellFormed s -> isValidMove s pos = Ok true ->
  exists keeps s' before,
    performMove s pos = Ok (keeps, s')
    /\ getCurrentMancalaCount s = Some before
    /\ (keeps = true ->
        exists now,
          getCurrentMancalaCount s' = Some now /\ before + 1 <= now)
    /\ (keeps = false ->
        getCurrentMancalaCount s'
        = Some (mancalaOf s (otherPlayer (currentPlayer s)))).
Proof.
  intros Hwf Hvalid. pose proof Hwf as [Hrows Hplayer].
  destruct (performMoveWith_closed s pos (stonesInHand s pos) Hrows Hvalid)
    as (cells & n & Hsim & Hrun & _); [lia|].
  destruct (stores_after_move s pos cells Hwf Hvalid Hsim)
    as (Hother & _ & Hmine).
  set (s1 := settle (sowAll (pickUp s pos) cells) cells) in *.
  assert (Hs1 : currentPlayer s1 = currentPlayer s).
  { destruct (pickUp_facts s pos Hrows) as (Hrows0 & _ & Hplayer0).
    subst s1.
    destruct (settle_facts (sowAll (pickUp s pos) cells) cells)
      as (_ & _ & ->); [now apply sowAll_rowsMatch|].
    now rewrite sowAll_currentPlayer. }
  eexists _, _, _.
  split; [unfold performMove, performMoveRun; rewrite Hrun; reflexivity|].
  cbn [keepsTurn after].
  split; [now apply getCurrentMancalaCount_mancalaOf|].
  split; intros Hkeeps; rewrite Hkeeps.
  - eexists. split; [|apply Hmine, Hkeeps].
    change (passTurn s1 true) with s1.
    rewrite getCurrentMancalaCount_mancalaOf by (rewrite Hs1; assumption).
    now rewrite Hs1.
  - rewrite getCurrentMancalaCount_mancalaOf
      by (rewrite passTurn_currentPlayer, Hs1; apply otherPlayer_range).
    now rewrite passTurn_currentPlayer, Hs1, mancalaOf_passTurn, Hother.
Qed.

Lemma current_mancala_after_move_witness :
  wellFormed opening /\ isValidMove opening 2 = Ok true
  /\ exists keeps s' before,
       performMove opening 2 = Ok (keeps, s')
       /\ getCurrentMancalaCount opening = Some before
       /\ (keeps = true ->
           exists now,
             getCurrentMancalaCount s' = Some now /\ before + 1 <= now)
       /\ (keeps = false ->
           getCurrentMancalaCount s'
           = Some (mancalaOf opening (otherPlayer (currentPlayer opening)))).
Proof.
  assert (Hwf : wellFormed opening).
  { split; [split; reflexivity | left; reflexivity]. }
  assert (Hvalid : isValidMove opening 2 = Ok true) by reflexivity.
  exact (conj Hwf (conj Hvalid
           (current_mancala_after_move opening 2 Hwf Hvalid))).
Defined.

(** ** Which moves keep the turn *)

Lemma endsInMancala_cons c rest :
  rest <> [] -> endsInMancala (c :: rest) = endsInMancala rest.
Proof. intros Hne. now apply (endsInMancala_app [c] rest). Qed.

Lemma simulateLoop_nonempty k mover pockets who pos :
  simulateLoop (S k) mover pockets who pos [] <> [].
Proof.
  intros Hnil. apply (f_equal length) in Hnil.
  rewrite simulateLoop_length in Hnil. discriminate.
Qed.

Lemma otherPlayer_twice who :
  who = 1 \/ who = 2 -> otherPlayer (otherPlayer who) = who.
Proof. intros [-> | ->]; reflexivity. Qed.

(** The walk of the cursor seen from the mover's store: [d] is the number
    of stones it takes to reach the store, and the last of [k + 1] stones
    falls in the store exactly when [k + 1] is [d] plus whole laps of
    [2 * pockets + 1] cells. *)
Lemma walk_to_store mover pockets :
  mover = 1 \/ mover = 2 -> 0 < pockets ->
  forall k who pos d,
    (who = mover /\ 0 <= pos < pockets /\ d = pockets - pos)
    \/ (who = otherPlayer mover /\ -1 <= pos < pockets
        /\ d = 2 * pockets - pos) ->
    endsInMancala (simulateLoop (S k) mover pockets who pos []) = true
    <-> exists laps,
          0 <= laps /\ Z.of_nat (S k) = d + laps * (2 * pockets + 1).
Proof.
  intros Hmover Hpockets.
  assert (Hlap : forall laps, 0 <= laps -> 0 <= laps * (2 * pockets + 1))
    by (intros; apply Z.mul_nonneg_nonneg; lia).
  assert (Hlap1 : forall laps, 1 <= laps ->
            2 * pockets + 1 <= laps * (2 * pockets + 1)) by (intros; nia).
  induction k as [|k IH]; intros who pos d Hstate.
  - (* a single stone *)
    destruct Hstate as [(-> & Hpos & ->) | (-> & Hpos & ->)].
    + destruct (Z.lt_ge_cases (pos + 1) pockets) as [Hlt | Hge].
      * rewrite simulateLoop_pit by assumption. simpl.
        split; [discriminate|]. intros (laps & Hlaps & Heq).
        specialize (Hlap laps Hlaps). lia.
      * rewrite simulateLoop_store by assumption. simpl.
        split; [|reflexivity]. intros _. exists 0. lia.
    + assert (Hne := otherPlayer_neq mover).
      destruct (Z.lt_ge_cases (pos + 1) pockets) as [Hlt | Hge];
        [rewrite simulateLoop_pit by assumption
        |rewrite simulateLoop_cross by assumption];
        simpl; (split; [discriminate|]); intros (laps & Hlaps & Heq);
        specialize (Hlap laps Hlaps); lia.
  - (* one stone, then [k + 1] more from the next cell *)
    assert (Hshift : forall d',
              1 < d' ->
              (exists laps, 0 <= laps
                 /\ Z.of_nat (S (S k)) = d' + laps * (2 * pockets + 1))
              <-> (exists laps, 0 <= laps
                     /\ Z.of_nat (S k) = d' - 1 + laps * (2 * pockets + 1))).
    { intros d' Hd'. split; intros (laps & Hlaps & Heq); exists laps; lia. }
    destruct Hstate as [(-> & Hpos & ->) | (-> & Hpos & ->)].
    + destruct (Z.lt_ge_cases (pos + 1) pockets) as [Hlt | Hge].
      * rewrite simulateLoop_pit by assumption.
        rewrite endsInMancala_cons by apply simulateLoop_nonempty.
        rewrite (IH mover (pos + 1) (pockets - pos - 1)) by (left; lia).
        rewrite (Hshift (pockets - pos)) by lia. reflexivity.
      * rewrite simulateLoop_store by assumption.
        rewrite endsInMancala_cons by apply simulateLoop_nonempty.
        rewrite (IH (otherPlayer mover) (-1) (2 * pockets + 1))
          by (right; lia).
        replace (pockets - pos) with 1 by lia.
        split; intros (laps & Hlaps & Heq).
        -- exists (laps + 1). lia.
        -- destruct (Z.eq_dec laps 0) as [-> | Hpos'].
           ++ lia.
           ++ exists (laps - 1). lia.
    + assert (Hne := otherPlayer_neq mover).
      destruct (Z.lt_ge_cases (pos + 1) pockets) as [Hlt | Hge].
      * rewrite simulateLoop_pit by assumption.
        rewrite endsInMancala_cons by apply simulateLoop_nonempty.
        rewrite (IH (otherPlayer mover) (pos + 1) (2 * pockets - pos - 1))
          by (right; lia).
        rewrite (Hshift (2 * pockets - pos)) by lia. reflexivity.
      * rewrite simulateLoop_cross by assumption.
        rewrite endsInMancala_cons by apply simulateLoop_nonempty.
        rewrite otherPlayer_twice by assumption.
        rewrite (IH mover 0 pockets) by (left; lia).
        rewrite (Hshift (2 * pockets - pos)) by lia.
        replace (2 * pockets - pos - 1) with pockets by lia. reflexivity.
Qed.

(** X7.  Which moves earn another turn.  With [n] stones in pit [pos] of
    a board with [P] pits a side, a valid [performMove] returns true
    exactly when [n] is [P - pos], the distance to the mover's store, plus
    a whole number of laps of [2 * P + 1] cells (the two rows and the
    mover's store; the opponent's store is not on the lap). *)
Theorem extra_turn_arithmetic s pos :
  wellFormed s -> isValidMove s pos = Ok true ->
  exists keeps s' n,
    getStonesAt s (currentPlayer s) pos = Ok n
    /\ performMove s pos = Ok (keeps, s')
    /\ (keeps = true
        <-> exists laps,
              0 <= laps
              /\ n = pocketsPerSide s - pos
                     + laps * (2 * pocketsPerSide s + 1)).
Proof.
  intros [Hrows Hplayer] Hvalid.
  destruct (isValidMove_picked s pos Hrows Hvalid) as (Hin & Hget & Hn).
  destruct (performMoveWith_closed s pos (stonesInHand s pos) Hrows Hvalid)
    as (cells & n & Hsim & Hrun & _); [lia|].
  rewrite simulateMove_valid in Hsim by assumption. injection Hsim as <-.
  eexists _, _, _. split; [exact Hget|].
  split; [unfold performMove, performMoveRun; rewrite Hrun; reflexivity|].
  cbn [keepsTurn].
  set (picked := cellAt s (currentPlayer s) pos) in *.
  destruct (Z.to_nat picked) as [|k] eqn:Hk; [lia|].
  rewrite (walk_to_store (currentPlayer s) (pocketsPerSide s) Hplayer
             ltac:(lia) k (currentPlayer s) pos (pocketsPerSide s - pos))
    by (left; lia).
  replace (Z.of_nat (S k)) with picked by lia. reflexivity.
Qed.

Lemma extra_turn_arithmetic_witness :
  wellFormed opening /\ isValidMove opening 2 = Ok true
  /\ exists keeps s' n,
       getStonesAt opening (currentPlayer opening) 2 = Ok n
       /\ performMove opening 2 = Ok (keeps, s')
       /\ (keeps = true
           <-> exists laps,
                 0 <= laps
                 /\ n = pocketsPerSide opening - 2
                        + laps * (2 * pocketsPerSide opening + 1)).
Proof.
  assert (Hwf : wellFormed opening).
  { split; [split; reflexivity | left; reflexivity]. }
  assert (Hvalid : isValidMove opening 2 = Ok true) by reflexivity.
  exact (conj Hwf (conj Hvalid (extra_turn_arithmetic opening 2 Hwf Hvalid))).
Defined.

(** ** The chosen pit after the move *)

(** The walk of the cursor seen from the chosen pit: with fewer stones than
    the [d] it takes to come back to it, no stone falls in it. *)
Lemma walk_misses_chosen mover pockets chosen :
  mover = 1 \/ mover = 2 -> 0 <= chosen < pockets ->
  forall k who pos d,
    (who = mover /\ chosen <= pos < pockets
     /\ d = 2 * pockets + 1 + chosen - pos)
    \/ (who = otherPlayer mover /\ -1 <= pos < pockets
        /\ d = pockets - pos + chosen)
    \/ (who = mover /\ 0 <= pos < chosen /\ d = chosen - pos) ->
    Z.of_nat k < d ->
    Forall (awayFrom mover chosen) (simulateLoop k mover pockets who pos []).
Proof.
  intros Hmover Hchosen.
  assert (Hne := otherPlayer_neq mover).
  induction k as [|k IH]; intros who pos d Hstate Hk; [constructor|].
  destruct Hstate
    as [(-> & Hpos & ->) | [(-> & Hpos & ->) | (-> & Hpos & ->)]].
  - destruct (Z.lt_ge_cases (pos + 1) pockets) as [Hlt | Hge].
    + rewrite simulateLoop_pit by assumption. constructor.
      * right; right. simpl. lia.
      * apply (IH _ _ (2 * pockets + 1 + chosen - (pos + 1))); [left|]; lia.
    + rewrite simulateLoop_store by assumption. constructor.
      * now left.
      * apply (IH _ _ (pockets - -1 + chosen)); [right; left|]; lia.
  - destruct (Z.lt_ge_cases (pos + 1) pockets) as [Hlt | Hge].
    + rewrite simulateLoop_pit by assumption. constructor.
      * right; left. reflexivity.
      * apply (IH _ _ (pockets - (pos + 1) + chosen)); [right; left|]; lia.
    + rewrite simulateLoop_cross by assumption.
      rewrite otherPlayer_twice by assumption. constructor.
      * right; right. simpl. lia.
      * apply (IH _ _ (chosen - 0)); [right; right|]; lia.
  - rewrite simulateLoop_pit by lia. constructor.
    + right; right. simpl. lia.
    + apply (IH _ _ (chosen - (pos + 1))); [right; right|]; lia.
Qed.

Lemma cellAt_sowCell_away s mover chosen c :
  mover = 1 \/ mover = 2 -> 0 <= chosen -> awayFrom mover chosen c ->
  cellAt (sowCell s c) mover chosen = cellAt s mover chosen.
Proof.
  intros Hmover Hchosen Haway. unfold sowCell.
  destruct (isMancala c) eqn:Hm; [apply cellAt_mancalaAdd|].
  apply cellAt_set_elsewhere.
  destruct Haway as [Hstore | [Hother | [Hmine Hpos]]];
    [congruence | left | right; lia].
  rewrite Hother. unfold otherPlayer.
  destruct Hmover as [-> | ->]; discriminate.
Qed.

Lemma cellAt_sowAll_away mover chosen cells : forall s,
  mover = 1 \/ mover = 2 -> 0 <= chosen ->
  Forall (awayFrom mover chosen) cells ->
  cellAt (sowAll s cells) mover chosen = cellAt s mover chosen.
Proof.
  induction cells as [|c cells IH]; intros s Hmover Hchosen Haway; simpl;
    [reflexivity|].
  apply Forall_cons in Haway as [Hc Haway].
  change (fold_left sowCell cells (sowCell s c))
    with (sowAll (sowCell s c) cells).
  rewrite IH by assumption. now apply cellAt_sowCell_away.
Qed.

Lemma cellAt_settle_away s chosen cells :
  currentPlayer s = 1 \/ currentPlayer s = 2 -> 0 <= chosen ->
  Forall (awayFrom (currentPlayer s) chosen) cells ->
  cellAt (settle s cells) (currentPlayer s) chosen
  = cellAt s (currentPlayer s) chosen.
Proof.
  intros Hmover Hchosen Haway. unfold settle.
  destruct (last cells) as [c|] eqn:Hlast; [|reflexivity].
  destruct (isMancala c) eqn:Hm; [reflexivity|].
  rewrite Forall_forall in Haway.
  specialize (Haway c (last_Some_elem_of _ _ Hlast)).
  unfold captureAt, captures.
  destruct (Z.eqb_spec (player c) (currentPlayer s)) as [Hmine | _];
    [|reflexivity].
  cbn [andb].
  destruct ((cellAt s (player c) (position c) =? 1)
            && (cellAt s (otherPlayer (player c)) (mirror s (position c))
                >? 0)); [|reflexivity].
  unfold transfer. rewrite cellAt_mancalaAdd, Hmine.
  pose proof (otherPlayer_neq (currentPlayer s)) as Hne.
  destruct Haway as [Hstore | [Hother | [_ Hpos]]];
    [congruence | congruence |].
  rewrite cellAt_set_elsewhere by (right; lia).
  apply cellAt_set_facing.
Qed.

(** X8.  A valid move of at most [2 * P] stones leaves the chosen pit
    empty: the pit is emptied when the stones are picked up, the walk needs
    [2 * P + 1] stones to come back to it, and a capture touches the
    landing pit and the opponent's row only. *)
Theorem chosen_pit_left_empty s pos n :
  wellFormed s -> isValidMove s pos = Ok true ->
  getStonesAt s (currentPlayer s) pos = Ok n ->
  n <= 2 * pocketsPerSide s ->
  exists keeps s',
    performMove s pos = Ok (keeps, s')
    /\ getStonesAt s' (currentPlayer s) pos = Ok 0.
Proof.
  intros [Hrows Hplayer] Hvalid Hn Hshort.
  destruct (isValidMove_picked s pos Hrows Hvalid) as (Hin & Hget & Hpos).
  rewrite Hget in Hn. injection Hn as <-.
  destruct (performMoveWith_closed s pos (stonesInHand s pos) Hrows Hvalid)
    as (cells & k & Hsim & Hrun & _); [lia|].
  rewrite simulateMove_valid in Hsim by assumption. injection Hsim as <-.
  set (cells := simulateLoop (Z.to_nat (cellAt s (currentPlayer s) pos))
                  (currentPlayer s) (pocketsPerSide s) (currentPlayer s)
                  pos []) in *.
  assert (Haway : Forall (awayFrom (currentPlayer s) pos) cells).
  { apply (walk_misses_chosen (currentPlayer s) (pocketsPerSide s) pos
             Hplayer Hin _ _ _ (2 * pocketsPerSide s + 1)); [left|]; lia. }
  destruct (pickUp_facts s pos Hrows) as (Hrows0 & Hpockets0 & Hplayer0).
  set (b := sowAll (pickUp s pos) cells) in *.
  assert (Hb : rowsMatch b /\ pocketsPerSide b = pocketsPerSide s
               /\ currentPlayer b = currentPlayer s).
  { subst b. rewrite sowAll_pockets, sowAll_currentPlayer.
    split; [now apply sowAll_rowsMatch | now split]. }
  destruct Hb as (Hrowsb & Hpocketsb & Hplayerb).
  destruct (settle_facts b cells Hrowsb) as (Hrows1 & Hpockets1 & _).
  eexists _, _.
  split; [unfold performMove, performMoveRun; rewrite Hrun; reflexivity|].
  cbn [after].
  rewrite getStonesAt_inside;
    [ | now apply passTurn_rowsMatch
      | rewrite passTurn_pockets, Hpockets1, Hpocketsb; exact Hin ].
  f_equal. rewrite cellAt_passTurn.
  rewrite <- Hplayerb.
  rewrite cellAt_settle_away by (rewrite ?Hplayerb; assumption || lia).
  rewrite Hplayerb. subst b.
  rewrite cellAt_sowAll_away by (assumption || lia).
  unfold pickUp. now apply cellAt_set_same.
Qed.

Lemma chosen_pit_left_empty_witness :
  wellFormed fullMirror /\ isValidMove fullMirror 0 = Ok true
  /\ getStonesAt fullMirror (currentPlayer fullMirror) 0 = Ok 1
  /\ 1 <= 2 * pocketsPerSide fullMirror
  /\ exists keeps s',
       performMove fullMirror 0 = Ok (keeps, s')
       /\ getStonesAt s' (currentPlayer fullMirror) 0 = Ok 0.
Proof.
  assert (Hwf : wellFormed fullMirror).
  { split; [split; reflexivity | left; reflexivity]. }
  assert (Hvalid : isValidMove fullMirror 0 = Ok true) by reflexivity.
  assert (Hget : getStonesAt fullMirror (currentPlayer fullMirror) 0 = Ok 1)
    by reflexivity.
  assert (Hshort : 1 <= 2 * pocketsPerSide fullMirror) by (simpl; lia).
  exact (conj Hwf (conj Hvalid (conj Hget (conj Hshort
           (chosen_pit_left_empty fullMirror 0 1 Hwf Hvalid Hget Hshort))))).
Defined.

(** * The flat board *)

Lemma matrix_get_middle (front : list Z) x back :
  matrix_get (front ++ x :: back) (Z.of_nat (length front)) = Ok x.
Proof.
  rewrite matrix_get_inside by (rewrite length_app; simpl; lia).
  rewrite Nat2Z.id. now rewrite list_lookup_middle.
Qed.

Lemma matrix_get_half_even cells i :
  matrix_get_half cells (2 * i) = matrix_get cells i.
Proof.
  unfold matrix_get_half. rewrite Z.even_mul. simpl.
  now rewrite Z.mul_comm, Z.div_mul by lia.
Qed.

Lemma readPits_slice row : forall front back i twiceOffset,
  2 * i + twiceOffset = 2 * Z.of_nat (length front) ->
  readPits (length row) (front ++ row ++ back) i twiceOffset = Ok row.
Proof.
  induction row as [|x row IH]; intros front back i twiceOffset Hat; simpl;
    [reflexivity|].
  rewrite Hat, matrix_get_half_even, matrix_get_middle. cbn [bind].
  replace (front ++ x :: row ++ back) with ((front ++ [x]) ++ row ++ back)
    by now rewrite <- app_assoc.
  rewrite IH by (rewrite length_app; simpl; lia).
  reflexivity.
Qed.

(** A flat board made of two rows of equal length is read as the two
    rows. *)
Lemma renderCounts_two_rows row1 row2 m1 m2 :
  length row1 = length row2 ->
  renderCounts (mkBoardState (row1 ++ row2) m1 m2) = Ok (row1, row2, m1, m2).
Proof.
  intros Hlen. unfold renderCounts.
  cbn [board board_mancalas_player1 board_mancalas_player2].
  rewrite length_app, <- Hlen.
  replace ((Z.of_nat (length row1 + length row1) + 1) / 2)
    with (Z.of_nat (length row1)).
  2:{ apply Z.div_unique with (r := 1); lia. }
  rewrite Nat2Z.id.
  pose proof (readPits_slice row1 [] row2 0 0 eq_refl) as Hfirst.
  assert (Hsecond : readPits (length row2) (row1 ++ row2 ++ []) 0
                      (Z.of_nat (length row1 + length row1)) = Ok row2)
    by (apply readPits_slice; lia).
  rewrite app_nil_r, <- Hlen in Hsecond. simpl app in Hfirst.
  now rewrite Hfirst, Hsecond.
Qed.

(** X9.  The first [renderBoard] reads a flat board as two rows laid end
    to end: when the board is [row1 ++ row2] with rows of equal length, the
    counts it draws for player 1 are [row1] and those for player 2 are
    [row2], and no read leaves the matrix.  On a board with an odd number
    of cells it throws: the first loop reads its pits, and the first index
    of the second loop, [0 + size / 2], is not an integer. *)
Theorem renderCounts_reads_two_rows row1 row2 m1 m2 :
  length row1 = length row2 ->
  renderCounts (mkBoardState (row1 ++ row2) m1 m2) = Ok (row1, row2, m1, m2)
  /\ forall extra,
       (exists read,
          readPits (Z.to_nat ((Z.of_nat (length (row1 ++ row2 ++ [extra])) + 1)
                              / 2))
            (row1 ++ row2 ++ [extra]) 0 0 = Ok read)
       /\ renderCounts (mkBoardState (row1 ++ row2 ++ [extra]) m1 m2)
          = Throws.
Proof.
  intros Hlen. split; [now apply renderCounts_two_rows|].
  intros extra.
  set (cells := row1 ++ row2 ++ [extra]).
  assert (Hsize : Z.of_nat (length cells)
                  = 2 * Z.of_nat (length row1) + 1).
  { subst cells. rewrite !length_app. simpl. lia. }
  assert (Hpasses : Z.to_nat ((Z.of_nat (length cells) + 1) / 2)
                    = S (length row1)).
  { rewrite Hsize.
    replace (2 * Z.of_nat (length row1) + 1 + 1)
      with ((Z.of_nat (length row1) + 1) * 2) by lia.
    rewrite Z.div_mul by lia. lia. }
  assert (Hfirst : readPits (S (length row1)) cells 0 0
                   = Ok (take (S (length row1)) cells)).
  { pose proof (readPits_slice (take (S (length row1)) cells) []
                  (drop (S (length row1)) cells) 0 0 eq_refl) as Hread.
    simpl app in Hread. rewrite take_drop in Hread.
    rewrite length_take in Hread.
    replace (S (length row1) `min` length cells)%nat
      with (S (length row1)) in Hread by lia.
    exact Hread. }
  rewrite Hpasses. split; [eauto|].
  unfold renderCounts. cbn [board]. fold cells.
  rewrite Hpasses, Hfirst. cbn [bind].
  cbn [readPits]. unfold matrix_get_half.
  replace (Z.even (2 * 0 + Z.of_nat (length cells))) with false;
    [reflexivity|].
  rewrite Hsize. simpl (2 * 0).
  rewrite Z.add_0_l, Z.add_comm, Z.even_add_mul_2. reflexivity.
Qed.

Lemma renderCounts_reads_two_rows_witness :
  length [1; 2; 3] = length [4; 5; 6]
  /\ renderCounts (mkBoardState ([1; 2; 3] ++ [4; 5; 6]) 7 8)
     = Ok ([1; 2; 3], [4; 5; 6], 7, 8)
  /\ renderCounts (mkBoardState ([1; 2; 3] ++ [4; 5; 6] ++ [9]) 7 8)
     = Throws.
Proof.
  assert (Hlen : length [1; 2; 3] = length [4; 5; 6]) by reflexivity.
  destruct (renderCounts_reads_two_rows [1; 2; 3] [4; 5; 6] 7 8 Hlen)
    as [Heven Hodd].
  exact (conj Hlen (conj Heven (proj2 (Hodd 9)))).
Defined.

(** X10.  [initializeBoard] and the [GameState] constructor start from the
    same position: for a number of pits a side whose double is a valid
    array length, the flat board is player 1's row followed by player 2's
    row, the stores agree, and [renderBoard] draws from the flat board the
    counts that the engine holds. *)
Theorem flat_board_matches_engine dims pockets :
  validArrayLength (pockets * 2) = true ->
  exists bs s,
    initializeBoard dims pockets = Ok bs
    /\ GameState_new dims pockets = Ok s
    /\ board bs = player1Board s ++ player2Board s
    /\ board_mancalas_player1 bs = mancalas_player1 s
    /\ board_mancalas_player2 bs = mancalas_player2 s
    /\ renderCounts bs
       = Ok (player1Board s, player2Board s,
             mancalas_player1 s, mancalas_player2 s).
Proof.
  intros Hsize.
  assert (Hlen : validArrayLength pockets = true)
    by (unfold validArrayLength in *; lia).
  unfold initializeBoard, GameState_new. cbv zeta. rewrite Hsize, Hlen.
  eexists _, _. split; [reflexivity|]. split; [reflexivity|].
  cbn [board player1Board player2Board board_mancalas_player1
         board_mancalas_player2 mancalas_player1 mancalas_player2].
  assert (Hboard : replicate (Z.to_nat (pockets * 2)) 4
                   = replicate (Z.to_nat pockets) initialStones
                     ++ replicate (Z.to_nat pockets) initialStones).
  { rewrite <- replicate_add. f_equal.
    unfold validArrayLength in Hlen. lia. }
  split; [exact Hboard|]. split; [reflexivity|]. split; [reflexivity|].
  rewrite Hboard. now apply renderCounts_two_rows.
Qed.

Lemma flat_board_matches_engine_witness :
  validArrayLength (6 * 2) = true
  /\ exists bs s,
       initializeBoard 2 6 = Ok bs
       /\ GameState_new 2 6 = Ok s
       /\ board bs = player1Board s ++ player2Board s
       /\ board_mancalas_player1 bs = mancalas_player1 s
       /\ board_mancalas_player2 bs = mancalas_player2 s
       /\ renderCounts bs
          = Ok (player1Board s, player2Board s,
                mancalas_player1 s, mancalas_player2 s).
Proof.
  assert (Hsize : validArrayLength (6 * 2) = true) by reflexivity.
  exact (conj Hsize (flat_board_matches_engine 2 6 Hsize)).
Defined.

(** * Highlights *)

Lemma glowOn_glowOn level level' m :
  glowOn level' (glowOn level m) = glowOn level' m.
Proof. now destruct m. Qed.

Lemma glowOn_glowOff level m : glowOn level (glowOff m) = glowOn level m.
Proof. now destruct m. Qed.

Lemma glowOff_glowOn level m : glowOff (glowOn level m) = glowOff m.
Proof. now destruct m. Qed.

Lemma glowOff_glowOff m : glowOff (glowOff m) = glowOff m.
Proof. now destruct m. Qed.

Lemma lightPit_lookup pits pos level (i : nat) :
  lightPit pits pos level !! i
  = (if (0 <=? pos) && (Z.to_nat pos =? i)%nat then glowOn level else id)
      <$> pits !! i.
Proof.
  unfold lightPit.
  destruct (Z.leb_spec 0 pos) as [Hpos | Hneg]; simpl;
    [|now destruct (pits !! i)].
  destruct (Nat.eqb_spec (Z.to_nat pos) i) as [-> | Hne].
  - destruct (pits !! i) as [pit|] eqn:Hpit; simpl; [|now rewrite Hpit].
    rewrite list_lookup_insert_eq; [reflexivity|].
    now apply lookup_lt_Some in Hpit.
  - destruct (pits !! Z.to_nat pos) as [pit|];
      [rewrite list_lookup_insert_ne by assumption|];
      now destruct (pits !! i).
Qed.

Lemma lightPit_length pits pos level :
  length (lightPit pits pos level) = length pits.
Proof.
  unfold lightPit. destruct (0 <=? pos); [|reflexivity].
  destruct (pits !! Z.to_nat pos); [apply length_insert | reflexivity].
Qed.

Lemma lightPit_glowOff pits pos level :
  map glowOff (lightPit pits pos level) = map glowOff pits.
Proof.
  unfold lightPit. destruct (0 <=? pos); [|reflexivity].
  destruct (pits !! Z.to_nat pos) as [pit|] eqn:Hpit; [|reflexivity].
  change (map glowOff) with (fmap (M := list) glowOff).
  rewrite list_fmap_insert, glowOff_glowOn.
  apply list_insert_id. now rewrite list_lookup_fmap, Hpit.
Qed.

(** What one entry of the sequence does to one spot. *)
Lemma meshAt_highlightCell len v index c spot :
  meshAt (highlightCell len v index c) spot
  = (if names c spot then glowOn (Fade index len) else id) <$> meshAt v spot.
Proof.
  unfold highlightCell, names.
  destruct spot as [[|] | [|] i], (isMancala c), (player c =? 1);
    simpl; try reflexivity;
    try (now destruct (_ !! i));
    rewrite lightPit_lookup; reflexivity.
Qed.

Lemma meshAt_highlightFrom len sequence spot : forall index v,
  meshAt (highlightFrom len index v sequence) spot
  = (match lastNaming index sequence spot with
     | Some k => glowOn (Fade k len)
     | None => id
     end) <$> meshAt v spot.
Proof.
  induction sequence as [|c rest IH]; intros index v; simpl.
  - now destruct (meshAt v spot).
  - rewrite IH, meshAt_highlightCell.
    destruct (lastNaming (S index) rest spot) as [k|],
      (names c spot), (meshAt v spot) as [m|]; simpl;
      try reflexivity.
    now rewrite glowOn_glowOn.
Qed.

Lemma meshAt_resetHighlights v spot :
  meshAt (resetHighlights v) spot = glowOff <$> meshAt v spot.
Proof.
  destruct spot as [[|] | [|] i]; simpl; try reflexivity;
    change (map glowOff) with (fmap (M := list) glowOff);
    apply list_lookup_fmap.
Qed.

Lemma lastNaming_none sequence spot : forall index,
  Forall (fun c => names c spot = false) sequence ->
  lastNaming index sequence spot = None.
Proof.
  induction sequence as [|c rest IH]; intros index Hnone; simpl;
    [reflexivity|].
  apply Forall_cons in Hnone as [Hc Hrest].
  now rewrite IH, Hc.
Qed.

Lemma lastNaming_some sequence spot : forall index k,
  lastNaming index sequence spot = Some k ->
  exists c, sequence !! (k - index)%nat = Some c
            /\ names c spot = true /\ (index <= k)%nat.
Proof.
  induction sequence as [|c rest IH]; intros index k Hk; simpl in *;
    [discriminate|].
  destruct (lastNaming (S index) rest spot) as [k'|] eqn:Hrest.
  - injection Hk as <-.
    destruct (IH (S index) k' Hrest) as (c' & Hc' & Hnames & Hle).
    exists c'. replace (k' - index)%nat with (S (k' - S index)) by lia.
    simpl. repeat split; (assumption || lia).
  - destruct (names c spot) eqn:Hnames; [|discriminate].
    injection Hk as <-. exists c. rewrite Nat.sub_diag.
    repeat split; (reflexivity || assumption || lia).
Qed.

(** X11.  What [highlightMoveSequence] shows.  Whatever was highlighted
    before, every spot of the board that has a glow mesh ends either lit,
    with the intensity of the last entry of the sequence that names it, or
    dark, when no entry names it; entries that name no existing pit are
    skipped, and no pit is added or removed. *)
Theorem highlight_shows_sequence v sequence spot :
  meshAt (highlightMoveSequence v sequence) spot
  = (match lastNaming 0 sequence spot with
     | Some k => glowOn (Fade k (length sequence))
     | None => glowOff
     end) <$> meshAt v spot
  /\ (forall k, lastNaming 0 sequence spot = Some k ->
      exists c, sequence !! k = Some c /\ names c spot = true)
  /\ (lastNaming 0 sequence spot = None <->
      Forall (fun c => names c spot = false) sequence)
  /\ length (player1Pits (highlightMoveSequence v sequence))
     = length (player1Pits v)
  /\ length (player2Pits (highlightMoveSequence v sequence))
     = length (player2Pits v).
Proof.
  split; [|split; [|split]].
  - unfold highlightMoveSequence.
    rewrite meshAt_highlightFrom, meshAt_resetHighlights.
    destruct (lastNaming 0 sequence spot), (meshAt v spot) as [m|]; simpl;
      try reflexivity.
    now rewrite glowOn_glowOff.
  - intros k Hk.
    destruct (lastNaming_some sequence spot 0 k Hk) as (c & Hc & Hnames & _).
    exists c. now rewrite Nat.sub_0_r in Hc.
  - split; [|apply lastNaming_none].
    generalize 0%nat.
    induction sequence as [|c rest IH]; intros index Hnone; simpl in *;
      [constructor|].
    destruct (lastNaming (S index) rest spot) eqn:Hrest; [discriminate|].
    destruct (names c spot) eqn:Hnames; [discriminate|].
    constructor; [assumption | now apply (IH (S index))].
  - unfold highlightMoveSequence.
    assert (Hlen : forall len seq index w,
              length (player1Pits (highlightFrom len index w seq))
              = length (player1Pits w)
              /\ length (player2Pits (highlightFrom len index w seq))
                 = length (player2Pits w)).
    { induction seq as [|c rest IH]; intros index w; simpl; [now split|].
      destruct (IH (S index) (highlightCell len w index c)) as [-> ->].
      unfold highlightCell.
      destruct (isMancala c), (player c =? 1); simpl;
        rewrite ?lightPit_length; now split. }
    destruct (Hlen (length sequence) sequence 0%nat (resetHighlights v))
      as [-> ->].
    simpl. now rewrite !length_map.
Qed.

Lemma resetHighlights_highlightCell len v index c :
  resetHighlights (highlightCell len v index c) = resetHighlights v.
Proof.
  unfold resetHighlights, highlightCell.
  destruct (isMancala c), (player c =? 1); simpl;
    now rewrite ?lightPit_glowOff, ?glowOff_glowOn.
Qed.

Lemma resetHighlights_highlightFrom len sequence : forall index v,
  resetHighlights (highlightFrom len index v sequence) = resetHighlights v.
Proof.
  induction sequence as [|c rest IH]; intros index v; simpl; [reflexivity|].
  now rewrite IH, resetHighlights_highlightCell.
Qed.

Lemma resetHighlights_twice v :
  resetHighlights (resetHighlights v) = resetHighlights v.
Proof.
  unfold resetHighlights. simpl. rewrite !glowOff_glowOff. f_equal;
    rewrite map_map; apply map_ext; intros; apply glowOff_glowOff.
Qed.

(** X12.  Highlights do not pile up: [highlightMoveSequence] starts by
    switching every glow off, so what it shows depends on the sequence it
    is given and not on what was shown before, and [clearHighlights]
    leaves every glow mesh invisible with intensity 0. *)
Theorem highlights_do_not_accumulate v earlier sequence :
  highlightMoveSequence (highlightMoveSequence v earlier) sequence
  = highlightMoveSequence v sequence
  /\ clearHighlights (highlightMoveSequence v earlier) = clearHighlights v
  /\ forall spot,
       meshAt (clearHighlights (highlightMoveSequence v earlier)) spot
       = glowOff <$> meshAt v spot.
Proof.
  assert (Hreset : resetHighlights (highlightMoveSequence v earlier)
                   = resetHighlights v).
  { unfold highlightMoveSequence.
    now rewrite resetHighlights_highlightFrom, resetHighlights_twice. }
  split; [|split].
  - unfold highlightMoveSequence at 1 3. now rewrite Hreset.
  - unfold clearHighlights, highlightMoveSequence at 1 3. now rewrite Hreset.
  - intros spot. unfold clearHighlights, highlightMoveSequence at 1.
    simpl. now rewrite Hreset, meshAt_resetHighlights.
Qed.

(** ** The preview on screen *)

(** A spot that no entry names is dark after the highlighting. *)
Lemma highlight_shows_preview_aux v sequence spot :
  Forall (fun c => names c spot = false) sequence ->
  meshAt (highlightMoveSequence v sequence) spot = glowOff <$> meshAt v spot
  /\ lastNaming 0 sequence spot = None.
Proof.
  intros Hnone.
  pose proof (lastNaming_none sequence spot 0%nat Hnone) as Hlast.
  split; [|exact Hlast].
  unfold highlightMoveSequence.
  rewrite meshAt_highlightFrom, meshAt_resetHighlights, Hlast.
  now destruct (meshAt v spot).
Qed.

Lemma names_opponent_store mover pockets c :
  mover = 1 \/ mover = 2 -> cellOk mover pockets c ->
  names c (MancalaSpot (otherPlayer mover =? 1)) = false.
Proof.
  intros Hmover Hc. unfold names, cellOk in *.
  destruct (isMancala c); [|reflexivity].
  rewrite Hc. destruct Hmover as [-> | ->]; reflexivity.
Qed.

Lemma names_chosen_pit mover chosen c :
  mover = 1 \/ mover = 2 -> 0 <= chosen -> awayFrom mover chosen c ->
  names c (PitSpot (mover =? 1) (Z.to_nat chosen)) = false.
Proof.
  intros Hmover Hchosen Haway. unfold names.
  destruct Haway as [-> | [Hother | [Hmine Hpos]]]; [reflexivity | |].
  - rewrite Hother. destruct (isMancala c); [reflexivity|].
    destruct Hmover as [-> | ->]; reflexivity.
  - destruct (isMancala c); [reflexivity|]. simpl.
    destruct (Bool.eqb (player c =? 1) (mover =? 1)); [|reflexivity].
    destruct (Z.leb_spec 0 (position c)); [|reflexivity]. simpl.
    destruct (Nat.eqb_spec (Z.to_nat (position c)) (Z.to_nat chosen));
      [lia | reflexivity].
Qed.

(** X13.  Hovering over a pit that the player to move can play shows the
    preview of that move: [handleHover] highlights the sequence of
    [simulateMove].  The opponent's store is never lit by it, and when the
    pit holds at most [2 * P] stones the hovered pit itself is not lit
    either. *)
Theorem hover_shows_preview s v pos n :
  wellFormed s -> isValidMove s pos = Ok true ->
  getStonesAt s (currentPlayer s) pos = Ok n ->
  exists cells,
    simulateMove s pos = Ok cells
    /\ handleHover s v (Some (currentPlayer s =? 1, pos))
       = Ok (highlightMoveSequence v cells)
    /\ meshAt (highlightMoveSequence v cells)
         (MancalaSpot (otherPlayer (currentPlayer s) =? 1))
       = glowOff <$> meshAt v
           (MancalaSpot (otherPlayer (currentPlayer s) =? 1))
    /\ (n <= 2 * pocketsPerSide s ->
        meshAt (highlightMoveSequence v cells)
          (PitSpot (currentPlayer s =? 1) (Z.to_nat pos))
        = glowOff <$> meshAt v
            (PitSpot (currentPlayer s =? 1) (Z.to_nat pos))).
Proof.
  intros [Hrows Hplayer] Hvalid Hn.
  destruct (isValidMove_picked s pos Hrows Hvalid) as (Hin & Hget & Hpos).
  rewrite Hget in Hn. injection Hn as <-.
  pose proof (simulateMove_valid s pos Hrows Hvalid) as Hsim.
  destruct (previewOf_valid s pos _ Hrows Hvalid Hsim) as (Hok & _ & _).
  set (cells := simulateLoop (Z.to_nat (cellAt s (currentPlayer s) pos))
                  (currentPlayer s) (pocketsPerSide s) (currentPlayer s)
                  pos []) in *.
  exists cells. split; [exact Hsim|]. split; [|split].
  - unfold handleHover.
    destruct Hplayer as [Hone | Htwo]; [rewrite Hone | rewrite Htwo]; simpl;
      rewrite <- ?Hone, <- ?Htwo, Hsim; reflexivity.
  - destruct (highlight_shows_preview_aux v cells
                (MancalaSpot (otherPlayer (currentPlayer s) =? 1))) as [-> _].
    + eapply Forall_impl; [exact Hok|]. simpl. intros c Hc.
      now apply (names_opponent_store _ (pocketsPerSide s)).
    + reflexivity.
  - intros Hshort.
    destruct (highlight_shows_preview_aux v cells
                (PitSpot (currentPlayer s =? 1) (Z.to_nat pos))) as [-> _].
    + assert (Haway : Forall (awayFrom (currentPlayer s) pos) cells).
      { apply (walk_misses_chosen (currentPlayer s) (pocketsPerSide s) pos
                 Hplayer Hin _ _ _ (2 * pocketsPerSide s + 1));
          [left|]; lia. }
      eapply Forall_impl; [exact Haway|]. simpl. intros c Hc.
      apply names_chosen_pit; (assumption || lia).
    + reflexivity.
Qed.

Lemma hover_shows_preview_witness :
  wellFormed opening /\ isValidMove opening 5 = Ok true
  /\ getStonesAt opening (currentPlayer opening) 5 = Ok 4
  /\ exists cells,
       simulateMove opening 5 = Ok cells
       /\ handleHover opening freshVisuals (Some (true, 5))
          = Ok (highlightMoveSequence freshVisuals cells)
       /\ player2Mancala (highlightMoveSequence freshVisuals cells)
          = Some (mkGlow false NoGlow)
       /\ player1Mancala (highlightMoveSequence freshVisuals cells)
          = Some (mkGlow true (Fade 0 4)).
Proof.
  assert (Hwf : wellFormed opening).
  { split; [split; reflexivity | left; reflexivity]. }
  assert (Hvalid : isValidMove opening 5 = Ok true) by reflexivity.
  assert (Hget : getStonesAt opening (currentPlayer opening) 5 = Ok 4)
    by reflexivity.
  split; [exact Hwf|]. split; [exact Hvalid|]. split; [exact Hget|].
  destruct (hover_shows_preview opening freshVisuals 5 4 Hwf Hvalid Hget)
    as (cells & Hsim & Hhover & _).
  exists cells. split; [exact Hsim|]. split; [exact Hhover|].
  injection Hsim as <-. split; reflexivity.
Defined.

(** X14.  Hovering over a pit that cannot be played.  Over a pit of the
    player to move that [isValidMove] rejects, [handleHover] clears every
    highlight; over a pit of the other player it changes nothing, so a
    preview shown before stays on screen; away from every pit it clears
    every highlight. *)
Theorem hover_without_preview s v pos :
  wellFormed s -> isValidMove s pos = Ok false ->
  handleHover s v (Some (currentPlayer s =? 1, pos)) = Ok (clearHighlights v)
  /\ (forall pos',
        handleHover s v (Some (negb (currentPlayer s =? 1), pos')) = Ok v)
  /\ handleHover s v None = Ok (clearHighlights v).
Proof.
  intros [_ Hplayer] Hinvalid.
  assert (Hsim : simulateMove s pos = Ok []).
  { unfold simulateMove. now rewrite Hinvalid. }
  unfold handleHover.
  destruct Hplayer as [Hone | Htwo]; [rewrite Hone | rewrite Htwo]; simpl;
    rewrite <- ?Hone, <- ?Htwo, Hsim; repeat split.
Qed.

Lemma hover_without_preview_witness :
  wellFormed fullMirror /\ isValidMove fullMirror 1 = Ok false
  /\ handleHover fullMirror freshVisuals (Some (true, 1))
     = Ok (clearHighlights freshVisuals)
  /\ (forall pos',
        handleHover fullMirror freshVisuals (Some (false, pos'))
        = Ok freshVisuals)
  /\ handleHover fullMirror freshVisuals None
     = Ok (clearHighlights freshVisuals).
Proof.
  assert (Hwf : wellFormed fullMirror).
  { split; [split; reflexivity | left; reflexivity]. }
  assert (Hinvalid : isValidMove fullMirror 1 = Ok false) by reflexivity.
  exact (conj Hwf (conj Hinvalid
           (hover_without_preview fullMirror freshVisuals 1 Hwf Hinvalid))).
Defined.

(** * Redrawing *)

Lemma readRow_slice s who row : forall front back i,
  boardOf s who = front ++ row ++ back ->
  i = Z.of_nat (length front) ->
  readRow (length row) s who i = Ok row.
Proof.
  induction row as [|x row IH]; intros front back i Hboard ->; simpl;
    [reflexivity|].
  unfold getStonesAt. rewrite Hboard.
  change ((x :: row) ++ back) with (x :: row ++ back).
  rewrite matrix_get_middle. cbn [bind].
  rewrite (IH (front ++ [x]) back);
    [ reflexivity
    | now rewrite Hboard, <- app_assoc
    | rewrite length_app; simpl; lia ].
Qed.

Lemma readRow_past_the_end s who row extra : forall front i,
  boardOf s who = front ++ row ->
  i = Z.of_nat (length front) ->
  readRow (length row + S extra) s who i = Throws.
Proof.
  induction row as [|x row IH]; intros front i Hboard ->; simpl.
  - unfold getStonesAt, matrix_get. rewrite Hboard, app_nil_r.
    replace (Z.of_nat (length front) >=? Z.of_nat (length front))
      with true by lia.
    now rewrite orb_true_r.
  - unfold getStonesAt. rewrite Hboard, matrix_get_middle. cbn [bind].
    rewrite (IH (front ++ [x]));
      [ reflexivity
      | now rewrite Hboard, <- app_assoc
      | rewrite length_app; simpl; lia ].
Qed.

(** X15.  After a move, [animateMove] clears every highlight and redraws
    the board from the engine: when each row of pit meshes has as many
    meshes as the engine's row has pits, the counts drawn are the two rows
    and the two stores, and no read throws.  With more pit meshes than
    pits, the redraw throws. *)
Theorem animateMove_redraws_engine v s :
  length (player1Pits v) = length (player1Board s) ->
  length (player2Pits v) = length (player2Board s) ->
  animateMove v s
  = Ok (clearHighlights v,
        (player1Board s, player2Board s,
         mancalas_player1 s, mancalas_player2 s))
  /\ (forall spot,
        meshAt (clearHighlights v) spot = glowOff <$> meshAt v spot)
  /\ forall mesh,
       updateBoard
         (mkVisualElements (player1Pits v ++ [mesh]) (player2Pits v)
            (player1Mancala v) (player2Mancala v)) s
       = Throws.
Proof.
  intros Hlen1 Hlen2.
  assert (Hrow1 : readRow (length (player1Board s)) s 1 0
                  = Ok (player1Board s)).
  { apply (readRow_slice s 1 (player1Board s) [] []);
      [now rewrite app_nil_r | reflexivity]. }
  assert (Hrow2 : readRow (length (player2Board s)) s 2 0
                  = Ok (player2Board s)).
  { apply (readRow_slice s 2 (player2Board s) [] []);
      [now rewrite app_nil_r | reflexivity]. }
  split; [|split].
  - unfold animateMove, updateBoard, clearHighlights, highlightMoveSequence.
    simpl. rewrite !length_map, Hlen1, Hlen2, Hrow1, Hrow2. reflexivity.
  - intros spot. unfold clearHighlights, highlightMoveSequence. simpl.
    apply meshAt_resetHighlights.
  - intros mesh. unfold updateBoard. cbn [player1Pits].
    rewrite length_app, Hlen1. simpl length.
    replace (length (player1Board s) + 1)%nat
      with (length (player1Board s) + S 0)%nat by lia.
    now rewrite (readRow_past_the_end s 1 (player1Board s) 0 [] 0).
Qed.

Lemma animateMove_redraws_engine_witness :
  length (player1Pits freshVisuals) = length (player1Board fullMirror)
  /\ length (player2Pits freshVisuals) = length (player2Board fullMirror)
  /\ animateMove freshVisuals fullMirror
     = Ok (clearHighlights freshVisuals,
           ([1; 0; 4; 4; 4; 4], [4; 4; 4; 4; 4; 4], 0, 0)).
Proof.
  assert (Hlen1 : length (player1Pits freshVisuals)
                  = length (player1Board fullMirror)) by reflexivity.
  assert (Hlen2 : length (player2Pits freshVisuals)
                  = length (player2Board fullMirror)) by reflexivity.
  exact (conj Hlen1 (conj Hlen2
           (proj1 (animateMove_redraws_engine freshVisuals fullMirror
                     Hlen1 Hlen2)))).
Defined.

(** * The move on the board, read off the preview *)

(** ** Counting the entries of a sequence *)

Lemma timesSown_cons c cells x :
  timesSown (c :: cells) x
  = (if sameCell x c then 1 else 0) + timesSown cells x.
Proof.
  unfold timesSown. simpl. destruct (sameCell x c); simpl length; lia.
Qed.

Lemma timesSown_app front back x :
  timesSown (front ++ back) x = timesSown front x + timesSown back x.
Proof.
  unfold timesSown. rewrite List.filter_app, length_app. lia.
Qed.

Lemma timesSown_nonneg cells x : 0 <= timesSown cells x.
Proof. unfold timesSown. lia. Qed.

Lemma sameCell_refl c : sameCell c c = true.
Proof.
  unfold sameCell. rewrite !Z.eqb_refl. now destruct (isMancala c).
Qed.

(** Every entry of the preview of a player who is 1 or 2 names player 1
    or 2. *)
Lemma simulateLoop_players mover pockets k : forall who pos,
  who = 1 \/ who = 2 ->
  Forall (fun c => player c = 1 \/ player c = 2)
    (simulateLoop k mover pockets who pos []).
Proof.
  induction k as [|k IH]; intros who pos Hwho; simpl; [constructor|].
  destruct (pos + 1 >=? pockets); [destruct (who =? mover)|];
    rewrite simulateLoop_acc; simpl; constructor;
    try apply IH; simpl; auto using otherPlayer_range.
Qed.

(** ** One stone, read back *)

Lemma cellAt_sowCell t mover c who i :
  rowsMatch t -> who = 1 \/ who = 2 -> 0 <= i < pocketsPerSide t ->
  cellOk mover (pocketsPerSide t) c -> player c = 1 \/ player c = 2 ->
  cellAt (sowCell t c) who i
  = cellAt t who i + (if sameCell (pitCell who i) c then 1 else 0).
Proof.
  intros Hrows Hwho Hi Hc Hplayer. unfold sowCell, sameCell, cellOk in *.
  simpl player. simpl position. simpl isMancala.
  destruct (isMancala c) eqn:Hm.
  - rewrite cellAt_mancalaAdd, andb_false_r. lia.
  - rewrite andb_true_r.
    destruct (Z.eqb_spec who (player c)) as [-> | Hrow];
      [destruct (Z.eqb_spec i (position c)) as [-> | Hpos]|]; simpl.
    + rewrite cellAt_set_same by assumption. reflexivity.
    + rewrite cellAt_set_elsewhere by (right; lia). lia.
    + rewrite cellAt_set_elsewhere; [lia|]. left.
      destruct Hwho as [-> | ->], Hplayer as [Hp | Hp]; rewrite Hp in *;
        simpl; congruence.
Qed.

Lemma stores_sowCell t mover pockets c :
  cellOk mover pockets c -> player c = 1 \/ player c = 2 ->
  mancalas_player1 (sowCell t c)
  = mancalas_player1 t + (if sameCell (mancalaCell 1) c then 1 else 0)
  /\ mancalas_player2 (sowCell t c)
     = mancalas_player2 t + (if sameCell (mancalaCell 2) c then 1 else 0).
Proof.
  intros Hc Hplayer. unfold sowCell, sameCell, cellOk in *.
  simpl player. simpl position. simpl isMancala.
  destruct (isMancala c) eqn:Hm.
  - rewrite Hc in *. simpl in *.
    destruct Hplayer as [-> | ->]; simpl; lia.
  - destruct (setStonesAt_mancalas t (player c) (position c)
                (cellAt t (player c) (position c) + 1)) as [-> ->].
    rewrite !andb_false_r. lia.
Qed.

(** ** A sequence sown, read back *)

Lemma sowAll_reads mover cells : forall t,
  rowsMatch t ->
  Forall (cellOk mover (pocketsPerSide t)) cells ->
  Forall (fun c => player c = 1 \/ player c = 2) cells ->
  (forall who i,
     who = 1 \/ who = 2 -> 0 <= i < pocketsPerSide t ->
     cellAt (sowAll t cells) who i
     = cellAt t who i + timesSown cells (pitCell who i))
  /\ mancalas_player1 (sowAll t cells)
     = mancalas_player1 t + timesSown cells (mancalaCell 1)
  /\ mancalas_player2 (sowAll t cells)
     = mancalas_player2 t + timesSown cells (mancalaCell 2).
Proof.
  induction cells as [|c cells IH]; intros t Hrows Hok Hplayers.
  - simpl. unfold timesSown. simpl. repeat split; intros; lia.
  - apply Forall_cons in Hok as [Hc Hok].
    apply Forall_cons in Hplayers as [Hp Hplayers].
    change (sowAll t (c :: cells)) with (sowAll (sowCell t c) cells).
    destruct (IH (sowCell t c)) as (Hpits & Hstore1 & Hstore2);
      [ now apply sowCell_rowsMatch
      | now rewrite sowCell_pockets
      | assumption |].
    destruct (stores_sowCell t mover (pocketsPerSide t) c Hc Hp)
      as [Hone Htwo].
    rewrite !timesSown_cons. repeat split.
    + intros who i Hwho Hi.
      rewrite Hpits by (try rewrite sowCell_pockets; assumption).
      rewrite (cellAt_sowCell t mover), timesSown_cons by assumption. lia.
    + rewrite Hstore1, Hone. lia.
    + rewrite Hstore2, Htwo. lia.
Qed.

Lemma pickUp_reads s pos who i :
  rowsMatch s -> currentPlayer s = 1 \/ currentPlayer s = 2 ->
  0 <= pos < pocketsPerSide s -> who = 1 \/ who = 2 -> 0 <= i ->
  cellAt (pickUp s pos) who i
  = if (who =? currentPlayer s) && (i =? pos) then 0 else cellAt s who i.
Proof.
  intros Hrows Hmover Hpos Hwho Hi. unfold pickUp.
  destruct (Z.eqb_spec who (currentPlayer s)) as [-> | Hrow];
    [destruct (Z.eqb_spec i pos) as [-> | Hne]|]; simpl.
  - now apply cellAt_set_same.
  - apply cellAt_set_elsewhere. right. lia.
  - apply cellAt_set_elsewhere. left.
    destruct Hwho as [-> | ->], Hmover as [Hm | Hm]; rewrite Hm in *;
      simpl; congruence.
Qed.

(** The board on which the stones of pit [pos] have been picked up and the
    entries of [cells] sown reads as computed from [s] and [cells]. *)
Lemma readsAs_sown s pos cells :
  wellFormed s -> 0 <= pos < pocketsPerSide s ->
  Forall (cellOk (currentPlayer s) (pocketsPerSide s)) cells ->
  Forall (fun c => player c = 1 \/ player c = 2) cells ->
  readsAs (sowAll (pickUp s pos) cells) (pocketsPerSide s)
    (pitAfterSowing s pos cells) (storeAfterSowing s cells).
Proof.
  intros [Hrows Hmover] Hpos Hok Hplayers.
  destruct (pickUp_facts s pos Hrows) as (Hrows0 & Hpockets0 & _).
  destruct (sowAll_reads (currentPlayer s) cells (pickUp s pos) Hrows0)
    as (Hpits & Hstore1 & Hstore2);
    [now rewrite Hpockets0 | assumption |].
  rewrite Hpockets0 in Hpits.
  destruct (setStonesAt_mancalas s (currentPlayer s) pos 0) as [Hm1 Hm2].
  fold (pickUp s pos) in Hm1, Hm2.
  split; [|split].
  - intros who i Hwho Hi.
    rewrite getStonesAt_inside;
      [ | now apply sowAll_rowsMatch
        | now rewrite sowAll_pockets, Hpockets0 ].
    f_equal. rewrite Hpits by assumption.
    unfold pitAfterSowing. rewrite pickUp_reads by (assumption || lia).
    reflexivity.
  - rewrite Hstore1, Hm1. reflexivity.
  - rewrite Hstore2, Hm2. reflexivity.
Qed.

(** ** The loop, pass by pass *)

(** When the loop returns within its bound, stopping it after as many
    passes gives what it returns. *)
Lemma sowLoop_sowPasses fuel : forall s w r,
  sowLoop fuel s w = Ok r -> sowPasses fuel s w = Ok r.
Proof.
  induction fuel as [|fuel IH]; intros s w r Hrun; simpl in *.
  - now destruct (stones w >? 0).
  - destruct (stones w >? 0); [|assumption].
    destruct (sowIteration s w) as [[[s1 w1] stop]| |]; simpl in *;
      try discriminate.
    destruct stop; [assumption | now apply IH].
Qed.

(** After any number of passes the loop has sown a prefix of the preview,
    and nothing else has happened to the board; the capture step comes
    with the last stone. *)
Lemma sowPasses_spec j : forall s w,
  rowsMatch s -> 0 <= currentPos w < pocketsPerSide s ->
  lastStoneInMancala w = false -> 0 <= stones w ->
  exists s' w' pref rest,
    sowPasses j s w = Ok (s', w')
    /\ touched w' = touched w ++ pref
    /\ simulateLoop (Z.to_nat (stones w)) (currentPlayer s)
         (pocketsPerSide s) (cursorPlayer w) (currentPos w) []
       = pref ++ rest
    /\ Z.of_nat (length pref) + stones w' = stones w
    /\ 0 <= stones w'
    /\ s' = (if stones w' =? 0 then settle (sowAll s pref) pref
             else sowAll s pref).
Proof.
  assert (Hstay : forall s w,
            exists s' w' pref rest,
              Ok (s, w) = Ok (s', w')
              /\ touched w' = touched w ++ pref
              /\ simulateLoop (Z.to_nat (stones w)) (currentPlayer s)
                   (pocketsPerSide s) (cursorPlayer w) (currentPos w) []
                 = pref ++ rest
              /\ Z.of_nat (length pref) + stones w' = stones w
              /\ (0 <= stones w -> 0 <= stones w')
              /\ s' = (if stones w' =? 0 then settle (sowAll s pref) pref
                       else sowAll s pref)).
  { intros s w. eexists s, w, [], _.
    split; [reflexivity|]. split; [now rewrite app_nil_r|].
    split; [reflexivity|]. split; [simpl; lia|]. split; [auto|].
    now destruct (stones w =? 0). }
  induction j as [|j IH]; intros s w Hrows Hpos Hflag Hstones; simpl.
  - destruct (Hstay s w) as (s' & w' & pref & rest & H1 & H2 & H3 & H4 & H5 & H6).
    exists s', w', pref, rest. repeat split; auto.
  - destruct (Z.gtb_spec (stones w) 0) as [Hsome | Hnone].
    2:{ destruct (Hstay s w)
          as (s' & w' & pref & rest & H1 & H2 & H3 & H4 & H5 & H6).
        exists s', w', pref, rest. repeat split; auto. }
    destruct (sowIteration_spec s w Hrows Hpos ltac:(lia) Hflag)
      as (s1 & w1 & stop & cs & Hrun & Htouched & _ & Hleft & Hsim
          & Hs1 & Hcs & Hstop & Hflag1 & Hbreak & Hgoon).
    assert (Hlen : Z.of_nat (length cs) + stones w1 = stones w).
    { apply (f_equal length) in Hsim.
      rewrite length_app, !simulateLoop_length in Hsim. simpl in Hsim. lia. }
    rewrite Hrun. cbn [bind]. destruct stop.
    + eexists s1, w1, cs, _. split; [reflexivity|].
      split; [assumption|]. split; [exact Hsim|].
      split; [assumption|]. split; [lia | assumption].
    + assert (Hrows1 : rowsMatch s1
                       /\ pocketsPerSide s1 = pocketsPerSide s
                       /\ currentPlayer s1 = currentPlayer s).
      { rewrite Hs1. destruct (stones w1 =? 0).
        - destruct (settle_facts (sowAll s cs) cs) as (? & -> & ->);
            [now apply sowAll_rowsMatch|].
          rewrite sowAll_pockets, sowAll_currentPlayer.
          split; [assumption | split; reflexivity].
        - rewrite sowAll_pockets, sowAll_currentPlayer.
          split; [now apply sowAll_rowsMatch | split; reflexivity]. }
      destruct Hrows1 as (Hrows1 & Hpockets1 & Hplayer1).
      destruct (IH s1 w1)
        as (s' & w' & pref & rest & Hpasses & Htouched' & Hsim' & Hlen'
            & Hstones' & Hs');
        [ assumption | rewrite Hpockets1; now apply Hgoon | assumption
        | lia |].
      rewrite Hpockets1, Hplayer1 in Hsim'.
      exists s', w', (cs ++ pref), rest. split; [exact Hpasses|].
      split; [now rewrite Htouched', Htouched, app_assoc|].
      split; [now rewrite Hsim, Hsim', app_assoc|].
      split; [rewrite length_app; lia|]. split; [assumption|].
      rewrite Hs', Hs1.
      destruct (Z.eqb_spec (stones w1) 0) as [Hzero | Hmore].
      * (* that pass took the last stone *)
        assert (Hpref : pref = []).
        { destruct pref; [reflexivity | simpl in Hlen'; lia]. }
        subst pref. rewrite app_nil_r.
        replace (stones w' =? 0) with true by (simpl in Hlen'; lia).
        reflexivity.
      * rewrite !sowAll_app.
        destruct (Z.eqb_spec (stones w') 0) as [Hend | _]; [|reflexivity].
        rewrite settle_app; [reflexivity|].
        intros ->. simpl in Hlen'. lia.
Qed.

(** ** The end of the move, read back *)

Lemma getStonesAt_passTurn t keeps who i :
  getStonesAt (passTurn t keeps) who i = getStonesAt t who i.
Proof. now destruct keeps. Qed.

Lemma readsAs_passTurn t keeps pockets pit store :
  readsAs t pockets pit store -> readsAs (passTurn t keeps) pockets pit store.
Proof.
  intros (Hpits & H1 & H2). split; [|now destruct keeps].
  intros who i Hwho Hi. rewrite getStonesAt_passTurn. now apply Hpits.
Qed.

(** The board after sowing and the capture step reads as computed from
    [s] and the preview. *)
Lemma readsAs_settled s pos cells :
  wellFormed s -> 0 <= pos < pocketsPerSide s ->
  Forall (cellOk (currentPlayer s) (pocketsPerSide s)) cells ->
  Forall (fun c => player c = 1 \/ player c = 2) cells ->
  readsAs (settle (sowAll (pickUp s pos) cells) cells) (pocketsPerSide s)
    (pitAfterMove s pos cells) (storeAfterMove s pos cells).
Proof.
  intros Hwf Hpos Hok Hplayers. pose proof Hwf as [Hrows Hmover].
  pose proof (readsAs_sown s pos cells Hwf Hpos Hok Hplayers)
    as (Hpits & Hstore1 & Hstore2).
  set (b := sowAll (pickUp s pos) cells) in *.
  destruct (pickUp_facts s pos Hrows) as (Hrows0 & Hpockets0 & Hplayer0).
  assert (Hb : rowsMatch b /\ pocketsPerSide b = pocketsPerSide s
               /\ currentPlayer b = currentPlayer s).
  { subst b. rewrite sowAll_pockets, sowAll_currentPlayer.
    split; [now apply sowAll_rowsMatch | now split]. }
  destruct Hb as (Hrowsb & Hpocketsb & Hplayerb).
  assert (Hcell : forall who i,
            who = 1 \/ who = 2 -> 0 <= i < pocketsPerSide s ->
            cellAt b who i = pitAfterSowing s pos cells who i).
  { intros who i Hwho Hi. specialize (Hpits who i Hwho Hi).
    rewrite getStonesAt_inside in Hpits by (rewrite ?Hpocketsb; assumption).
    now injection Hpits. }
  unfold settle, pitAfterMove, storeAfterMove, captureDue.
  destruct (last cells) as [c|] eqn:Hlast;
    [|split; [assumption | now split]].
  assert (Hc : cellOk (currentPlayer s) (pocketsPerSide s) c
               /\ (player c = 1 \/ player c = 2)).
  { rewrite Forall_forall in Hok, Hplayers.
    pose proof (last_Some_elem_of _ _ Hlast). auto. }
  destruct Hc as [Hc Hp]. unfold cellOk in Hc.
  destruct (isMancala c) eqn:Hm; cbn [negb andb];
    [split; [assumption | now split]|].
  assert (Hother := otherPlayer_range (player c)).
  assert (Hmirror : 0 <= mirror s (position c) < pocketsPerSide s)
    by (unfold mirror; lia).
  unfold captureAt, captures.
  rewrite Hplayerb.
  replace (mirror b (position c)) with (mirror s (position c))
    by (unfold mirror; now rewrite Hpocketsb).
  rewrite !Hcell by assumption.
  destruct ((player c =? currentPlayer s)
            && (pitAfterSowing s pos cells (player c) (position c) =? 1)
            && (pitAfterSowing s pos cells (otherPlayer (player c))
                  (mirror s (position c)) >? 0)) eqn:Hdue; cbn [andb];
    [|split; [assumption | now split]].
  (* the move captures *)
  destruct (transfer_cells b (player c) (position c)) as (Hpit & Hfacing & _);
    [assumption | assumption | now rewrite Hpocketsb |].
  replace (mirror b (position c)) with (mirror s (position c)) in Hfacing
    by (unfold mirror; now rewrite Hpocketsb).
  destruct (transfer_facts b (player c) (position c) Hrowsb)
    as (Hrowst & Hpocketst & _).
  assert (Hrow : forall who who',
            who = 1 \/ who = 2 -> who' = 1 \/ who' = 2 -> who <> who' ->
            (who =? 1) <> (who' =? 1)).
  { intros who who' [-> | ->] [-> | ->]; simpl; congruence. }
  split; [|split].
  - intros who i Hwho Hi.
    rewrite getStonesAt_inside
      by (rewrite ?Hpocketst, ?Hpocketsb; assumption).
    f_equal.
    destruct (Z.eqb_spec who (player c)) as [-> | Hnotlanding];
      [destruct (Z.eqb_spec i (position c)) as [-> | Hnotpit]|];
      cbn [andb orb].
    + exact Hpit.
    + replace (player c =? otherPlayer (player c)) with false
        by (pose proof (otherPlayer_neq (player c)); lia).
      cbn [andb]. rewrite <- Hcell by assumption.
      unfold transfer. rewrite cellAt_mancalaAdd.
      rewrite cellAt_set_elsewhere by (right; lia).
      apply cellAt_set_facing.
    + destruct (Z.eqb_spec who (otherPlayer (player c))) as [-> | Hnotfacing];
        [destruct (Z.eqb_spec i (mirror s (position c))) as [-> | Hnotmirror]|];
        cbn [andb].
      * exact Hfacing.
      * rewrite <- Hcell by assumption.
        unfold transfer. rewrite cellAt_mancalaAdd, cellAt_set_own.
        replace (mirror b (position c)) with (mirror s (position c))
          by (unfold mirror; now rewrite Hpocketsb).
        apply cellAt_set_elsewhere. right. lia.
      * exfalso. clear -Hwho Hp Hnotlanding Hnotfacing.
        unfold otherPlayer in Hnotfacing.
        destruct Hwho as [-> | ->], Hp as [Hp | Hp];
          rewrite Hp in *; simpl in *; congruence.
  - unfold transfer, mancalaAdd.
    replace (mirror b (position c)) with (mirror s (position c))
      by (unfold mirror; now rewrite Hpocketsb).
    rewrite Hcell by assumption.
    destruct Hp as [Hp | Hp]; rewrite Hp; simpl;
      destruct (setStonesAt_mancalas
                  (setStonesAt b (otherPlayer (player c))
                     (mirror s (position c)) 0) (player c) (position c) 0)
        as [H1 H2];
      destruct (setStonesAt_mancalas b (otherPlayer (player c))
                  (mirror s (position c)) 0) as [H3 H4];
      rewrite Hp in *; simpl in *; rewrite ?H1, ?H3; lia.
  - unfold transfer, mancalaAdd.
    replace (mirror b (position c)) with (mirror s (position c))
      by (unfold mirror; now rewrite Hpocketsb).
    rewrite Hcell by assumption.
    destruct Hp as [Hp | Hp]; rewrite Hp; simpl;
      destruct (setStonesAt_mancalas
                  (setStonesAt b (otherPlayer (player c))
                     (mirror s (position c)) 0) (player c) (position c) 0)
        as [H1 H2];
      destruct (setStonesAt_mancalas b (otherPlayer (player c))
                  (mirror s (position c)) 0) as [H3 H4];
      rewrite Hp in *; simpl in *; rewrite ?H2, ?H4; lia.
Qed.

(** ** The preview agrees with the move *)

(** What is known of a valid move on a well-formed state, in one place. *)
Lemma move_summary s pos :
  wellFormed s -> isValidMove s pos = Ok true ->
  exists cells n,
    simulateMove s pos = Ok cells
    /\ cells = simulateLoop (Z.to_nat (cellAt s (currentPlayer s) pos))
                 (currentPlayer s) (pocketsPerSide s) (currentPlayer s) pos []
    /\ performMoveRun s pos
       = Ok (mkMoveOutcome (endsInMancala cells)
               (passTurn (settle (sowAll (pickUp s pos) cells) cells)
                  (endsInMancala cells))
               cells n)
    /\ 0 <= pos < pocketsPerSide s
    /\ Z.of_nat (length cells) = cellAt s (currentPlayer s) pos
    /\ cells <> []
    /\ Forall (cellOk (currentPlayer s) (pocketsPerSide s)) cells
    /\ Forall (fun c => player c = 1 \/ player c = 2) cells
    /\ readsAs (passTurn (settle (sowAll (pickUp s pos) cells) cells)
                  (endsInMancala cells))
         (pocketsPerSide s) (pitAfterMove s pos cells)
         (storeAfterMove s pos cells).
Proof.
  intros Hwf Hvalid. pose proof Hwf as [Hrows Hmover].
  destruct (isValidMove_picked s pos Hrows Hvalid) as (Hin & Hget & Hn).
  destruct (performMoveWith_closed s pos (stonesInHand s pos) Hrows Hvalid)
    as (cells & n & Hsim & Hrun & _); [lia|].
  destruct (previewOf_valid s pos cells Hrows Hvalid Hsim)
    as (Hok & Hne & Hlen).
  pose proof Hsim as Hloop.
  rewrite simulateMove_valid in Hloop by assumption. injection Hloop as Hloop.
  assert (Hplayers : Forall (fun c => player c = 1 \/ player c = 2) cells).
  { rewrite <- Hloop. now apply simulateLoop_players. }
  exists cells, n.
  split; [exact Hsim|]. split; [now symmetry|]. split; [exact Hrun|].
  split; [exact Hin|]. split; [exact Hlen|]. split; [exact Hne|].
  split; [exact Hok|]. split; [exact Hplayers|].
  apply readsAs_passTurn. now apply readsAs_settled.
Qed.

(** C1, as the code has it.  For every well-formed state and every
    position that [isValidMove] accepts, [performMove] returns, and the
    cells to which it adds a sown stone, in the order in which it does so
    (store deposits included), are exactly the sequence that [simulateMove]
    returns, prefix by prefix.  On the board: however many passes of the
    loop have run, the stones sown so far are a prefix of that sequence,
    and while stones remain in hand every pit and store reads as the
    original count (0 for the chosen pit) plus the number of times that
    prefix names it; run to its end, the loop has sown the whole sequence
    and the move leaves every pit and store as computed from the original
    board and the sequence.  The writes of [performMove] that are not
    sowing, the pick-up before the loop and the transfer of a capture
    after the last stone, are not entries of the sequence. *)
Theorem simulate_perform_agreement s pos :
  wellFormed s -> isValidMove s pos = Ok true ->
  exists o cells,
    performMoveRun s pos = Ok o
    /\ simulateMove s pos = Ok cells
    /\ sown o = cells
    /\ (forall k, take k (sown o) = take k cells)
    /\ after o
       = passTurn (settle (sowAll (pickUp s pos) cells) cells) (keepsTurn o)
    /\ (forall j,
          exists sj wj,
            sowPasses j (pickUp s pos)
              (startOfSowing s pos (Z.of_nat (length cells)))
            = Ok (sj, wj)
            /\ touched wj = take (length (touched wj)) cells
            /\ Z.of_nat (length (touched wj)) + stones wj
               = Z.of_nat (length cells)
            /\ (0 < stones wj ->
                readsAs sj (pocketsPerSide s)
                  (pitAfterSowing s pos (touched wj))
                  (storeAfterSowing s (touched wj))))
    /\ (exists sn wn,
          sowPasses (length cells) (pickUp s pos)
            (startOfSowing s pos (Z.of_nat (length cells)))
          = Ok (sn, wn)
          /\ stones wn = 0
          /\ touched wn = cells
          /\ after o = passTurn sn (keepsTurn o))
    /\ readsAs (after o) (pocketsPerSide s)
         (pitAfterMove s pos cells) (storeAfterMove s pos cells).
Proof.
  intros Hwf Hvalid. pose proof Hwf as [Hrows Hmover].
  destruct (move_summary s pos Hwf Hvalid)
    as (cells & n & Hsim & Hloop & Hrun & Hin & Hlen & Hne & Hok & Hplayers
        & Hreads).
  destruct (pickUp_facts s pos Hrows) as (Hrows0 & Hpockets0 & Hplayer0).
  set (w0 := startOfSowing s pos (Z.of_nat (length cells))).
  assert (Hw0 : simulateLoop (Z.to_nat (stones w0))
                  (currentPlayer (pickUp s pos))
                  (pocketsPerSide (pickUp s pos)) (cursorPlayer w0)
                  (currentPos w0) [] = cells).
  { subst w0. unfold startOfSowing. cbn [stones cursorPlayer currentPos].
    rewrite Hpockets0, Hplayer0, Hlen. now symmetry. }
  assert (Hpasses : forall j,
            exists sj wj pref rest,
              sowPasses j (pickUp s pos) w0 = Ok (sj, wj)
              /\ touched wj = pref /\ cells = pref ++ rest
              /\ Z.of_nat (length pref) + stones wj = Z.of_nat (length cells)
              /\ sj = (if stones wj =? 0
                       then settle (sowAll (pickUp s pos) pref) pref
                       else sowAll (pickUp s pos) pref)).
  { intros j.
    destruct (sowPasses_spec j (pickUp s pos) w0)
      as (sj & wj & pref & rest & Hrunj & Htouched & Hsplit & Hcount & _
          & Hsj);
      [ assumption | now rewrite Hpockets0 | reflexivity
      | subst w0; simpl; lia |].
    rewrite Hw0 in Hsplit.
    exists sj, wj, pref, rest. repeat split; assumption. }
  exists (mkMoveOutcome (endsInMancala cells)
            (passTurn (settle (sowAll (pickUp s pos) cells) cells)
               (endsInMancala cells)) cells n), cells.
  cbn [sown after keepsTurn].
  split; [exact Hrun|]. split; [exact Hsim|]. split; [reflexivity|].
  split; [reflexivity|]. split; [reflexivity|].
  split; [|split; [|exact Hreads]].
  - intros j.
    destruct (Hpasses j) as (sj & wj & pref & rest & Hrunj & Htouched
                             & Hsplit & Hcount & Hsj).
    exists sj, wj. split; [exact Hrunj|]. rewrite Htouched.
    split; [rewrite Hsplit; now rewrite take_app_length|].
    split; [exact Hcount|].
    intros Hleft. replace (stones wj =? 0) with false in Hsj by lia.
    rewrite Hsj. rewrite Hsplit in Hok, Hplayers.
    apply Forall_app in Hok as [Hok _].
    apply Forall_app in Hplayers as [Hplayers _].
    now apply readsAs_sown.
  - destruct (sowLoop_spec (length cells) (pickUp s pos) w0)
      as (wn & Hrunn & Htouched & _);
      [ assumption | now rewrite Hpockets0
      | subst w0; simpl; lia | reflexivity |].
    cbv zeta in Hrunn. rewrite Hw0 in Hrunn, Htouched.
    apply sowLoop_sowPasses in Hrunn.
    destruct (Hpasses (length cells))
      as (sj & wj & pref & rest & Hrunj & Htouchedj & _ & Hcount & _).
    rewrite Hrunn in Hrunj. injection Hrunj as <- <-.
    eexists _, wn. split; [exact Hrunn|].
    simpl in Htouched. rewrite Htouched in Htouchedj. subst pref.
    split; [lia|]. split; [exact Htouched | reflexivity].
Qed.

Lemma simulate_perform_agreement_witness :
  wellFormed opening /\ isValidMove opening 5 = Ok true
  /\ exists o cells,
       performMoveRun opening 5 = Ok o
       /\ simulateMove opening 5 = Ok cells
       /\ sown o = cells
       /\ readsAs (after o) (pocketsPerSide opening)
            (pitAfterMove opening 5 cells) (storeAfterMove opening 5 cells).
Proof.
  assert (Hwf : wellFormed opening).
  { split; [split; reflexivity | left; reflexivity]. }
  assert (Hvalid : isValidMove opening 5 = Ok true) by reflexivity.
  split; [exact Hwf|]. split; [exact Hvalid|].
  destruct (simulate_perform_agreement opening 5 Hwf Hvalid)
    as (o & cells & Hrun & Hsim & Hsown & _ & _ & _ & _ & Hreads).
  exists o, cells.
  exact (conj Hrun (conj Hsim (conj Hsown Hreads))).
Defined.

(** C1 does not hold as stated: [performMove] mutates cells that are not
    in the sequence of [simulateMove].  On [fullMirror] the move from
    pit 0 empties the chosen pit (the pick-up) and, by capture, the pit
    opposite the landing pit, and adds five stones to the store; the
    sequence is the landing pit alone, which holds after the move what it
    held before. *)
Lemma preview_omits_pickup_and_capture :
  simulateMove fullMirror 0 = Ok [pitCell 1 1]
  /\ exists keeps s',
       performMove fullMirror 0 = Ok (keeps, s')
       /\ getStonesAt fullMirror 1 0 = Ok 1 /\ getStonesAt s' 1 0 = Ok 0
       /\ getStonesAt fullMirror 2 4 = Ok 4 /\ getStonesAt s' 2 4 = Ok 0
       /\ mancalas_player1 fullMirror = 0 /\ mancalas_player1 s' = 5
       /\ getStonesAt fullMirror 1 1 = Ok 0 /\ getStonesAt s' 1 1 = Ok 0
       /\ ~ In (pitCell 1 0) [pitCell 1 1]
       /\ ~ In (pitCell 2 4) [pitCell 1 1]
       /\ ~ In (mancalaCell 1) [pitCell 1 1].
Proof.
  split; [reflexivity|]. eexists _, _. split; [reflexivity|].
  repeat split; try reflexivity;
    intros [Heq | []]; discriminate.
Qed.

(** ** Keeping the turn, on the board *)

Lemma timesSown_last_store front mover x :
  timesSown (front ++ [mancalaCell mover]) x
  = timesSown front x + (if sameCell x (mancalaCell mover) then 1 else 0).
Proof.
  rewrite timesSown_app, timesSown_cons. unfold timesSown. simpl. lia.
Qed.

Lemma timesSown_last x front c :
  timesSown (front ++ [c]) x
  = timesSown front x + (if sameCell x c then 1 else 0).
Proof.
  rewrite timesSown_app, timesSown_cons. unfold timesSown. simpl. lia.
Qed.

(** C4.  For every valid position on a well-formed state, [performMove]
    returns true if and only if the last stone it sowed went into the
    mover's own store.  In the sequence of cells sown: the last entry is
    the mover's store.  On the board: with [front] the cells of all stones
    but the last, the move leaves every pit as the first stones left it and
    the mover's store with exactly one stone more than they left it, the
    opponent's store as it was.  The turn marker is unchanged when it
    returns true and is the other player when it returns false. *)
Theorem keeps_turn_iff_last_in_store s pos :
  wellFormed s -> isValidMove s pos = Ok true ->
  exists o front c,
    performMoveRun s pos = Ok o
    /\ performMove s pos = Ok (keepsTurn o, after o)
    /\ simulateMove s pos = Ok (front ++ [c])
    /\ sown o = front ++ [c]
    /\ (keepsTurn o = true
        <-> last (sown o) = Some (mancalaCell (currentPlayer s)))
    /\ (keepsTurn o = true
        <-> readsAs (after o) (pocketsPerSide s)
              (pitAfterSowing s pos front)
              (fun who =>
                 storeAfterSowing s front who
                 + (if who =? currentPlayer s then 1 else 0)))
    /\ (keepsTurn o = true -> currentPlayer (after o) = currentPlayer s)
    /\ (keepsTurn o = false ->
        currentPlayer (after o) = otherPlayer (currentPlayer s)
        /\ currentPlayer (after o) <> currentPlayer s).
Proof.
  intros Hwf Hvalid. pose proof Hwf as [Hrows Hmover].
  destruct (move_summary s pos Hwf Hvalid)
    as (cells & n & Hsim & _ & Hrun & Hin & _ & Hne & Hok & Hplayers
        & Hreads).
  destruct (exists_last Hne) as (front & c & ->).
  assert (Hplayer :
    currentPlayer (settle (sowAll (pickUp s pos) (front ++ [c]))
                     (front ++ [c])) = currentPlayer s).
  { destruct (settle_facts (sowAll (pickUp s pos) (front ++ [c]))
                (front ++ [c])) as (_ & _ & ->).
    - apply sowAll_rowsMatch. now apply setStonesAt_rowsMatch.
    - rewrite sowAll_currentPlayer. apply setStonesAt_currentPlayer. }
  eexists _, front, c. split; [exact Hrun|].
  split; [unfold performMove; now rewrite Hrun|].
  cbn [keepsTurn after sown].
  split; [exact Hsim|]. split; [reflexivity|].
  split; [now apply endsInMancala_store with (pockets := pocketsPerSide s)|].
  split.
  2:{ rewrite passTurn_currentPlayer, Hplayer.
      split; intros ->; [reflexivity|].
      split; [reflexivity | apply otherPlayer_neq]. }
  (* the last stone, on the board *)
  set (t := passTurn _ _) in *.
  destruct Hreads as (Hpits & Hstore1 & Hstore2).
  pose proof Hok as Hc. apply Forall_app in Hc as [_ Hc].
  apply (proj1 (Forall_singleton _ _)) in Hc. unfold cellOk in Hc.
  unfold endsInMancala. rewrite last_snoc.
  unfold pitAfterMove, storeAfterMove, captureDue in *.
  rewrite last_snoc in *.
  destruct (isMancala c) eqn:Hm.
  - (* the last stone was dropped in the store *)
    split; [intros _ | reflexivity].
    cbn [negb andb] in *. subst c.
    split; [|split].
    + intros who i Hwho Hi. rewrite (Hpits who i Hwho Hi). f_equal.
      unfold pitAfterSowing. rewrite timesSown_last_store.
      unfold sameCell. simpl. rewrite andb_false_r. lia.
    + rewrite Hstore1. unfold storeAfterSowing.
      rewrite timesSown_last_store. unfold sameCell. simpl.
      rewrite !andb_true_r. lia.
    + rewrite Hstore2. unfold storeAfterSowing.
      rewrite timesSown_last_store. unfold sameCell. simpl.
      rewrite !andb_true_r. lia.
  - (* the last stone was dropped in a pit: the store did not gain
       exactly one stone over the first stones *)
    split; [discriminate|]. intros (_ & Hone & Htwo). exfalso.
    cbn [negb andb] in *.
    assert (Hpit : forall who,
              storeAfterSowing s (front ++ [c]) who
              = storeAfterSowing s front who).
    { intros who. unfold storeAfterSowing. rewrite timesSown_last.
      unfold sameCell. simpl. rewrite Hm, andb_false_r. lia. }
    rewrite !Hpit in *.
    destruct ((player c =? currentPlayer s)
              && (pitAfterSowing s pos (front ++ [c]) (player c)
                    (position c) =? 1)
              && (pitAfterSowing s pos (front ++ [c])
                    (otherPlayer (player c)) (mirror s (position c)) >? 0))
      eqn:Hdue; cbn [andb] in *.
    + apply andb_prop in Hdue as [Hdue Hfacing].
      apply andb_prop in Hdue as [Hmine _].
      apply Z.eqb_eq in Hmine. rewrite Hmine in *.
      destruct Hmover as [Hm1 | Hm2];
        [rewrite Hm1 in *; simpl in *; lia
        |rewrite Hm2 in *; simpl in *; lia].
    + destruct Hmover as [Hm1 | Hm2];
        [rewrite Hm1 in *; simpl in *; lia
        |rewrite Hm2 in *; simpl in *; lia].
Qed.

Lemma keeps_turn_iff_last_in_store_witness :
  wellFormed opening /\ isValidMove opening 2 = Ok true
  /\ exists o front c,
       performMoveRun opening 2 = Ok o
       /\ performMove opening 2 = Ok (keepsTurn o, after o)
       /\ simulateMove opening 2 = Ok (front ++ [c])
       /\ sown o = front ++ [c]
       /\ (keepsTurn o = true
           <-> last (sown o) = Some (mancalaCell (currentPlayer opening)))
       /\ (keepsTurn o = true
           <-> readsAs (after o) (pocketsPerSide opening)
                 (pitAfterSowing opening 2 front)
                 (fun who =>
                    storeAfterSowing opening front who
                    + (if who =? currentPlayer opening then 1 else 0)))
       /\ (keepsTurn o = true ->
           currentPlayer (after o) = currentPlayer opening)
       /\ (keepsTurn o = false ->
           currentPlayer (after o) = otherPlayer (currentPlayer opening)
           /\ currentPlayer (after o) <> currentPlayer opening).
Proof.
  assert (Hwf : wellFormed opening).
  { split; [split; reflexivity | left; reflexivity]. }
  assert (Hvalid : isValidMove opening 2 = Ok true) by reflexivity.
  exact (conj Hwf (conj Hvalid
           (keeps_turn_iff_last_in_store opening 2 Hwf Hvalid))).
Defined.

(** * Exceptions *)

(** Whatever the position, [performMove] returns, on a state whose rows
    have [pocketsPerSide] cells, a state whose rows have as many. *)
Lemma performMove_rows s pos :
  rowsMatch s ->
  exists keeps s',
    performMove s pos = Ok (keeps, s')
    /\ rowsMatch s'
    /\ pocketsPerSide s' = pocketsPerSide s.
Proof.
  intros Hrows.
  destruct (isValidMove_returns s pos Hrows) as [[|] Hvalid].
  - destruct (performMoveWith_closed s pos (stonesInHand s pos) Hrows Hvalid)
      as (cells & n & _ & Hrun & _); [lia|].
    unfold performMove, performMoveRun. rewrite Hrun.
    cbn [bind keepsTurn after]. eexists _, _. split; [reflexivity|].
    destruct (pickUp_facts s pos Hrows) as (Hrows0 & Hpockets0 & _).
    assert (Hrowsb : rowsMatch (sowAll (pickUp s pos) cells))
      by now apply sowAll_rowsMatch.
    destruct (settle_facts _ cells Hrowsb) as (Hrows1 & Hpockets1 & _).
    split; [now apply passTurn_rowsMatch|].
    now rewrite passTurn_pockets, Hpockets1, sowAll_pockets.
  - exists false, s.
    unfold performMove, performMoveRun, performMoveWith. rewrite Hvalid.
    split; [reflexivity|]. now split.
Qed.

(** With one pit mesh for each pit of the engine, the redraw reads the two
    rows and the two stores. *)
Lemma animateMove_returns v s :
  length (player1Pits v) = length (player1Board s) ->
  length (player2Pits v) = length (player2Board s) ->
  animateMove v s
  = Ok (clearHighlights v,
        (player1Board s, player2Board s,
         mancalas_player1 s, mancalas_player2 s))
  /\ length (player1Pits (clearHighlights v)) = length (player1Pits v)
  /\ length (player2Pits (clearHighlights v)) = length (player2Pits v).
Proof.
  intros Hlen1 Hlen2.
  assert (Hrow1 : readRow (length (player1Board s)) s 1 0
                  = Ok (player1Board s)).
  { apply (readRow_slice s 1 (player1Board s) [] []);
      [now rewrite app_nil_r | reflexivity]. }
  assert (Hrow2 : readRow (length (player2Board s)) s 2 0
                  = Ok (player2Board s)).
  { apply (readRow_slice s 2 (player2Board s) [] []);
      [now rewrite app_nil_r | reflexivity]. }
  unfold animateMove, updateBoard, clearHighlights, highlightMoveSequence.
  simpl. rewrite !length_map, Hlen1, Hlen2, Hrow1, Hrow2.
  now repeat split.
Qed.

(** X1.  On a state whose rows have [pocketsPerSide] cells, no call of the
    engine throws at an integer position, inside the board or not: the
    range test of [isValidMove] keeps every index that reaches the matrices
    inside them.  Nor does a click, redraw included, when the board has one
    pit mesh for each pit of the engine: [handleClick] returns, its state
    is the one [performMove] leaves when it is the turn of the row clicked
    and the state it was given otherwise, the redraw that follows a valid
    move draws the rows and stores of that state with every highlight
    cleared, and the state and meshes it leaves satisfy the same
    conditions, so that no later click throws either. *)
Theorem engine_never_throws s v pos clicked :
  rowsMatch s ->
  length (player1Pits v) = length (player1Board s) ->
  length (player2Pits v) = length (player2Board s) ->
  (exists valid keeps s' cells,
     isValidMove s pos = Ok valid
     /\ performMove s pos = Ok (keeps, s')
     /\ simulateMove s pos = Ok cells
     /\ clickPit s pos = Ok s')
  /\ exists t v' drawn,
       handleClick s v clicked = Ok (t, v', drawn)
       /\ rowsMatch t
       /\ length (player1Pits v') = length (player1Board t)
       /\ length (player2Pits v') = length (player2Board t)
       /\ (forall row p,
             clicked = Some (row, p) ->
             currentPlayer s = (if row : bool then 1 else 2) ->
             clickPit s p = Ok t
             /\ (isValidMove s p = Ok true ->
                 v' = clearHighlights v
                 /\ drawn = Some (player1Board t, player2Board t,
                                  mancalas_player1 t, mancalas_player2 t))
             /\ (isValidMove s p = Ok false ->
                 t = s /\ v' = v /\ drawn = None))
       /\ (clicked = None
           \/ (exists row p,
                 clicked = Some (row, p)
                 /\ currentPlayer s <> (if row : bool then 1 else 2)) ->
           t = s /\ v' = v /\ drawn = None).
Proof.
  intros Hrows Hlen1 Hlen2. split.
  { destruct (isValidMove_returns s pos Hrows) as [[|] Hvalid].
    - destruct (performMoveWith_closed s pos (stonesInHand s pos) Hrows
                  Hvalid) as (cells & n & Hsim & Hrun & _); [lia|].
      eexists true, _, _, cells. split; [exact Hvalid|].
      unfold clickPit, performMove, performMoveRun.
      rewrite Hvalid, Hrun. cbn [bind keepsTurn after]. now repeat split.
    - exists false, false, s, [].
      unfold clickPit, performMove, performMoveRun, performMoveWith,
        simulateMove.
      rewrite Hvalid. now repeat split. }
  assert (Hidle : exists t v' drawn,
            Ok (s, v, @None (list Z * list Z * Z * Z)) = Ok (t, v', drawn)
            /\ rowsMatch t
            /\ length (player1Pits v') = length (player1Board t)
            /\ length (player2Pits v') = length (player2Board t)
            /\ t = s /\ v' = v /\ drawn = None).
  { exists s, v, None. split; [reflexivity|].
    split; [exact Hrows|]. split; [exact Hlen1|]. split; [exact Hlen2|].
    now split. }
  assert (Hplay : forall p, exists t v' drawn,
            (let! valid := isValidMove s p in
             if valid then
               let! (_, s') := performMove s p in
               let! (v', drawn) := animateMove v s' in
               Ok (s', v', Some drawn)
             else Ok (s, v, None)) = Ok (t, v', drawn)
            /\ rowsMatch t
            /\ length (player1Pits v') = length (player1Board t)
            /\ length (player2Pits v') = length (player2Board t)
            /\ clickPit s p = Ok t
            /\ (isValidMove s p = Ok true ->
                v' = clearHighlights v
                /\ drawn = Some (player1Board t, player2Board t,
                                 mancalas_player1 t, mancalas_player2 t))
            /\ (isValidMove s p = Ok false ->
                t = s /\ v' = v /\ drawn = None)).
  { intros p. unfold clickPit.
    destruct (isValidMove_returns s p Hrows) as [[|] Hvalid];
      rewrite Hvalid; cbn [bind].
    - destruct (performMove_rows s p Hrows)
        as (keeps & s' & Hmove & Hrows' & Hpockets).
      assert (Hlen1' : length (player1Pits v) = length (player1Board s')).
      { destruct Hrows as [H1 _], Hrows' as [H1' _]. lia. }
      assert (Hlen2' : length (player2Pits v) = length (player2Board s')).
      { destruct Hrows as [_ H2], Hrows' as [_ H2']. lia. }
      destruct (animateMove_returns v s' Hlen1' Hlen2')
        as (Hdraw & Hclear1 & Hclear2).
      rewrite Hmove. cbn [bind]. rewrite Hdraw. cbn [bind].
      eexists _, _, _. split; [reflexivity|].
      split; [exact Hrows'|]. split; [lia|]. split; [lia|].
      split; [reflexivity|]. split; [now split | discriminate].
    - exists s, v, None. split; [reflexivity|].
      split; [exact Hrows|]. split; [exact Hlen1|]. split; [exact Hlen2|].
      split; [reflexivity|]. split; [discriminate | now repeat split]. }
  unfold handleClick. cbv zeta.
  destruct clicked as [[[|] p]|].
  - destruct (Z.eqb_spec (currentPlayer s) 1) as [Hturn | Hturn].
    + destruct (Hplay p) as (t & v' & drawn & Hrun & Hr & H1 & H2 & Hrest).
      exists t, v', drawn. split; [exact Hrun|].
      split; [exact Hr|]. split; [exact H1|]. split; [exact H2|]. split.
      * intros row q [= <- <-] _. exact Hrest.
      * intros [Hnone | (row & q & [= <- <-] & Hnot)];
          [discriminate | contradiction].
    + destruct Hidle as (t & v' & drawn & Hrun & Hr & H1 & H2 & Hrest).
      exists t, v', drawn. split; [exact Hrun|].
      split; [exact Hr|]. split; [exact H1|]. split; [exact H2|]. split.
      * intros row q [= <- <-] Hmine. contradiction.
      * intros _. exact Hrest.
  - destruct (Z.eqb_spec (currentPlayer s) 2) as [Hturn | Hturn].
    + destruct (Hplay p) as (t & v' & drawn & Hrun & Hr & H1 & H2 & Hrest).
      exists t, v', drawn. split; [exact Hrun|].
      split; [exact Hr|]. split; [exact H1|]. split; [exact H2|]. split.
      * intros row q [= <- <-] _. exact Hrest.
      * intros [Hnone | (row & q & [= <- <-] & Hnot)];
          [discriminate | contradiction].
    + destruct Hidle as (t & v' & drawn & Hrun & Hr & H1 & H2 & Hrest).
      exists t, v', drawn. split; [exact Hrun|].
      split; [exact Hr|]. split; [exact H1|]. split; [exact H2|]. split.
      * intros row q [= <- <-] Hmine. contradiction.
      * intros _. exact Hrest.
  - destruct Hidle as (t & v' & drawn & Hrun & Hr & H1 & H2 & Hrest).
    exists t, v', drawn. split; [exact Hrun|].
    split; [exact Hr|]. split; [exact H1|]. split; [exact H2|]. split.
    + intros row q [=].
    + intros _. exact Hrest.
Qed.

Lemma engine_never_throws_witness :
  rowsMatch opening
  /\ length (player1Pits freshVisuals) = length (player1Board opening)
  /\ length (player2Pits freshVisuals) = length (player2Board opening)
  /\ (exists valid keeps s' cells,
        isValidMove opening 9 = Ok valid
        /\ performMove opening 9 = Ok (keeps, s')
        /\ simulateMove opening 9 = Ok cells
        /\ clickPit opening 9 = Ok s')
  /\ exists t v' drawn,
       handleClick opening freshVisuals (Some (true, 2)) = Ok (t, v', drawn)
       /\ rowsMatch t
       /\ length (player1Pits v') = length (player1Board t)
       /\ length (player2Pits v') = length (player2Board t).
Proof.
  assert (Hrows : rowsMatch opening) by (split; reflexivity).
  assert (Hlen1 : length (player1Pits freshVisuals)
                  = length (player1Board opening)) by reflexivity.
  assert (Hlen2 : length (player2Pits freshVisuals)
                  = length (player2Board opening)) by reflexivity.
  destruct (engine_never_throws opening freshVisuals 9 (Some (true, 2))
              Hrows Hlen1 Hlen2)
    as (Hengine & t & v' & drawn & Hclick & Hr & H1 & H2 & _).
  refine (conj Hrows (conj Hlen1 (conj Hlen2 (conj Hengine _)))).
  exists t, v', drawn. exact (conj Hclick (conj Hr (conj H1 H2))).
Defined.
